(** * hasna/todos: the task store, the lease lock, the dependency guard
      and the Claude mirror (push, pull, sync), embedded and verified.

    Sources embedded here:
      - [db/database.ts]  (clock helpers, lease expiry, expired-lock sweep)
      - [db/tasks.ts]     (getTask, listTasks, createTask, updateTask,
                           completeTask, lockTask, addDependency,
                           wouldCreateCycle)
      - [lib/sync-utils.ts], [lib/claude-tasks.ts] (push, pull and sync
                           passes, conflict log)

    Modelling conventions.
      - An instant is a [Z]: milliseconds since the epoch.  The source keeps
        instants as the fixed-width text of [Date.prototype.toISOString]; on
        that text SQLite's [<] and JavaScript's [Date.parse] agree with the
        order and the value of the instant.  A JSON string holding such a
        text is the constructor [JDate]; [JStr] holds every other string.
      - [Date.now()] is an oracle carried by the world: the [n]-th reading of
        the clock is [clock w n], and every reading the source takes is one
        [Date_now] here, in the source's order.
      - A table is the list of its rows; a JavaScript [Map] and the mirror
        directory are [gmap]s; an object used as an open record (metadata)
        is a [gmap string Json].
      - [crypto.randomUUID()] is an oracle too: the [n]-th id drawn is
        [uuids w n].
      - A thrown exception is the left summand of the result; the world that
        comes with it is the world at the throw. *)

From stdpp Require Import gmap strings list fin_maps sorting pretty.
From Stdlib Require Import ZArith Lia.

Set Warnings "-register-all,-clear-no-such-hyp".
Local Open Scope Z_scope.

(* ===================================================================== *)
(** ** Values *)
(* ===================================================================== *)

Inductive TaskStatus := pending | in_progress | completed | failed | cancelled.
Inductive TaskPriority := low | medium | high | critical.

#[global] Instance TaskStatus_eq_dec : EqDecision TaskStatus.
Proof. solve_decision. Defined.
#[global] Instance TaskPriority_eq_dec : EqDecision TaskPriority.
Proof. solve_decision. Defined.

(** JSON values, as [JSON.parse] yields them. *)
Inductive Json :=
| JNull
| JBool (b : bool)
| JNum (n : Z)
| JStr (s : string)
| JDate (ms : Z)
| JArr (l : list Json)
| JObj (o : gmap string Json).

(** JavaScript truthiness of the values the code tests with [if (x)],
    [x && y] and [x || y]. *)
Definition truthy_string (s : string) : bool := negb (String.eqb s "").

Definition truthy_ostring (s : option string) : bool :=
  match s with Some s => truthy_string s | None => false end.

Definition truthy_number (n : option Z) : bool :=
  match n with Some n => negb (n =? 0) | None => false end.

Definition truthy_json (j : option Json) : bool :=
  match j with
  | None | Some JNull => false
  | Some (JBool b) => b
  | Some (JNum n) => negb (n =? 0)
  | Some (JStr s) => truthy_string s
  | Some (JDate _) | Some (JArr _) | Some (JObj _) => true
  end.

Definition priority_name (p : TaskPriority) : string :=
  match p with
  | low => "low" | medium => "medium" | high => "high" | critical => "critical"
  end.

(** [interface Task] of types/index.ts, with the [task_list_id] column of
    migration 5. *)
Record Task := mkTask {
  id : string;
  project_id : option string;
  parent_id : option string;
  plan_id : option string;
  task_list_id : option string;
  title : string;
  description : option string;
  status : TaskStatus;
  priority : TaskPriority;
  agent_id : option string;
  assigned_to : option string;
  session_id : option string;
  working_dir : option string;
  tags : list string;
  metadata : gmap string Json;
  version : Z;
  locked_by : option string;
  locked_at : option Z;
  created_at : Z;
  updated_at : Z;
  completed_at : option Z
}.

(** [interface UpdateTaskInput].  An optional property is an [option]
    ([None] is [undefined]); a nullable column can also be given [null],
    which is the inner [None]. *)
Module Input.
Record UpdateTaskInput := mk {
  title : option string;
  description : option (option string);
  status : option TaskStatus;
  priority : option TaskPriority;
  assigned_to : option (option string);
  plan_id : option (option string);
  task_list_id : option (option string);
  tags : option (list string);
  metadata : option (gmap string Json);
  version : Z
}.

(** [{ version: v, metadata: m }] *)
Definition version_metadata (v : Z) (m : gmap string Json) : UpdateTaskInput :=
  mk None None None None None None None None (Some m) v.
End Input.

(** [interface LockResult]. *)
Module Lock.
Record LockResult := mk {
  success : bool;
  locked_by : option string;
  locked_at : option Z;
  error : option string
}.
End Lock.

(** The exceptions of types/index.ts, the engine's own and node's. *)
Inductive Error :=
| TaskNotFoundError (taskId : string)
| VersionConflictError (taskId : string) (expectedVersion actualVersion : Z)
| LockError (taskId lockedBy : string)
| DependencyCycleError (taskId dependsOn : string)
| SQLiteError (message : string)
| SystemError (message : string).

(** [Error.prototype.message], as each constructor builds it. *)
Definition message (e : Error) : string :=
  match e with
  | TaskNotFoundError i => "Task not found: " +:+ i
  | VersionConflictError i e a =>
      "Version conflict for task " +:+ i +:+ ": expected " +:+ pretty e
        +:+ ", got " +:+ pretty a
  | LockError i o => "Task " +:+ i +:+ " is locked by " +:+ o
  | DependencyCycleError t d =>
      "Adding dependency " +:+ t +:+ " -> " +:+ d +:+ " would create a cycle"
  | SQLiteError m => m
  | SystemError m => m
  end.

(* ===================================================================== *)
(** ** The mirror directory *)
(* ===================================================================== *)

Inductive ClaudeStatus := c_pending | c_in_progress | c_completed.

(** [interface ClaudeTask] of claude-tasks.ts.  [metadata] may be missing
    from a file written by other tooling: the source reads it with [?.]. *)
Module Claude.
Record ClaudeTask := mk {
  id : string;
  subject : string;
  description : string;
  activeForm : string;
  status : ClaudeStatus;
  owner : string;
  blocks : list string;
  blockedBy : list string;
  metadata : option (gmap string Json)
}.
End Claude.

(** A [<name>.json] entry of the directory: what [readJsonFile] returns for
    it ([None] when the text is not JSON) and its [mtimeMs]. *)
Record MirrorFile := mkFile {
  content : option Claude.ClaudeTask;
  mtimeMs : Z
}.

(** A task-list directory.  [files] holds the entries whose name ends in
    [.json], keyed by the name without that suffix.  [highwatermark] and
    [prefix_counter] are the two dot files: [None] when absent, otherwise
    what [parseInt] reads from the text ([None] for [NaN]). *)
Record MirrorDir := mkDir {
  files : gmap string MirrorFile;
  highwatermark : option (option Z);
  prefix_counter : option (option Z)
}.

(** [interface TaskPrefixConfig] of config.ts. *)
Record TaskPrefixConfig := mkPrefix {
  prefix : string;
  start_from : option Z
}.

(* ===================================================================== *)
(** ** The world and the effect monad *)
(* ===================================================================== *)

Record World := mkWorld {
  tasks : list Task;                          (* table tasks *)
  task_tags : list (string * string);         (* table task_tags *)
  task_dependencies : list (string * string); (* (task_id, depends_on) *)
  projects : list string;                     (* ids of table projects *)
  plans : list string;                        (* ids of table plans *)
  task_lists : list string;                   (* ids of table task_lists *)
  clock : nat -> Z;                           (* readings of Date.now() *)
  ticks : nat;                                (* readings taken so far *)
  uuids : nat -> string;                      (* crypto.randomUUID() *)
  minted : nat;                               (* ids drawn so far *)
  mirror : option MirrorDir;                  (* the task-list directory *)
  task_prefix : option TaskPrefixConfig       (* config.task_prefix *)
}.

Definition set_tasks (f : list Task -> list Task) (w : World) : World :=
  mkWorld (f (tasks w)) (task_tags w) (task_dependencies w) (projects w)
          (plans w) (task_lists w) (clock w) (ticks w) (uuids w) (minted w)
          (mirror w) (task_prefix w).

Definition set_task_tags (f : list (string * string) -> list (string * string))
    (w : World) : World :=
  mkWorld (tasks w) (f (task_tags w)) (task_dependencies w) (projects w)
          (plans w) (task_lists w) (clock w) (ticks w) (uuids w) (minted w)
          (mirror w) (task_prefix w).

Definition set_task_dependencies
    (f : list (string * string) -> list (string * string)) (w : World) : World :=
  mkWorld (tasks w) (task_tags w) (f (task_dependencies w)) (projects w)
          (plans w) (task_lists w) (clock w) (ticks w) (uuids w) (minted w)
          (mirror w) (task_prefix w).

Definition set_ticks (n : nat) (w : World) : World :=
  mkWorld (tasks w) (task_tags w) (task_dependencies w) (projects w)
          (plans w) (task_lists w) (clock w) n (uuids w) (minted w)
          (mirror w) (task_prefix w).

Definition set_minted (n : nat) (w : World) : World :=
  mkWorld (tasks w) (task_tags w) (task_dependencies w) (projects w)
          (plans w) (task_lists w) (clock w) (ticks w) (uuids w) n
          (mirror w) (task_prefix w).

Definition set_mirror (d : option MirrorDir) (w : World) : World :=
  mkWorld (tasks w) (task_tags w) (task_dependencies w) (projects w)
          (plans w) (task_lists w) (clock w) (ticks w) (uuids w) (minted w)
          d (task_prefix w).

(** A computation reads and writes the world and returns or throws. *)
Definition M (A : Type) : Type := World -> (Error + A) * World.

Definition ret {A} (a : A) : M A := fun w => (inr a, w).

Definition throw {A} (e : Error) : M A := fun w => (inl e, w).

Definition bind {A B} (m : M A) (k : A -> M B) : M B :=
  fun w => match m w with
           | (inr a, w') => k a w'
           | (inl e, w') => (inl e, w')
           end.

(** [try { m } catch (e) { h(e) }] *)
Definition try_catch {A} (m : M A) (h : Error -> M A) : M A :=
  fun w => match m w with
           | (inr a, w') => (inr a, w')
           | (inl e, w') => h e w'
           end.

Definition gets {A} (f : World -> A) : M A := fun w => (inr (f w), w).

Definition modify (f : World -> World) : M unit := fun w => (inr tt, f w).

#[global] Instance M_ret : MRet M := @ret.
#[global] Instance M_bind : MBind M := fun A B k m => bind m k.

(* ===================================================================== *)
(** ** db/database.ts *)
(* ===================================================================== *)

Definition LOCK_EXPIRY_MINUTES : Z := 30.

(** [LOCK_EXPIRY_MINUTES * 60 * 1000] *)
Definition expiryMs : Z := LOCK_EXPIRY_MINUTES * 60 * 1000.

(** One reading of [Date.now()]. *)
Definition Date_now : M Z :=
  fun w => (inr (clock w (ticks w)), set_ticks (S (ticks w)) w).

(** [now()]: [new Date().toISOString()]. *)
Definition now : M Z := Date_now.

Definition isLockExpired (lockedAt : option Z) : M bool :=
  match lockedAt with
  | None => ret true
  | Some lockTime => n ← Date_now; ret (expiryMs <? n - lockTime)
  end.

Definition lockExpiryCutoff : M Z :=
  nowMs ← Date_now; ret (nowMs - expiryMs).

(** The [SET] list of an [UPDATE tasks] statement, one constructor per
    assignment the source writes. *)
Inductive Assignment :=
| version_inc
| set_updated_at (v : Z)
| set_title (v : string)
| set_description (v : option string)
| set_status (v : TaskStatus)
| set_completed_at (v : option Z)
| set_priority (v : TaskPriority)
| set_assigned_to (v : option string)
| set_tags (v : list string)
| set_metadata (v : gmap string Json)
| set_plan_id (v : option string)
| set_task_list_id (v : option string)
| set_locked_by (v : option string)
| set_locked_at (v : option Z).

Definition apply_set (a : Assignment) (t : Task) : Task :=
  let '(mkTask i pj pa pl tl ti de st pr ag asg se wd tg me ve lb la cr up co) := t in
  match a with
  | version_inc => mkTask i pj pa pl tl ti de st pr ag asg se wd tg me (ve + 1) lb la cr up co
  | set_updated_at v => mkTask i pj pa pl tl ti de st pr ag asg se wd tg me ve lb la cr v co
  | set_title v => mkTask i pj pa pl tl v de st pr ag asg se wd tg me ve lb la cr up co
  | set_description v => mkTask i pj pa pl tl ti v st pr ag asg se wd tg me ve lb la cr up co
  | set_status v => mkTask i pj pa pl tl ti de v pr ag asg se wd tg me ve lb la cr up co
  | set_completed_at v => mkTask i pj pa pl tl ti de st pr ag asg se wd tg me ve lb la cr up v
  | set_priority v => mkTask i pj pa pl tl ti de st v ag asg se wd tg me ve lb la cr up co
  | set_assigned_to v => mkTask i pj pa pl tl ti de st pr ag v se wd tg me ve lb la cr up co
  | set_tags v => mkTask i pj pa pl tl ti de st pr ag asg se wd v me ve lb la cr up co
  | set_metadata v => mkTask i pj pa pl tl ti de st pr ag asg se wd tg v ve lb la cr up co
  | set_plan_id v => mkTask i pj pa v tl ti de st pr ag asg se wd tg me ve lb la cr up co
  | set_task_list_id v => mkTask i pj pa pl v ti de st pr ag asg se wd tg me ve lb la cr up co
  | set_locked_by v => mkTask i pj pa pl tl ti de st pr ag asg se wd tg me ve v la cr up co
  | set_locked_at v => mkTask i pj pa pl tl ti de st pr ag asg se wd tg me ve lb v cr up co
  end.

Definition apply_sets (sets : list Assignment) (t : Task) : Task :=
  foldl (fun acc a => apply_set a acc) t sets.

(** [PRAGMA foreign_keys = ON]: an assignment that points [plan_id] or
    [task_list_id] at a row that does not exist makes the statement fail.
    (Stored rows are taken to be referentially intact, as the engine keeps
    them.) *)
Definition fk_violation (w : World) (a : Assignment) : bool :=
  match a with
  | set_plan_id (Some p) => negb (bool_decide (p ∈ plans w))
  | set_task_list_id (Some l) => negb (bool_decide (l ∈ task_lists w))
  | _ => false
  end.

(** What an [UPDATE ... SET <sets> WHERE <cond>] makes of one row. *)
Definition row_update (sets : list Assignment) (cond : Task -> bool) (t : Task)
    : Task :=
  if cond t then apply_sets sets t else t.

(** [db.run("UPDATE tasks SET <sets> WHERE <cond>")]; returns [changes]. *)
Definition sql_update (sets : list Assignment) (cond : Task -> bool) : M nat :=
  fun w =>
    let hit := List.filter cond (tasks w) in
    if negb (bool_decide (hit = [])) && existsb (fk_violation w) sets
    then (inl (SQLiteError "FOREIGN KEY constraint failed"), w)
    else (inr (length hit), set_tasks (map (row_update sets cond)) w).

Definition is_null {A} (o : option A) : bool :=
  match o with None => true | Some _ => false end.

(** SQL [col < ?] on a nullable column: no row with [NULL] passes. *)
Definition sql_lt (o : option Z) (x : Z) : bool :=
  match o with Some v => v <? x | None => false end.

(** SQL [col = ?] on a nullable text column. *)
Definition sql_eq (o : option string) (x : string) : bool :=
  match o with Some v => String.eqb v x | None => false end.

Definition clearExpiredLocks : M unit :=
  cutoff ← lockExpiryCutoff;
  _ ← sql_update [set_locked_by None; set_locked_at None]
        (fun t => negb (is_null (locked_at t)) && sql_lt (locked_at t) cutoff);
  ret tt.

(* ===================================================================== *)
(** ** db/tasks.ts *)
(* ===================================================================== *)

(** [SELECT * FROM tasks WHERE id = ?], first row or [null]. *)
Definition select_task (i : string) (w : World) : option Task :=
  List.find (fun t => String.eqb (id t) i) (tasks w).

Definition getTask (i : string) : M (option Task) := gets (select_task i).

Definition insertTaskTags (taskId : string) (tgs : list string) : M unit :=
  modify (set_task_tags (fun rows =>
    foldl (fun acc tag =>
             if truthy_string tag && negb (bool_decide ((taskId, tag) ∈ acc))
             then acc ++ [(taskId, tag)] else acc) rows tgs)).

Definition replaceTaskTags (taskId : string) (tgs : list string) : M unit :=
  _ ← modify (set_task_tags
        (List.filter (fun r => negb (String.eqb (fst r) taskId))));
  insertTaskTags taskId tgs.

(** The [sets] array of [updateTask], built in the source's order.  The
    second argument is the reading [now()] takes for [completed_at]. *)
Definition update_sets (input : Input.UpdateTaskInput) (t_upd : Z)
    (t_done : option Z) : list Assignment :=
  [version_inc; set_updated_at t_upd]
  ++ match Input.title input with Some v => [set_title v] | None => [] end
  ++ match Input.description input with Some v => [set_description v] | None => [] end
  ++ match Input.status input with
     | Some v => set_status v ::
         match t_done with Some d => [set_completed_at (Some d)] | None => [] end
     | None => []
     end
  ++ match Input.priority input with Some v => [set_priority v] | None => [] end
  ++ match Input.assigned_to input with Some v => [set_assigned_to v] | None => [] end
  ++ match Input.tags input with Some v => [set_tags v] | None => [] end
  ++ match Input.metadata input with Some v => [set_metadata v] | None => [] end
  ++ match Input.plan_id input with Some v => [set_plan_id v] | None => [] end
  ++ match Input.task_list_id input with Some v => [set_task_list_id v] | None => [] end.

(** [WHERE id = ? AND version = ?] *)
Definition update_where (i : string) (v : Z) (r : Task) : bool :=
  String.eqb (id r) i && (version r =? v).

(** [updateTask(id, input)].  The result is what the final [getTask(id)!]
    returns. *)
Definition updateTask (i : string) (input : Input.UpdateTaskInput)
    : M (option Task) :=
  task ← getTask i;
  match task with
  | None => throw (TaskNotFoundError i)
  | Some task =>
      if negb (version task =? Input.version input)
      then throw (VersionConflictError i (Input.version input) (version task))
      else
        t_upd ← now;
        t_done ← match Input.status input with
                 | Some completed => d ← now; ret (Some d)
                 | _ => ret None
                 end;
        changes ← sql_update (update_sets input t_upd t_done)
                    (update_where i (Input.version input));
        if bool_decide (changes = 0%nat)
        then
          current ← getTask i;
          throw (VersionConflictError i (Input.version input)
                   (match current with Some c => version c | None => -1 end))
        else
          _ ← match Input.tags input with
              | Some tgs => replaceTaskTags i tgs
              | None => ret tt
              end;
          getTask i
  end.



(** [WHERE id = ? AND (locked_by IS NULL OR locked_by = ? OR locked_at < ?)] *)
Definition lock_where (i agentId : string) (cutoff : Z) (r : Task) : bool :=
  String.eqb (id r) i
  && (is_null (locked_by r) || sql_eq (locked_by r) agentId
      || sql_lt (locked_at r) cutoff).

(** [SET locked_by = ?, locked_at = ?, version = version + 1, updated_at = ?] *)
Definition lock_sets (agentId : string) (timestamp : Z) : list Assignment :=
  [set_locked_by (Some agentId); set_locked_at (Some timestamp);
   version_inc; set_updated_at timestamp].

(** [lockTask(id, agentId)]. *)
Definition lockTask (i agentId : string) : M Lock.LockResult :=
  task ← getTask i;
  match task with
  | None => throw (TaskNotFoundError i)
  | Some task =>
      mine ←
        (if bool_decide (locked_by task = Some agentId)
         then e ← isLockExpired (locked_at task); ret (negb e)
         else ret false);
      if (mine : bool)
      then ret (Lock.mk true (Some agentId) (locked_at task) None)
      else
        cutoff ← lockExpiryCutoff;
        timestamp ← now;
        changes ← sql_update (lock_sets agentId timestamp)
                    (lock_where i agentId cutoff);
        if bool_decide (changes = 0%nat)
        then
          current ← getTask i;
          match current with
          | None => throw (TaskNotFoundError i)
          | Some current =>
              held ←
                (if truthy_ostring (locked_by current)
                 then e ← isLockExpired (locked_at current); ret (negb e)
                 else ret false);
              if (held : bool)
              then ret (Lock.mk false (locked_by current) (locked_at current)
                          (Some ("Task is locked by "
                                 +:+ default "" (locked_by current))))
              else ret (Lock.mk true (Some agentId) (Some timestamp) None)
          end
        else ret (Lock.mk true (Some agentId) (Some timestamp) None)
  end.

(* --------------------------------------------------------------------- *)
(** *** Dependencies *)
(* --------------------------------------------------------------------- *)

(** [SELECT depends_on FROM task_dependencies WHERE task_id = ?] *)
Definition depends_on_of (current : string) (deps : list (string * string))
    : list string :=
  map snd (List.filter (fun r => String.eqb (fst r) current) deps).

(** The [while] loop of [wouldCreateCycle]: one unit of fuel per iteration,
    [None] when the fuel runs out before the loop ends. *)
Fixpoint bfs (fuel : nat) (deps : list (string * string)) (taskId : string)
    (visited : gset string) (queue : list string) : option bool :=
  match queue with
  | [] => Some false
  | current :: queue =>
      match fuel with
      | O => None
      | S fuel =>
          if String.eqb current taskId then Some true
          else if bool_decide (current ∈ visited)
               then bfs fuel deps taskId visited queue
               else bfs fuel deps taskId ({[current]} ∪ visited)
                        (queue ++ depends_on_of current deps)
      end
  end.

(** [wouldCreateCycle(taskId, dependsOn)], run with as many iterations as
    the loop can take ([bfs_total] below: it never runs out). *)
Definition wouldCreateCycle (taskId dependsOn : string) : M (option bool) :=
  gets (fun w => bfs (S (length (task_dependencies w))) (task_dependencies w)
                     taskId ∅ [dependsOn]).

(** [INSERT OR IGNORE INTO task_dependencies]: the primary key and the
    [CHECK (task_id != depends_on)] both make the insert a no-op. *)
Definition insert_dependency (taskId dependsOn : string) : M unit :=
  modify (set_task_dependencies (fun rows =>
    if bool_decide ((taskId, dependsOn) ∈ rows) || String.eqb taskId dependsOn
    then rows else rows ++ [(taskId, dependsOn)])).

(** [addDependency(taskId, dependsOn)].  A loop that ran out of fuel would
    be a call that does not return; [bfs_total] rules it out, and the
    model then leaves the table alone. *)
Definition addDependency (taskId dependsOn : string) : M unit :=
  a ← getTask taskId;
  if is_null a then throw (TaskNotFoundError taskId)
  else
    b ← getTask dependsOn;
    if is_null b then throw (TaskNotFoundError dependsOn)
    else
      cyc ← wouldCreateCycle taskId dependsOn;
      match cyc with
      | Some true => throw (DependencyCycleError taskId dependsOn)
      | Some false => insert_dependency taskId dependsOn
      | None => ret tt
      end.

(** A run of [addDependency] calls, each one caught by its caller. *)
Fixpoint addDependencies (calls : list (string * string)) (w : World) : World :=
  match calls with
  | [] => w
  | (t, d) :: calls => addDependencies calls (snd (addDependency t d w))
  end.

(** The dependency graph: [x] depends on [y]. *)
Definition edge (deps : list (string * string)) (x y : string) : Prop :=
  (x, y) ∈ deps.

(** A directed path of at least one edge. *)
Definition path (deps : list (string * string)) : relation string :=
  tc (edge deps).

Definition acyclic (deps : list (string * string)) : Prop :=
  ∀ x, ¬ path deps x x.

(* --------------------------------------------------------------------- *)
(** *** listTasks *)
(* --------------------------------------------------------------------- *)

(** [interface TaskFilter], with the [task_list_id] the code reads. *)
Module Filter.
Record TaskFilter := mk {
  project_id : option string;
  parent_id : option (option string);
  plan_id : option string;
  task_list_id : option string;
  status : option (TaskStatus + list TaskStatus);
  priority : option (TaskPriority + list TaskPriority);
  assigned_to : option string;
  agent_id : option string;
  session_id : option string;
  tags : option (list string);
  limit : option Z;
  offset : option Z
}.

(** [{}] *)
Definition empty : TaskFilter :=
  mk None None None None None None None None None None None None.
End Filter.

(** [if (filter.k) conditions.push("k = ?")] *)
Definition cond_text (f : option string) (col : option string) : bool :=
  match f with
  | Some v => if truthy_string v then sql_eq col v else true
  | None => true
  end.

Definition cond_enum {A} `{EqDecision A} (f : option (A + list A)) (col : A)
    : bool :=
  match f with
  | Some (inl v) => bool_decide (col = v)
  | Some (inr vs) => bool_decide (col ∈ vs)
  | None => true
  end.

(** The [WHERE] clause [listTasks] assembles. *)
Definition matches (w : World) (f : Filter.TaskFilter) (t : Task) : bool :=
  cond_text (Filter.project_id f) (project_id t)
  && match Filter.parent_id f with
     | None => true
     | Some None => is_null (parent_id t)
     | Some (Some p) => sql_eq (parent_id t) p
     end
  && cond_enum (Filter.status f) (status t)
  && cond_enum (Filter.priority f) (priority t)
  && cond_text (Filter.assigned_to f) (assigned_to t)
  && cond_text (Filter.agent_id f) (agent_id t)
  && cond_text (Filter.session_id f) (session_id t)
  && match Filter.tags f with
     | Some (tg :: tgs) =>
         existsb (fun r => String.eqb (fst r) (id t)
                           && bool_decide (snd r ∈ tg :: tgs)) (task_tags w)
     | _ => true
     end
  && cond_text (Filter.plan_id f) (plan_id t)
  && cond_text (Filter.task_list_id f) (task_list_id t).

(** [CASE priority WHEN 'critical' THEN 0 ... END] *)
Definition priority_rank (p : TaskPriority) : Z :=
  match p with critical => 0 | high => 1 | medium => 2 | low => 3 end.

(** [ORDER BY <rank>, created_at DESC] *)
Definition task_order (a b : Task) : Prop :=
  priority_rank (priority a) < priority_rank (priority b)
  ∨ (priority_rank (priority a) = priority_rank (priority b)
     ∧ created_at b <= created_at a).

#[global] Instance task_order_dec a b : Decision (task_order a b).
Proof. unfold task_order. apply _. Defined.

(** [filter.limit || 100] and [filter.offset || 0] *)
Definition limitVal (f : Filter.TaskFilter) : Z :=
  match Filter.limit f with
  | Some n => if n =? 0 then 100 else n
  | None => 100
  end.

Definition offsetVal (f : Filter.TaskFilter) : Z :=
  match Filter.offset f with Some n => n | None => 0 end.

(** [LIMIT ? OFFSET ?]: a negative limit is no limit, a negative offset is
    none. *)
Definition sql_limit_offset {A} (lim off : Z) (rows : list A) : list A :=
  let rest := drop (Z.to_nat off) rows in
  if lim <? 0 then rest else take (Z.to_nat lim) rest.

(** [listTasks(filter)].  Rows that tie in the ordering come in the order
    the sort leaves them. *)
Definition listTasks (f : Filter.TaskFilter) : M (list Task) :=
  _ ← clearExpiredLocks;
  gets (fun w =>
    sql_limit_offset (limitVal f) (offsetVal f)
      (merge_sort task_order (List.filter (matches w f) (tasks w)))).

(* ===================================================================== *)
(** ** lib/sync-types.ts, lib/sync-utils.ts *)
(* ===================================================================== *)

Record SyncResult := mkResult {
  pushed : nat;
  pulled : nat;
  errors : list string
}.

Inductive SyncPrefer := prefer_local | prefer_remote.

#[global] Instance SyncPrefer_eq_dec : EqDecision SyncPrefer.
Proof. solve_decision. Defined.

Definition prefer_name (p : SyncPrefer) : string :=
  match p with prefer_local => "local" | prefer_remote => "remote" end.

(** [interface SyncConflict]; [agent] is ["claude"] throughout this
    adapter and [notes] is never set. *)
Record SyncConflict := mkConflict {
  direction : string;
  prefer : SyncPrefer;
  local_updated_at : option Z;
  remote_updated_at : option Z;
  detected_at : Z
}.

Definition set_opt (k : string) (v : option Json) (o : gmap string Json)
    : gmap string Json :=
  match v with Some j => <[k := j]> o | None => o end.

(** The conflict object as JSON holds it ([undefined] members are dropped
    by [JSON.stringify]). *)
Definition conflict_json (c : SyncConflict) : Json :=
  JObj (set_opt "remote_updated_at" (JDate <$> remote_updated_at c)
       (set_opt "local_updated_at" (JDate <$> local_updated_at c)
       (<["agent" := JStr "claude"]>
       (<["direction" := JStr (direction c)]>
       (<["prefer" := JStr (prefer_name (prefer c))]>
       (<["detected_at" := JDate (detected_at c)]> ∅)))))).

Definition parseTimestamp (value : option Json) : option Z :=
  match value with
  | Some (JDate ms) => Some ms
  | _ => None
  end.

(** [Array.isArray(metadata["sync_conflicts"]) ? ... : []] *)
Definition sync_conflicts (metadata : gmap string Json) : list Json :=
  match metadata !! "sync_conflicts" with
  | Some (JArr l) => l
  | _ => []
  end.

Definition appendSyncConflict (metadata : gmap string Json) (conflict : Json)
    (limit : nat) : gmap string Json :=
  let current := sync_conflicts metadata in
  let next := take limit (conflict :: current) in
  <["sync_conflicts" := JArr next]> metadata.

(** The default of [appendSyncConflict]'s third parameter. *)
Definition conflict_limit : nat := 5.

Definition readHighWaterMark (d : MirrorDir) : Z :=
  match highwatermark d with
  | Some (Some val) => val
  | _ => 1
  end.

Definition readPrefixCounter (d : MirrorDir) : Z :=
  match prefix_counter d with
  | Some (Some val) => val
  | _ => 0
  end.

(* ===================================================================== *)
(** ** lib/claude-tasks.ts *)
(* ===================================================================== *)

Definition toClaudeStatus (s : TaskStatus) : ClaudeStatus :=
  match s with
  | pending => c_pending
  | in_progress => c_in_progress
  | completed => c_completed
  | failed | cancelled => c_completed
  end.

(** [a || b] on nullable strings. *)
Definition or_else (a b : option string) : option string :=
  if truthy_ostring a then a else b.

(** [String(counter).padStart(5, "0")] *)
Definition padStart5 (s : string) : string :=
  String.concat "" (replicate (5 - String.length s)%nat "0") +:+ s.

Definition formatPrefixedSubject (ttl pfx : string) (counter : Z) : string :=
  pfx +:+ "-" +:+ padStart5 (pretty counter) +:+ ": " +:+ ttl.

Definition taskToClaudeTask (task : Task) (claudeTaskId : string)
    (existingMeta : option (gmap string Json)) : Claude.ClaudeTask :=
  Claude.mk claudeTaskId (title task)
    (default "" (description task))
    ""
    (toClaudeStatus (status task))
    (default "" (or_else (assigned_to task) (agent_id task)))
    [] []
    (Some (<["todos_version" := JNum (version task)]>
          (<["todos_updated_at" := JDate (updated_at task)]>
          (<["priority" := JStr (priority_name (priority task))]>
          (<["todos_id" := JStr (id task)]>
          (default ∅ existingMeta)))))).

(** [ct.metadata?.[k]] *)
Definition meta_get (ct : Claude.ClaudeTask) (k : string) : option Json :=
  Claude.metadata ct ≫= (.!! k).

(** An entry of the [existingByTodosId] map. *)
Record Existing := mkExisting {
  e_task : Claude.ClaudeTask;
  e_mtimeMs : option Z
}.

(** The first loop of the push pass: index the readable mirror files that
    carry a [todos_id] by that id, later files replacing earlier ones. *)
Definition existingByTodosId (d : MirrorDir) : gmap string Existing :=
  foldl (fun acc f =>
           match content (snd f) with
           | Some ct =>
               match meta_get ct "todos_id" with
               | Some (JStr k) =>
                   if truthy_string k
                   then <[k := mkExisting ct (Some (mtimeMs (snd f)))]> acc
                   else acc
               | _ => acc
               end
           | None => acc
           end) ∅ (map_to_list (files d)).

(** [writeFileSync] fails when the directory is gone. *)
Definition ENOENT : Error := SystemError "ENOENT: no such file or directory".

Definition with_dir (f : MirrorDir -> MirrorDir) : M unit :=
  fun w => match mirror w with
           | Some d => (inr tt, set_mirror (Some (f d)) w)
           | None => (inl ENOENT, w)
           end.

(** [writeClaudeTask(dir, task)]: the file [<task.id>.json] is replaced or
    created; the file system stamps it with the clock. *)
Definition writeClaudeTask (ct : Claude.ClaudeTask) : M unit :=
  t ← Date_now;
  with_dir (fun d => mkDir (<[Claude.id ct := mkFile (Some ct) t]> (files d))
                           (highwatermark d) (prefix_counter d)).

Definition writeHighWaterMark (value : Z) : M unit :=
  with_dir (fun d => mkDir (files d) (Some (Some value)) (prefix_counter d)).

Definition writePrefixCounter (value : Z) : M unit :=
  with_dir (fun d => mkDir (files d) (highwatermark d) (Some (Some value))).

(** [if (!existsSync(dir)) ensureDir(dir)] *)
Definition ensureDir : M unit :=
  modify (fun w => match mirror w with
                   | Some _ => w
                   | None => set_mirror (Some (mkDir ∅ None None)) w
                   end).

(** The test of the push pass:
    [lastSyncedAt && localUpdatedAt && remoteUpdatedAt
     && localUpdatedAt > lastSyncedAt && remoteUpdatedAt > lastSyncedAt]. *)
Definition conflict_detected (lastSyncedAt localUpdatedAt remoteUpdatedAt : option Z)
    : bool :=
  truthy_number lastSyncedAt && truthy_number localUpdatedAt
  && truthy_number remoteUpdatedAt
  && (default 0 lastSyncedAt <? default 0 localUpdatedAt)
  && (default 0 lastSyncedAt <? default 0 remoteUpdatedAt).

(** The local variables of the push loop. *)
Record PushState := mkPush {
  hwm : Z;
  prefixCounter : Z;
  p_pushed : nat;
  p_errors : list string
}.

Definition push_ok (st : PushState) : PushState :=
  mkPush (hwm st) (prefixCounter st) (S (p_pushed st)) (p_errors st).

Definition push_error (st : PushState) (msg : string) : PushState :=
  mkPush (hwm st) (prefixCounter st) (p_pushed st) (p_errors st ++ [msg]).

(** [lastSyncedAt] of an indexed mirror record. *)
Definition lastSynced (existing : Existing) : option Z :=
  parseTimestamp (meta_get (e_task existing) "todos_updated_at").

(** The branch of the loop body for a task that has a mirror record. *)
Definition push_existing (pref : SyncPrefer) (task : Task) (existing : Existing)
    (st : PushState) : M PushState :=
  let lastSyncedAt := lastSynced existing in
  let localUpdatedAt := parseTimestamp (Some (JDate (updated_at task))) in
  let remoteUpdatedAt := e_mtimeMs existing in
  let conflict := conflict_detected lastSyncedAt localUpdatedAt remoteUpdatedAt in
  if conflict && bool_decide (pref = prefer_remote)
  then
    detected ← Date_now;
    let c := mkConflict "push" pref (Some (updated_at task)) remoteUpdatedAt detected in
    let newMeta := appendSyncConflict (metadata task) (conflict_json c) conflict_limit in
    _ ← updateTask (id task) (Input.version_metadata (version task) newMeta);
    ret (push_error st ("conflict push " +:+ id task +:+ ": remote newer"))
  else
    let updated := taskToClaudeTask task (Claude.id (e_task existing))
                     (Claude.metadata (e_task existing)) in
    let updated := Claude.mk (Claude.id updated) (Claude.subject updated)
                     (Claude.description updated)
                     (Claude.activeForm (e_task existing))
                     (Claude.status updated) (Claude.owner updated)
                     (Claude.blocks (e_task existing))
                     (Claude.blockedBy (e_task existing))
                     (Claude.metadata updated) in
    _ ← writeClaudeTask updated;
    _ ← (if conflict
         then
           latest ← getTask (id task);
           match latest with
           | Some latest =>
               detected ← Date_now;
               let c := mkConflict "push" pref (Some (updated_at latest))
                          (if truthy_number remoteUpdatedAt
                           then remoteUpdatedAt else None) detected in
               let newMeta := appendSyncConflict (metadata latest)
                                (conflict_json c) conflict_limit in
               _ ← updateTask (id latest)
                     (Input.version_metadata (version latest) newMeta);
               ret tt
           | None => ret tt
           end
         else ret tt);
    ret (push_ok st).


Definition with_subject (s : string) (ct : Claude.ClaudeTask) : Claude.ClaudeTask :=
  Claude.mk (Claude.id ct) s (Claude.description ct) (Claude.activeForm ct)
    (Claude.status ct) (Claude.owner ct) (Claude.blocks ct)
    (Claude.blockedBy ct) (Claude.metadata ct).

(** What [catch (e)] appends in the push loop. *)
Definition push_failure (task : Task) (e : Error) : string :=
  "push " +:+ id task +:+ ": " +:+ message e.

(** The branch for a task that has no mirror record: mint the next external
    id.  [hwm++] and [prefixCounter++] come before anything that can throw. *)
Definition push_new (cfg : option TaskPrefixConfig) (task : Task)
    (st : PushState) : M PushState :=
  let claudeId := pretty (hwm st) in
  let st1 := mkPush (hwm st + 1)
               (if is_null cfg then prefixCounter st else prefixCounter st + 1)
               (p_pushed st) (p_errors st) in
  let ct := taskToClaudeTask task claudeId None in
  let ct := match cfg with
            | Some c => with_subject
                (formatPrefixedSubject (title task) (prefix c) (prefixCounter st1)) ct
            | None => ct
            end in
  try_catch
    (_ ← writeClaudeTask ct;
     current ← getTask (id task);
     _ ← match current with
         | Some current =>
             _ ← updateTask (id task)
                   (Input.version_metadata (version current)
                      (<["claude_task_id" := JStr claudeId]> (metadata current)));
             ret tt
         | None => ret tt
         end;
     ret (push_ok st1))
    (fun e => ret (push_error st1 (push_failure task e))).

(** One iteration of [for (const task of tasks) { try { ... } catch ... }]. *)
Definition push_task (pref : SyncPrefer) (cfg : option TaskPrefixConfig)
    (index : gmap string Existing) (st : PushState) (task : Task) : M PushState :=
  match index !! id task with
  | Some existing =>
      try_catch (push_existing pref task existing st)
                (fun e => ret (push_error st (push_failure task e)))
  | None => push_new cfg task st
  end.

(** [for (const x of xs) body], threading the loop's variables. *)
Fixpoint for_each {S A} (body : S -> A -> M S) (st : S) (xs : list A) : M S :=
  match xs with
  | [] => ret st
  | x :: xs => st' ← body st x; for_each body st' xs
  end.

(** [{ project_id: projectId }] when [projectId] is truthy, else [{}]. *)
Definition project_filter (projectId : option string) : Filter.TaskFilter :=
  Filter.mk (if truthy_ostring projectId then projectId else None)
    None None None None None None None None None None None.

Definition initialPrefixCounter (cfg : option TaskPrefixConfig) (d : MirrorDir) : Z :=
  match cfg with
  | Some c =>
      let pc := readPrefixCounter d in
      if truthy_number (start_from c) && (pc <? default 0 (start_from c))
      then default 0 (start_from c) - 1 else pc
  | None => 0
  end.

(** [pushToClaudeTaskList(taskListId, projectId, options)]; the world's
    [mirror] is the directory of [taskListId]. *)
Definition pushToClaudeTaskList (projectId : option string)
    (options : option SyncPrefer) : M SyncResult :=
  _ ← ensureDir;
  tasks ← listTasks (project_filter projectId);
  dir ← gets mirror;
  let d := default (mkDir ∅ None None) dir in
  let index := existingByTodosId d in
  let pref := default prefer_remote options in
  cfg ← gets task_prefix;
  st ← for_each (push_task pref cfg index)
         (mkPush (readHighWaterMark d) (initialPrefixCounter cfg d) 0 []) tasks;
  _ ← writeHighWaterMark (hwm st);
  _ ← (if is_null cfg then ret tt else writePrefixCounter (prefixCounter st));
  ret (mkResult (p_pushed st) 0 (p_errors st)).

(* --------------------------------------------------------------------- *)
(** *** createTask (db/tasks.ts), as the pull pass calls it *)
(* --------------------------------------------------------------------- *)

(** A [priority] argument: the pull pass hands over whatever truthy JSON the
    mirror holds, which need not be one of the four names. *)
Inductive PriorityArg := p_valid (p : TaskPriority) | p_other.

Module Create.
Record CreateTaskInput := mk {
  title : string;
  description : option string;
  project_id : option string;
  parent_id : option string;
  plan_id : option string;
  task_list_id : option string;
  status : option TaskStatus;
  priority : option PriorityArg;
  agent_id : option string;
  assigned_to : option string;
  session_id : option string;
  working_dir : option string;
  tags : option (list string);
  metadata : option (gmap string Json)
}.
End Create.

(** [crypto.randomUUID()] *)
Definition uuid : M string :=
  fun w => (inr (uuids w (minted w)), set_minted (S (minted w)) w).

(** [x || null] *)
Definition or_null (x : option string) : option string :=
  if truthy_ostring x then x else None.

Definition fk_present (ref : option string) (ids : list string) : bool :=
  match ref with Some r => bool_decide (r ∈ ids) | None => true end.

(** [INSERT INTO tasks ...]: the [CHECK] on priority, the primary key and
    the foreign keys can each reject the row. *)
Definition sql_insert_task (row : Task) (prio_ok : bool) : M unit :=
  fun w =>
    if negb prio_ok
    then (inl (SQLiteError "CHECK constraint failed: priority"), w)
    else if bool_decide (id row ∈ map id (tasks w))
    then (inl (SQLiteError "UNIQUE constraint failed: tasks.id"), w)
    else if fk_present (project_id row) (projects w)
            && fk_present (parent_id row) (map id (tasks w))
            && fk_present (plan_id row) (plans w)
            && fk_present (task_list_id row) (task_lists w)
    then (inr tt, set_tasks (fun rows => rows ++ [row]) w)
    else (inl (SQLiteError "FOREIGN KEY constraint failed"), w).

Definition createTask (input : Create.CreateTaskInput) : M (option Task) :=
  i ← uuid;
  timestamp ← now;
  let tgs := default [] (Create.tags input) in
  let prio := match Create.priority input with
              | Some (p_valid p) => Some p
              | Some p_other => None
              | None => Some medium
              end in
  let row := mkTask i
      (or_null (Create.project_id input)) (or_null (Create.parent_id input))
      (or_null (Create.plan_id input)) (or_null (Create.task_list_id input))
      (Create.title input) (or_null (Create.description input))
      (default pending (Create.status input)) (default medium prio)
      (or_null (Create.agent_id input)) (or_null (Create.assigned_to input))
      (or_null (Create.session_id input)) (or_null (Create.working_dir input))
      tgs (default ∅ (Create.metadata input)) 1 None None
      timestamp timestamp None in
  _ ← sql_insert_task row (negb (is_null prio));
  _ ← (if bool_decide (tgs = []) then ret tt else insertTaskTags i tgs);
  getTask i.

(* --------------------------------------------------------------------- *)
(** *** The pull pass and the full sync *)
(* --------------------------------------------------------------------- *)

Definition pad (width : nat) (n : Z) : string :=
  let s := pretty n in
  String.concat "" (replicate (width - String.length s)%nat "0") +:+ s.

(** [new Date(ms).toISOString()], for years 0000 to 9999. *)
Definition toISOString (ms : Z) : string :=
  let days := ms `div` 86400000 in
  let rest := ms `mod` 86400000 in
  let z := days + 719468 in
  let era := z `div` 146097 in
  let doe := z - era * 146097 in
  let yoe := (doe - doe `div` 1460 + doe `div` 36524 - doe `div` 146096) `div` 365 in
  let doy := doe - (365 * yoe + yoe `div` 4 - yoe `div` 100) in
  let mp := (5 * doy + 2) `div` 153 in
  let d := doy - (153 * mp + 2) `div` 5 + 1 in
  let m := if mp <? 10 then mp + 3 else mp - 9 in
  let y := yoe + era * 400 + (if m <=? 2 then 1 else 0) in
  pad 4 y +:+ "-" +:+ pad 2 m +:+ "-" +:+ pad 2 d +:+ "T"
    +:+ pad 2 (rest `div` 3600000) +:+ ":"
    +:+ pad 2 ((rest `mod` 3600000) `div` 60000) +:+ ":"
    +:+ pad 2 ((rest `mod` 60000) `div` 1000) +:+ "."
    +:+ pad 3 (rest `mod` 1000) +:+ "Z".

(** [String(v)] of a JSON value. *)
Fixpoint js_String (v : Json) : string :=
  match v with
  | JNull => "null"
  | JBool true => "true"
  | JBool false => "false"
  | JNum n => pretty n
  | JStr s => s
  | JDate ms => toISOString ms
  | JArr l =>
      String.concat ","
        (map (fun x => match x with JNull => "" | _ => js_String x end) l)
  | JObj _ => "[object Object]"
  end.

(** [byClaudeId] and [byTodosId] of the pull pass. *)
Definition byClaudeId (allTasks : list Task) : gmap string Task :=
  foldl (fun acc t =>
           let cid := metadata t !! "claude_task_id" in
           if truthy_json cid
           then <[js_String (default JNull cid) := t]> acc else acc)
        ∅ allTasks.

Definition byTodosId (allTasks : list Task) : gmap string Task :=
  foldl (fun acc t => <[id t := t]> acc) ∅ allTasks.

(** [x || undefined] on a string. *)
Definition or_undefined (s : string) : option string :=
  if truthy_string s then Some s else None.

Definition toSqliteStatus (s : ClaudeStatus) : TaskStatus :=
  match s with
  | c_pending => pending
  | c_in_progress => in_progress
  | c_completed => completed
  end.

(** [(ct.metadata?.["priority"] as any) || "medium"] *)
Definition pulled_priority (ct : Claude.ClaudeTask) : PriorityArg :=
  let v := meta_get ct "priority" in
  if truthy_json v
  then match v with
       | Some (JStr "low") => p_valid low
       | Some (JStr "medium") => p_valid medium
       | Some (JStr "high") => p_valid high
       | Some (JStr "critical") => p_valid critical
       | _ => p_other
       end
  else p_valid medium.

Record PullState := mkPull {
  l_pulled : nat;
  l_errors : list string
}.

(** The body of the pull loop's [try] for one readable, non-internal file. *)
Definition pull_file (pref : SyncPrefer) (projectId : option string)
    (byClaude byTodos : gmap string Task) (file : MirrorFile)
    (ct : Claude.ClaudeTask) (st : PullState) : M PullState :=
  let existingByMapping := byClaude !! Claude.id ct in
  let existingByTodos :=
    match meta_get ct "todos_id" with
    | Some (JStr k) => if truthy_string k then byTodos !! k else None
    | _ => None
    end in
  let ct_meta := default ∅ (Claude.metadata ct) in
  match (match existingByMapping with Some t => Some t | None => existingByTodos end) with
  | Some existing =>
      let lastSyncedAt := parseTimestamp (meta_get ct "todos_updated_at") in
      let localUpdatedAt := parseTimestamp (Some (JDate (updated_at existing))) in
      let remoteUpdatedAt := Some (mtimeMs file) in
      if conflict_detected lastSyncedAt localUpdatedAt remoteUpdatedAt
      then
        detected ← Date_now;
        let c := mkConflict "pull" pref (Some (updated_at existing))
                   remoteUpdatedAt detected in
        let conflictMeta := appendSyncConflict (metadata existing)
                              (conflict_json c) conflict_limit in
        if bool_decide (pref = prefer_local)
        then
          _ ← updateTask (id existing)
                (Input.version_metadata (version existing) conflictMeta);
          ret (mkPull (l_pulled st)
                 (l_errors st ++ ["conflict pull " +:+ id existing +:+ ": local newer"]))
        else
          _ ← updateTask (id existing)
                (Input.mk (Some (Claude.subject ct))
                   (Some <$> or_undefined (Claude.description ct))
                   (Some (toSqliteStatus (Claude.status ct))) None
                   (Some <$> or_undefined (Claude.owner ct)) None None None
                   (Some (ct_meta ∪ <["claude_task_id" := JStr (Claude.id ct)]> conflictMeta))
                   (version existing));
          ret (mkPull (S (l_pulled st)) (l_errors st))
      else
        _ ← updateTask (id existing)
              (Input.mk (Some (Claude.subject ct))
                 (Some <$> or_undefined (Claude.description ct))
                 (Some (toSqliteStatus (Claude.status ct))) None
                 (Some <$> or_undefined (Claude.owner ct)) None None None
                 (Some (ct_meta ∪ <["claude_task_id" := JStr (Claude.id ct)]>
                                    (metadata existing)))
                 (version existing));
        ret (mkPull (S (l_pulled st)) (l_errors st))
  | None =>
      _ ← createTask
            (Create.mk (Claude.subject ct) (or_undefined (Claude.description ct))
               projectId None None None
               (Some (toSqliteStatus (Claude.status ct)))
               (Some (pulled_priority ct)) None
               (or_undefined (Claude.owner ct)) None None None
               (Some (<["claude_task_id" := JStr (Claude.id ct)]> ct_meta)));
      ret (mkPull (S (l_pulled st)) (l_errors st))
  end.

(** One iteration of the pull loop over the directory's [.json] names. *)
Definition pull_entry (pref : SyncPrefer) (projectId : option string)
    (byClaude byTodos : gmap string Task) (st : PullState)
    (f : string * MirrorFile) : M PullState :=
  match content (snd f) with
  | None => ret st
  | Some ct =>
      if truthy_json (meta_get ct "_internal") then ret st
      else
        try_catch (pull_file pref projectId byClaude byTodos (snd f) ct st)
          (fun e => ret (mkPull (l_pulled st)
                           (l_errors st ++ ["pull " +:+ fst f +:+ ".json: "
                                            +:+ message e])))
  end.

(** [pullFromClaudeTaskList(taskListId, projectId, options)]; [dir] is the
    path of the directory, for the message. *)
Definition pullFromClaudeTaskList (dir : string) (projectId : option string)
    (options : option SyncPrefer) : M SyncResult :=
  d ← gets mirror;
  match d with
  | None => ret (mkResult 0 0 ["Task list directory not found: " +:+ dir])
  | Some d =>
      let pref := default prefer_remote options in
      allTasks ← listTasks Filter.empty;
      st ← for_each (pull_entry pref projectId (byClaudeId allTasks)
                       (byTodosId allTasks))
             (mkPull 0 []) (map_to_list (files d));
      ret (mkResult 0 (l_pulled st) (l_errors st))
  end.

(** [syncClaudeTaskList]: pull first, then push. *)
Definition syncClaudeTaskList (dir : string) (projectId : option string)
    (options : option SyncPrefer) : M SyncResult :=
  pullResult ← pullFromClaudeTaskList dir projectId options;
  pushResult ← pushToClaudeTaskList projectId options;
  ret (mkResult (pushed pushResult) (pulled pullResult)
         (errors pullResult ++ errors pushResult)).

(* ===================================================================== *)
(** ** db/tasks.ts: the remaining operations *)
(* ===================================================================== *)

(** [SET status = 'in_progress', assigned_to = ?, locked_by = ?,
    locked_at = ?, version = version + 1, updated_at = ?] *)
Definition start_sets (agentId : string) (timestamp : Z) : list Assignment :=
  [set_status in_progress; set_assigned_to (Some agentId);
   set_locked_by (Some agentId); set_locked_at (Some timestamp);
   version_inc; set_updated_at timestamp].

(** [startTask(id, agentId)].  The [UPDATE] has the [WHERE] clause of
    [lockTask]; the result is what the final [getTask(id)!] returns. *)
Definition startTask (i agentId : string) : M (option Task) :=
  cutoff ← lockExpiryCutoff;
  timestamp ← now;
  changes ← sql_update (start_sets agentId timestamp)
              (lock_where i agentId cutoff);
  _ ← (if bool_decide (changes = 0%nat)
       then
         current ← getTask i;
         match current with
         | None => throw (TaskNotFoundError i)
         | Some current =>
             held ←
               (if truthy_ostring (locked_by current)
                   && negb (bool_decide (locked_by current = Some agentId))
                then e ← isLockExpired (locked_at current); ret (negb e)
                else ret false);
             if (held : bool)
             then throw (LockError i (default "" (locked_by current)))
             else ret tt
         end
       else ret tt);
  getTask i.

(** [SET locked_by = NULL, locked_at = NULL, version = version + 1,
    updated_at = ?] *)
Definition unlock_sets (timestamp : Z) : list Assignment :=
  [set_locked_by None; set_locked_at None; version_inc;
   set_updated_at timestamp].

(** [unlockTask(id, agentId?)]. *)
Definition unlockTask (i : string) (agentId : option string) : M bool :=
  task ← getTask i;
  match task with
  | None => throw (TaskNotFoundError i)
  | Some task =>
      if truthy_ostring agentId && truthy_ostring (locked_by task)
         && negb (bool_decide (locked_by task = agentId))
      then throw (LockError i (default "" (locked_by task)))
      else
        timestamp ← now;
        _ ← sql_update (unlock_sets timestamp) (fun r => String.eqb (id r) i);
        ret true
  end.

(** [parent_id ... REFERENCES tasks(id) ON DELETE CASCADE]: a row whose
    parent falls, falls; one round per unit of fuel, until a round finds no
    further row.  [dead] holds the ids of the rows that fall. *)
Fixpoint cascade (fuel : nat) (rows : list Task) (dead : gset string)
    : gset string :=
  match fuel with
  | O => dead
  | S fuel =>
      let next :=
        List.filter (fun t => match parent_id t with
                              | Some p => bool_decide (p ∈ dead)
                              | None => false
                              end && negb (bool_decide (id t ∈ dead))) rows in
      match next with
      | [] => dead
      | _ => cascade fuel rows (dead ∪ list_to_set (map id next))
      end
  end.

(** [db.run("DELETE FROM tasks WHERE id = ?")] under
    [PRAGMA foreign_keys = ON]; returns [changes], which counts the rows the
    statement names and not the rows its cascades take.  The subtasks go
    with their parent, and with every row that goes its [task_tags] and
    [task_dependencies] rows.  (Its [task_comments] rows go as well; that
    table is not part of the world.) *)
Definition sql_delete_task (i : string) : M nat :=
  fun w =>
    let hit := List.filter (fun t => String.eqb (id t) i) (tasks w) in
    match hit with
    | [] => (inr 0%nat, w)
    | _ =>
        let dead := cascade (length (tasks w)) (tasks w) {[i]} in
        let alive (k : string) := negb (bool_decide (k ∈ dead)) in
        (inr (length hit),
         set_task_dependencies
           (List.filter (fun r => alive (fst r) && alive (snd r)))
           (set_task_tags (List.filter (fun r => alive (fst r)))
              (set_tasks (List.filter (fun t => alive (id t))) w)))
    end.

(** [deleteTask(id)]. *)
Definition deleteTask (i : string) : M bool :=
  changes ← sql_delete_task i;
  ret (bool_decide (0 < changes)%nat).

(** [removeDependency(taskId, dependsOn)]. *)
Definition removeDependency (taskId dependsOn : string) : M bool :=
  fun w =>
    let hit (r : string * string) :=
      String.eqb (fst r) taskId && String.eqb (snd r) dependsOn in
    (inr (bool_decide (0 < length (List.filter hit (task_dependencies w)))%nat),
     set_task_dependencies (List.filter (fun r => negb (hit r))) w).

(** [getTaskDependencies(taskId)]: the rows [(task_id, depends_on)] with
    that [task_id]. *)
Definition getTaskDependencies (taskId : string) : M (list (string * string)) :=
  gets (fun w =>
    List.filter (fun r => String.eqb (fst r) taskId) (task_dependencies w)).

(** [getTaskDependents(taskId)]: the rows with that [depends_on]. *)
Definition getTaskDependents (taskId : string) : M (list (string * string)) :=
  gets (fun w =>
    List.filter (fun r => String.eqb (snd r) taskId) (task_dependencies w)).
(* ===================================================================== *)
(** ** db/database.ts: resolvePartialId; lib/search.ts *)
(* ===================================================================== *)

(** SQLite's [LIKE] folds the case of the 26 ASCII letters only.  (A
    character is an [ascii] here; text outside ASCII is not modelled.) *)
Definition like_fold (c : Ascii.ascii) : Ascii.ascii :=
  let n := Ascii.nat_of_ascii c in
  if (65 <=? n)%nat && (n <=? 90)%nat then Ascii.ascii_of_nat (n + 32) else c.

(** [text LIKE pattern], without [ESCAPE]: [%] stands for any run of
    characters, [_] for any one character, every other character for
    itself up to case. *)
Fixpoint sql_like (pattern : string) : string -> bool :=
  match pattern with
  | EmptyString =>
      fun text => match text with EmptyString => true | String _ _ => false end
  | String c pattern' =>
      if String.eqb (String c "") "%"
      then fix star (text : string) : bool :=
             sql_like pattern' text
             || match text with
                | EmptyString => false
                | String _ text' => star text'
                end
      else if String.eqb (String c "") "_"
      then fun text => match text with
                       | EmptyString => false
                       | String _ text' => sql_like pattern' text'
                       end
      else fun text => match text with
                       | EmptyString => false
                       | String d text' =>
                           Ascii.eqb (like_fold c) (like_fold d)
                           && sql_like pattern' text'
                       end
  end.

(** [resolvePartialId(db, table, partialId)]; [ids] is the [id] column of
    [table], in the order the engine yields the rows. *)
Definition resolvePartialId (ids : list string) (partialId : string)
    : option string :=
  if (36 <=? String.length partialId)%nat
  then List.find (fun i => String.eqb i partialId) ids
  else match List.filter (sql_like (partialId +:+ "%")) ids with
       | [i] => Some i
       | _ => None
       end.

(** [col LIKE ?] on a nullable column. *)
Definition like_null (pattern : string) (col : option string) : bool :=
  match col with Some v => sql_like pattern v | None => false end.

(** The [WHERE] clause of [searchTasks]. *)
Definition search_where (w : World) (query : string) (projectId : option string)
    (t : Task) : bool :=
  let pattern := "%" +:+ query +:+ "%" in
  (sql_like pattern (title t) || like_null pattern (description t)
   || existsb (fun r => String.eqb (fst r) (id t) && sql_like pattern (snd r))
        (task_tags w))
  && (if truthy_ostring projectId
      then sql_eq (project_id t) (default "" projectId) else true).

(** [searchTasks(query, projectId)] of lib/search.ts: the ordering of
    [listTasks], and no [LIMIT]. *)
Definition searchTasks (query : string) (projectId : option string)
    : M (list Task) :=
  _ ← clearExpiredLocks;
  gets (fun w =>
    merge_sort task_order (List.filter (search_where w query projectId) (tasks w))).
(* ===================================================================== *)
(** ** db/database.ts: backfillTaskTags *)
(* ===================================================================== *)

(** [backfillTaskTags(db)], on a migrated database.  It does nothing when
    [task_tags] has a row; otherwise it indexes the tags of every task
    whose [tags] column is not ['[]'], skipping empty tags, with
    [INSERT OR IGNORE].  Every failure is swallowed by its [catch]. *)
Definition backfillTaskTags : M unit :=
  modify (fun w =>
    if bool_decide (task_tags w = [])
    then
      let rows := List.filter (fun t => negb (bool_decide (tags t = []))) (tasks w) in
      set_task_tags (fun index =>
        foldl (fun acc row =>
                 foldl (fun acc tag =>
                          if truthy_string tag
                             && negb (bool_decide ((id row, tag) ∈ acc))
                          then acc ++ [(id row, tag)] else acc) acc (tags row))
              index rows) w
    else w).
(* ===================================================================== *)
(** ** Definitions the statements use *)
(* ===================================================================== *)

(** What the [SET] list of [updateTask] makes of a row, field by field:
    a field the patch omits keeps its value. *)
Definition patched (input : Input.UpdateTaskInput) (t_upd : Z) (t_done : option Z)
    (t : Task) : Task :=
  mkTask (id t) (project_id t) (parent_id t)
    (default (plan_id t) (Input.plan_id input))
    (default (task_list_id t) (Input.task_list_id input))
    (default (title t) (Input.title input))
    (default (description t) (Input.description input))
    (default (status t) (Input.status input))
    (default (priority t) (Input.priority input))
    (agent_id t)
    (default (assigned_to t) (Input.assigned_to input))
    (session_id t) (working_dir t)
    (default (tags t) (Input.tags input))
    (default (metadata t) (Input.metadata input))
    (version t + 1) (locked_by t) (locked_at t) (created_at t) t_upd
    (match Input.status input, t_done with
     | Some _, Some d => Some d
     | _, _ => completed_at t
     end).

(** The plan and the task list a patch names exist. *)
Definition refs_exist (w : World) (input : Input.UpdateTaskInput) : bool :=
  match Input.plan_id input with
  | Some (Some p) => bool_decide (p ∈ plans w)
  | _ => true
  end
  && match Input.task_list_id input with
     | Some (Some l) => bool_decide (l ∈ task_lists w)
     | _ => true
     end.

(** The reading [updateTask] takes for [completed_at], if it takes one. *)
Definition done_reading (input : Input.UpdateTaskInput) (w : World) : option Z :=
  match Input.status input with
  | Some completed => Some (clock w (S (ticks w)))
  | _ => None
  end.

(** The world after the clock readings of [updateTask]. *)
Definition after_readings (input : Input.UpdateTaskInput) (w : World) : World :=
  set_ticks (match Input.status input with
             | Some completed => S (S (ticks w))
             | _ => S (ticks w)
             end) w.

Definition updated_rows (i : string) (input : Input.UpdateTaskInput) (w : World)
    : list Task :=
  map (row_update (update_sets input (clock w (ticks w)) (done_reading input w))
                  (update_where i (Input.version input))) (tasks w).

(** The world a successful [updateTask] leaves. *)
Definition after_update (i : string) (input : Input.UpdateTaskInput) (w : World)
    : World :=
  let w2 := set_tasks (fun _ => updated_rows i input w) (after_readings input w) in
  match Input.tags input with
  | Some tgs => snd (replaceTaskTags i tgs w2)
  | None => w2
  end.

(** Sample data for the worked instances. *)
Definition sample_task (i : string) (v created : Z) (p : TaskPriority) : Task :=
  mkTask i None None None None ("task " +:+ i) None pending p None None None None
         [] ∅ v None None created created None.

Definition sample_world : World :=
  mkWorld [sample_task "a" 1 100 low; sample_task "b" 1 200 critical;
           sample_task "c" 1 300 low]
          [] [] [] [] []
          (fun n => 10000000 + Z.of_nat n) 0
          (fun n => "uuid-" +:+ pretty n) 0 None None.

Definition retitle (ttl : string) (v : Z) : Input.UpdateTaskInput :=
  Input.mk (Some ttl) None None None None None None None None v.
(** What [lockTask] returns when it grants and when it refuses. *)
Definition lock_granted (agentId : string) (lockedAt : option Z) : Lock.LockResult :=
  Lock.mk true (Some agentId) lockedAt None.

Definition lock_refused (current : Task) : Lock.LockResult :=
  Lock.mk false (locked_by current) (locked_at current)
    (Some ("Task is locked by " +:+ default "" (locked_by current))).

(** A lease taken at [t] read against the [n]-th reading of the clock. *)
Definition expired_at (w : World) (n : nat) (t : Z) : bool :=
  expiryMs <? clock w n - t.

(** The acquiring half of [lockTask], from the [n]-th reading on. *)
Definition acquire (i agentId : string) (task : Task) (n : nat) (w : World)
    : (Error + Lock.LockResult) * World :=
  let cutoff := clock w n - expiryMs in
  let timestamp := clock w (S n) in
  let w2 := set_tasks (map (row_update (lock_sets agentId timestamp)
                                       (lock_where i agentId cutoff)))
                      (set_ticks (S (S n)) w) in
  if bool_decide (List.filter (lock_where i agentId cutoff) (tasks w) = [])
  then
    match locked_at task with
    | Some t =>
        if truthy_ostring (locked_by task)
        then (inr (if expired_at w (S (S n)) t
                   then lock_granted agentId (Some timestamp)
                   else lock_refused task),
              set_ticks (S (S (S n))) w2)
        else (inr (lock_granted agentId (Some timestamp)), w2)
    | None => (inr (lock_granted agentId (Some timestamp)), w2)
    end
  else (inr (lock_granted agentId (Some timestamp)), w2).

(** [lockTask] granted the lease to [agentId], and the stored row says so. *)
Definition granted (i agentId : string) (r : Lock.LockResult) (w' : World) : Prop :=
  Lock.success r = true ∧ Lock.locked_by r = Some agentId
  ∧ locked_by <$> select_task i w' = Some (Some agentId).

(** A task that [owner] holds under a lease taken at [t]. *)
Definition held_task (i owner : string) (t : Z) : Task :=
  mkTask i None None None None ("task " +:+ i) None in_progress medium None
         (Some owner) None None [] ∅ 2 (Some owner) (Some t) 100 t None.

Definition held_world (t : Z) : World :=
  mkWorld [held_task "a" "claude" t] [] [] [] [] []
          (fun n => 10000000 + Z.of_nat n) 0
          (fun n => "uuid-" +:+ pretty n) 0 None None.



(** [y] can be reached from [x] along dependency edges, in zero or more
    steps. *)
Definition reaches (deps : list (string * string)) : relation string :=
  rtc (edge deps).

(** Edges whose source the traversal has not visited yet. *)
Definition unvisited_edges (visited : gset string) (deps : list (string * string))
    : list (string * string) :=
  List.filter (fun e => negb (bool_decide (fst e ∈ visited))) deps.

(** Scenario 3 of the specification: B depends on A, C depends on B. *)
Definition chain_world : World :=
  mkWorld [sample_task "A" 1 100 medium; sample_task "B" 1 200 medium;
           sample_task "C" 1 300 medium]
          [] [("B", "A"); ("C", "B")] [] [] []
          (fun n => 10000000 + Z.of_nat n) 0
          (fun n => "uuid-" +:+ pretty n) 0 None None.

(** The rows a filter selects, before sorting and cutting. *)
Definition matching (f : Filter.TaskFilter) (w : World) : list Task :=
  List.filter (matches w f) (tasks w).

(** [{ limit: n }] *)
Definition with_limit (n : Z) : Filter.TaskFilter :=
  Filter.mk None None None None None None None None None None (Some n) None.

(** A store of [n] tasks, all medium, created one after the other. *)
Definition many_tasks (n : nat) : list Task :=
  map (fun k => sample_task (pretty k) 1 (Z.of_nat k) medium) (seq 0 n).

Definition crowded_world : World :=
  mkWorld (many_tasks 150) [] [] [] [] []
          (fun n => 10000000 + Z.of_nat n) 0
          (fun n => "uuid-" +:+ pretty n) 0 None None.

(** The world [listTasks] reads after its sweep of expired leases. *)
Definition swept (w : World) : World := snd (clearExpiredLocks w).

(** The counts of the push loop so far. *)
Definition handled (st : PushState) : nat :=
  (p_pushed st + length (p_errors st))%nat.


(** The rows [pushToClaudeTaskList] iterates over. *)
Definition listed (projectId : option string) (w : World) : list Task :=
  sql_limit_offset 100 0
    (merge_sort task_order (matching (project_filter projectId) (swept w))).

(** A store and a mirror on which neither side changed since the last
    sync: task [a] was last updated at 100, its mirror file [1.json]
    records that instant and was last written at it. *)
Definition synced_task : Task :=
  mkTask "a" None None None None "task a" None pending medium None None None None
         [] {["claude_task_id" := JStr "1"]} 2 None None 50 100 None.

Definition synced_dir : MirrorDir :=
  mkDir {["1" := mkFile (Some (taskToClaudeTask synced_task "1" None)) 100]}
        (Some (Some 2)) None.

Definition synced_world : World :=
  mkWorld [synced_task] [] [] [] [] []
          (fun n => 10000000 + Z.of_nat n) 0
          (fun n => "uuid-" +:+ pretty n) 0 (Some synced_dir) None.






(** [id] is the primary key of table [tasks]. *)
Definition pk_unique (w : World) : Prop := NoDup (map id (tasks w)).




(* ===================================================================== *)
(** ** Definitions the further statements use *)
(* ===================================================================== *)

(** The row [startTask] writes for [agentId], stamped with the reading [ts]. *)
Definition started_row (agentId : string) (ts : Z) (task : Task) : Task :=
  apply_sets (start_sets agentId ts) task.

(** The row [unlockTask] writes, stamped with the reading [ts]. *)
Definition unlocked_row (ts : Z) (task : Task) : Task :=
  apply_sets (unlock_sets ts) task.

(** [x] is the id of a row whose parent is [y]. *)
Definition child_of (rows : list Task) (x y : string) : Prop :=
  ∃ t, t ∈ rows ∧ id t = x ∧ parent_id t = Some y.

(** [x] is [y] or lies below it in the subtask tree. *)
Definition descends (rows : list Task) : relation string :=
  rtc (child_of rows).

(** The rows one round of the cascade takes. *)
Definition falls (rows : list Task) (dead : gset string) : list Task :=
  List.filter (fun t => match parent_id t with
                        | Some p => bool_decide (p ∈ dead)
                        | None => false
                        end && negb (bool_decide (id t ∈ dead))) rows.

(** No row outside [dead] has its parent inside. *)
Definition closed (rows : list Task) (dead : gset string) : Prop :=
  ∀ t p, In t rows → parent_id t = Some p → p ∈ dead → id t ∈ dead.

(** The ids [deleteTask(i)] takes from table [tasks]. *)
Definition deleted (i : string) (w : World) : gset string :=
  cascade (length (tasks w)) (tasks w) {[i]}.

(** Every [parent_id] names a stored row. *)
Definition parents_intact (w : World) : Prop :=
  ∀ t p, t ∈ tasks w → parent_id t = Some p → p ∈ map id (tasks w).

(** Every row of [task_dependencies] and of [task_tags] names stored rows. *)
Definition references_intact (w : World) : Prop :=
  (∀ a b, (a, b) ∈ task_dependencies w →
          a ∈ map id (tasks w) ∧ b ∈ map id (tasks w))
  ∧ (∀ a tag, (a, tag) ∈ task_tags w → a ∈ map id (tasks w)).

(** A parent with two subtasks, one of which has a subtask of its own, and
    a task apart; [leaf] depends on [apart] and carries a tag. *)
Definition child_task (i p : string) : Task :=
  mkTask i None (Some p) None None ("task " +:+ i) None pending medium None None
         None None [] ∅ 1 None None 100 100 None.

Definition tree_world : World :=
  mkWorld [sample_task "root" 1 100 medium; child_task "kid" "root";
           child_task "leaf" "kid"; child_task "twin" "root";
           sample_task "apart" 1 100 medium]
          [("leaf", "urgent"); ("apart", "urgent")]
          [("leaf", "apart"); ("apart", "twin")] [] [] []
          (fun n => 10000000 + Z.of_nat n) 0
          (fun n => "uuid-" +:+ pretty n) 0 None None.

(** A partial id with no [LIKE] wildcard in it. *)
Fixpoint literal (p : string) : bool :=
  match p with
  | EmptyString => true
  | String c p' =>
      negb (String.eqb (String c "") "%") && negb (String.eqb (String c "") "_")
      && literal p'
  end.

(** [p] is a prefix of [x] up to the case of ASCII letters. *)
Fixpoint prefix_ci (p x : string) : bool :=
  match p, x with
  | EmptyString, _ => true
  | String _ _, EmptyString => false
  | String c p', String d x' =>
      Ascii.eqb (like_fold c) (like_fold d) && prefix_ci p' x'
  end.

(** A partial id made of [%] signs only (the empty one among them). *)
Fixpoint percents (p : string) : bool :=
  match p with
  | EmptyString => true
  | String c p' => String.eqb (String c "") "%" && percents p'
  end.

(** What the sweep of [clearExpiredLocks] makes of one row at [cutoff]. *)
Definition sweep_row (cutoff : Z) (t : Task) : Task :=
  row_update [set_locked_by None; set_locked_at None]
    (fun t => negb (is_null (locked_at t)) && sql_lt (locked_at t) cutoff) t.

(** [{ ...f, limit: lim, offset: off }] *)
Definition paged (f : Filter.TaskFilter) (lim off : Z) : Filter.TaskFilter :=
  Filter.mk (Filter.project_id f) (Filter.parent_id f) (Filter.plan_id f)
    (Filter.task_list_id f) (Filter.status f) (Filter.priority f)
    (Filter.assigned_to f) (Filter.agent_id f) (Filter.session_id f)
    (Filter.tags f) (Some lim) (Some off).

(** The ids of the rows a filter selects, in the order of [listTasks]. *)
Definition ranked (f : Filter.TaskFilter) (w : World) : list string :=
  map id (merge_sort task_order (matching f w)).

(** The rows [searchTasks] selects from a store. *)
Definition found (query : string) (projectId : option string) (w : World)
    : list Task :=
  List.filter (search_where w query projectId) (tasks w).

(** Three tasks to search: a word in a title, in a description, in a tag. *)
Definition searched_world : World :=
  mkWorld [mkTask "t1" None None None None "Fix login bug" None pending low
             None None None None [] ∅ 1 None None 100 100 None;
           mkTask "t2" None None None None "Write docs" (Some "for the LOGIN page")
             pending high None None None None [] ∅ 1 None None 200 200 None;
           mkTask "t3" None None None None "Refactor" None pending medium
             None None None None ["login"] ∅ 1 None None 300 300 None;
           mkTask "t4" None None None None "Unrelated" None pending critical
             None None None None [] ∅ 1 None None 400 400 None]
          [("t3", "login")] [] [] [] []
          (fun n => 10000000 + Z.of_nat n) 0
          (fun n => "uuid-" +:+ pretty n) 0 None None.

(** The row [createTask] inserts: the id drawn, the input with its
    defaults, the clock's reading. *)
Definition created_row (input : Create.CreateTaskInput) (i : string) (ts : Z)
    : Task :=
  mkTask i
    (or_null (Create.project_id input)) (or_null (Create.parent_id input))
    (or_null (Create.plan_id input)) (or_null (Create.task_list_id input))
    (Create.title input) (or_null (Create.description input))
    (default pending (Create.status input))
    (match Create.priority input with Some (p_valid p) => p | _ => medium end)
    (or_null (Create.agent_id input)) (or_null (Create.assigned_to input))
    (or_null (Create.session_id input)) (or_null (Create.working_dir input))
    (default [] (Create.tags input)) (default ∅ (Create.metadata input))
    1 None None ts ts None.

(** What the [INSERT] of [createTask] needs: a priority the [CHECK] lets
    through, an id not taken, references that exist. *)
Definition insertable (w : World) (input : Create.CreateTaskInput) : bool :=
  match Create.priority input with Some p_other => false | _ => true end
  && negb (bool_decide (uuids w (minted w) ∈ map id (tasks w)))
  && fk_present (or_null (Create.project_id input)) (projects w)
  && fk_present (or_null (Create.parent_id input)) (map id (tasks w))
  && fk_present (or_null (Create.plan_id input)) (plans w)
  && fk_present (or_null (Create.task_list_id input)) (task_lists w).

(** The rows [insertTaskTags(taskId, tags)] leaves in [task_tags]. *)
Definition tagged (taskId : string) (tgs : list string)
    (rows : list (string * string)) : list (string * string) :=
  foldl (fun acc tag =>
           if truthy_string tag && negb (bool_decide ((taskId, tag) ∈ acc))
           then acc ++ [(taskId, tag)] else acc) rows tgs.

(** [{ title }] *)
Definition titled (ttl : string) : Create.CreateTaskInput :=
  Create.mk ttl None None None None None None None None None None None None None.

(** Table [task_tags] says what the [tags] columns say: a row [(i, tag)]
    for every non-empty tag of the task [i], and no other row. *)
Definition tags_indexed (w : World) : Prop :=
  ∀ i tag, (i, tag) ∈ task_tags w
           ↔ ∃ t, t ∈ tasks w ∧ id t = i ∧ tag ∈ tags t ∧ tag ≠ "".

(** [{ tags: tgs }] *)
Definition with_tags (tgs : list string) : Filter.TaskFilter :=
  Filter.mk None None None None None None None None None (Some tgs) None None.

(** [{ version: v, tags: tgs }] *)
Definition retag (tgs : list string) (v : Z) : Input.UpdateTaskInput :=
  Input.mk None None None None None None None (Some tgs) None v.

(** A store whose tag index is in step with its [tags] columns. *)
Definition tagged_world : World :=
  mkWorld [mkTask "a" None None None None "task a" None pending low None None
             None None ["ui"; "bug"] ∅ 1 None None 100 100 None;
           mkTask "b" None None None None "task b" None pending high None None
             None None [] ∅ 1 None None 200 200 None]
          [("a", "ui"); ("a", "bug")] [] [] [] []
          (fun n => 10000000 + Z.of_nat n) 0
          (fun n => "uuid-" +:+ pretty n) 0 None None.

(** A computation that takes every world to one related to it by [R]. *)
Definition stable {A} (R : relation World) (m : M A) : Prop :=
  ∀ w r w', m w = (r, w') → R w w'.

(** What the push pass may change in a row: the metadata, the version and
    [updated_at] (its own writes), and the lease (the sweep of the
    listing). *)
Definition push_row (t t' : Task) : Prop :=
  id t' = id t ∧ project_id t' = project_id t ∧ parent_id t' = parent_id t
  ∧ plan_id t' = plan_id t ∧ task_list_id t' = task_list_id t
  ∧ title t' = title t ∧ description t' = description t
  ∧ status t' = status t ∧ priority t' = priority t
  ∧ agent_id t' = agent_id t ∧ assigned_to t' = assigned_to t
  ∧ session_id t' = session_id t ∧ working_dir t' = working_dir t
  ∧ tags t' = tags t ∧ created_at t' = created_at t
  ∧ completed_at t' = completed_at t.

(** What the push pass leaves of the store. *)
Definition push_side (w w' : World) : Prop :=
  Forall2 push_row (tasks w) (tasks w')
  ∧ task_tags w' = task_tags w
  ∧ task_dependencies w' = task_dependencies w
  ∧ (is_Some (mirror w) → is_Some (mirror w')).

(** What the pull pass leaves: the mirror directory and the dependencies
    as they were, and every task that was stored (new rows come after). *)
Definition pull_side (w w' : World) : Prop :=
  mirror w' = mirror w
  ∧ task_dependencies w' = task_dependencies w
  ∧ map id (tasks w) `prefix_of` map id (tasks w').

(** A computation that always returns. *)
Definition total {A} (m : M A) : Prop :=
  ∀ w, ∃ a w', m w = (inr a, w').

(** The entries of a directory the pull pass acts on: readable, and not
    marked [_internal]. *)
Definition pullable (d : MirrorDir) : list (string * MirrorFile) :=
  List.filter (fun f => match content (snd f) with
                        | Some ct => negb (truthy_json (meta_get ct "_internal"))
                        | None => false
                        end) (map_to_list (files d)).

(** The counts of the pull loop so far. *)
Definition pull_handled (st : PullState) : nat :=
  (l_pulled st + length (l_errors st))%nat.

(** The mirror record the push pass writes for a task it has not mirrored
    yet, under the external id [name]. *)
Definition new_record (cfg : option TaskPrefixConfig) (task : Task)
    (name : string) (counter : Z) : Claude.ClaudeTask :=
  match cfg with
  | Some c => with_subject
                (formatPrefixedSubject (title task) (prefix c) counter)
                (taskToClaudeTask task name None)
  | None => taskToClaudeTask task name None
  end.

(** A directory that is not there yet reads as an empty one. *)
Definition dir_of (w : World) : MirrorDir :=
  default (mkDir ∅ None None) (mirror w).

(** Two tasks that were never mirrored, and no directory. *)
Definition unmirrored_world : World :=
  mkWorld [sample_task "a" 1 100 low; sample_task "b" 1 200 high]
          [] [] [] [] []
          (fun n => 10000000 + Z.of_nat n) 0
          (fun n => "uuid-" +:+ pretty n) 0 None None.

(** What the push pass leaves for the [k]-th listed task [t] when it mints
    the external id [name] for it: the file [<name>.json] holding a record
    that points back at the task, and the id stored in the task's
    metadata. *)
Definition mirrored_as (name : string) (t : Task) (d' : MirrorDir) (w' : World)
    : Prop :=
  (∃ ct ts, files d' !! name = Some (mkFile (Some ct) ts)
            ∧ Claude.id ct = name
            ∧ meta_get ct "todos_id" = Some (JStr (id t))
            ∧ Claude.status ct = toClaudeStatus (status t))
  ∧ (∃ new, select_task (id t) w' = Some new
            ∧ metadata new = <["claude_task_id" := JStr name]> (metadata t)
            ∧ version new = version t + 1).

(* ===================================================================== *)
(** ** Proof steps for the effect monad *)
(* ===================================================================== *)

(** Open the outermost [x ← m; k]. *)
Ltac step_bind := unfold mbind at 1, M_bind at 1, bind at 1.


(* ===================================================================== *)
(** ** The versioned update *)
(* ===================================================================== *)

Lemma apply_update_sets input u d t :
  apply_sets (update_sets input u d) t = patched input u d t.
Proof.
  destruct input as [ti de st pr asg pl tl tg me ve], t.
  destruct ti, de, st, pr, asg, pl, tl, tg, me, d; reflexivity.
Qed.

Lemma apply_set_id a t : id (apply_set a t) = id t.
Proof. destruct a, t; reflexivity. Qed.

Lemma apply_sets_id sets t : id (apply_sets sets t) = id t.
Proof.
  unfold apply_sets. revert t.
  induction sets as [|a sets IH]; intros t; simpl; [done|].
  rewrite IH. apply apply_set_id.
Qed.

Lemma row_update_id sets cond t : id (row_update sets cond t) = id t.
Proof. unfold row_update. destruct (cond t); [apply apply_sets_id|done]. Qed.

(** A statement that keeps ids maps the row found for an id to its image. *)
Lemma find_id_map (i : string) (g : Task → Task) (l : list Task) :
  (∀ t, id (g t) = id t) →
  List.find (λ t, String.eqb (id t) i) (map g l)
  = g <$> List.find (λ t, String.eqb (id t) i) l.
Proof.
  intros Hg. induction l as [|t l IH]; simpl; [done|].
  rewrite Hg. destruct (String.eqb (id t) i); [done|apply IH].
Qed.

Lemma select_task_id i w t : select_task i w = Some t → id t = i.
Proof.
  unfold select_task. intros H. apply find_some in H as [_ H].
  by apply String.eqb_eq.
Qed.

Lemma find_filter_nonempty (c f : Task → bool) (l : list Task) t :
  List.find c l = Some t → f t = true → List.filter f l ≠ [].
Proof.
  intros Hf Hc. apply find_some in Hf as [Hin _].
  intros E. assert (In t (List.filter f l)) as Hx by (apply filter_In; auto).
  rewrite E in Hx. destruct Hx.
Qed.

(** A statement whose [WHERE] matches no row changes none. *)
Lemma map_row_update_nohit sets cond (l : list Task) :
  List.filter cond l = [] → map (row_update sets cond) l = l.
Proof.
  induction l as [|t l IH]; simpl; [done|].
  unfold row_update at 1. destruct (cond t); [discriminate|].
  intros E. by rewrite IH.
Qed.

(** Whether the patch names a plan or a list that does not exist. *)
Lemma fk_update_sets w input u d :
  existsb (fk_violation w) (update_sets input u d) = negb (refs_exist w input).
Proof.
  unfold refs_exist.
  destruct input as [ti de st pr asg pl tl tg me ve]; simpl.
  destruct ti, de, st, pr, asg, pl as [[p|]|], tl as [[l|]|], tg, me, d; simpl;
    rewrite ?orb_false_r, ?andb_true_r, ?negb_andb; reflexivity.
Qed.

Lemma refs_exist_same w w' input :
  plans w' = plans w → task_lists w' = task_lists w →
  refs_exist w' input = refs_exist w input.
Proof. intros Hp Hl. unfold refs_exist. by rewrite Hp, Hl. Qed.

Lemma sql_update_unfold sets cond w :
  sql_update sets cond w =
  if negb (bool_decide (List.filter cond (tasks w) = []))
     && existsb (fk_violation w) sets
  then (inl (SQLiteError "FOREIGN KEY constraint failed"), w)
  else (inr (length (List.filter cond (tasks w))),
        set_tasks (map (row_update sets cond)) w).
Proof. reflexivity. Qed.

(** [updateTask] in closed form: the four ways a call can end. *)
Lemma updateTask_run w i input :
  updateTask i input w =
  match select_task i w with
  | None => (inl (TaskNotFoundError i), w)
  | Some task =>
      if negb (version task =? Input.version input)
      then (inl (VersionConflictError i (Input.version input) (version task)), w)
      else if refs_exist w input
           then (inr (Some (patched input (clock w (ticks w))
                              (done_reading input w) task)),
                 after_update i input w)
           else (inl (SQLiteError "FOREIGN KEY constraint failed"),
                 after_readings input w)
  end.
Proof.
  unfold updateTask, mbind, M_bind, bind, getTask, gets, select_task.
  destruct (List.find _ (tasks w)) as [task|] eqn:Hfind; [|reflexivity].
  destruct (version task =? Input.version input) eqn:Hv; [|reflexivity].
  apply Z.eqb_eq in Hv.
  assert (Hc : update_where i (Input.version input) task = true).
  { unfold update_where. apply find_some in Hfind as [_ ->].
    rewrite Hv, Z.eqb_refl. done. }
  assert (Hne : List.filter (update_where i (Input.version input)) (tasks w) ≠ [])
    by (by eapply find_filter_nonempty).
  assert (Hlen : length (List.filter (update_where i (Input.version input)) (tasks w)) ≠ 0%nat).
  { intros E. by apply length_zero_iff_nil in E. }
  assert (Hlook : ∀ u d,
    List.find (λ t, String.eqb (id t) i)
      (map (row_update (update_sets input u d) (update_where i (Input.version input)))
           (tasks w)) = Some (patched input u d task)).
  { intros u d. rewrite find_id_map by (intros; apply row_update_id).
    rewrite Hfind. simpl.
    unfold row_update. rewrite Hc. by rewrite apply_update_sets. }
  unfold after_update, after_readings, updated_rows, done_reading.
  cbn [negb].
  destruct (Input.status input) as [[]|] eqn:Hs;
    cbn [now Date_now ret fst snd];
    rewrite sql_update_unfold, fk_update_sets;
    rewrite (refs_exist_same w) by reflexivity;
    cbn [tasks set_ticks];
    (rewrite (bool_decide_eq_false_2 _ Hne)); cbn [negb andb];
    (destruct (refs_exist w input); cbn [negb]; [|reflexivity]);
    (rewrite bool_decide_eq_false_2 by exact Hlen);
    destruct (Input.tags input) as [tgs|] eqn:Htg; simpl;
    rewrite Hlook; reflexivity.
Qed.

Lemma tasks_after_update i input w :
  tasks (after_update i input w) = updated_rows i input w.
Proof. unfold after_update. destruct (Input.tags input); reflexivity. Qed.

Lemma select_after_update i input w task :
  select_task i w = Some task →
  version task = Input.version input →
  select_task i (after_update i input w)
  = Some (patched input (clock w (ticks w)) (done_reading input w) task).
Proof.
  intros Hfind Hv. unfold select_task in *.
  rewrite tasks_after_update. unfold updated_rows.
  rewrite find_id_map by (intros; apply row_update_id).
  rewrite Hfind. cbn [fmap option_fmap option_map]. f_equal.
  unfold row_update, update_where.
  apply find_some in Hfind as [_ ->]. rewrite Hv, Z.eqb_refl. cbn [andb].
  apply apply_update_sets.
Qed.

(** A row stored under another id is not touched. *)
Lemma select_other_after_update i j input w :
  j ≠ i → select_task j (after_update i input w) = select_task j w.
Proof.
  intros Hne. unfold select_task. rewrite tasks_after_update. unfold updated_rows.
  rewrite find_id_map by (intros; apply row_update_id).
  destruct (List.find _ (tasks w)) as [t|] eqn:Hf; [|done]. simpl.
  apply find_some in Hf as [_ Hj]. apply String.eqb_eq in Hj.
  unfold row_update, update_where.
  destruct (String.eqb_spec (id t) i); [congruence|done].
Qed.



(** C3.  An [updateTask] that fails with VersionConflict leaves the world as
    it was: no field of any row (and no other table) is modified. *)
Theorem updateTask_conflict_changes_nothing (w w' : World) (i j : string)
    (input : Input.UpdateTaskInput) (expected actual : Z) :
  updateTask i input w = (inl (VersionConflictError j expected actual), w') →
  w' = w ∧ tasks w' = tasks w ∧ select_task i w' = select_task i w.
Proof.
  rewrite updateTask_run.
  destruct (select_task i w) as [task|] eqn:Hsel; [|discriminate].
  destruct (negb (version task =? Input.version input)).
  - intros [= _ _ _ <-]. done.
  - destruct (refs_exist w input); discriminate.
Qed.

Lemma updateTask_conflict_changes_nothing_witness :
  fst (updateTask "a" (retitle "A2" 7) sample_world)
  = inl (VersionConflictError "a" 7 1)
  ∧ tasks (snd (updateTask "a" (retitle "A2" 7) sample_world))
    = tasks sample_world.
Proof.
  split; [reflexivity|].
  destruct (updateTask_conflict_changes_nothing sample_world
              (snd (updateTask "a" (retitle "A2" 7) sample_world)) "a" "a"
              (retitle "A2" 7) 7 1) as (_ & H & _); [reflexivity|exact H].
Defined.

(** C9.  A successful [updateTask] leaves every field the patch omits as it
    was: only the fields the patch provides, [version], [updated_at] and
    (when the patch sets the status to completed) [completed_at] can differ
    between the row before and the row after; rows stored under other ids
    are not touched. *)
Theorem updateTask_frame (w w' : World) (i : string)
    (input : Input.UpdateTaskInput) (r : option Task) :
  updateTask i input w = (inr r, w') →
  ∃ old new,
    select_task i w = Some old ∧ r = Some new ∧ select_task i w' = Some new
    ∧ id new = id old ∧ project_id new = project_id old
    ∧ parent_id new = parent_id old ∧ agent_id new = agent_id old
    ∧ session_id new = session_id old ∧ working_dir new = working_dir old
    ∧ locked_by new = locked_by old ∧ locked_at new = locked_at old
    ∧ created_at new = created_at old
    ∧ title new = default (title old) (Input.title input)
    ∧ description new = default (description old) (Input.description input)
    ∧ status new = default (status old) (Input.status input)
    ∧ priority new = default (priority old) (Input.priority input)
    ∧ assigned_to new = default (assigned_to old) (Input.assigned_to input)
    ∧ tags new = default (tags old) (Input.tags input)
    ∧ metadata new = default (metadata old) (Input.metadata input)
    ∧ plan_id new = default (plan_id old) (Input.plan_id input)
    ∧ task_list_id new = default (task_list_id old) (Input.task_list_id input)
    ∧ (Input.status input ≠ Some completed → completed_at new = completed_at old)
    ∧ version new = version old + 1
    ∧ (∀ j, j ≠ i → select_task j w' = select_task j w).
Proof.
  rewrite updateTask_run.
  destruct (select_task i w) as [task|] eqn:Hsel; [|discriminate].
  destruct (Z.eqb_spec (version task) (Input.version input)) as [Hv|]; [|discriminate].
  simpl. destruct (refs_exist w input); [|discriminate].
  intros [= <- <-].
  exists task, (patched input (clock w (ticks w)) (done_reading input w) task).
  split; [done|]. split; [done|].
  split; [by apply select_after_update|].
  repeat (split; [reflexivity|]).
  split.
  - intros Hs. simpl. unfold done_reading.
    destruct (Input.status input) as [[]|]; done.
  - split; [reflexivity|]. intros j Hj. by apply select_other_after_update.
Qed.

Lemma updateTask_frame_witness :
  ∃ new w', updateTask "a" (retitle "A2" 1) sample_world = (inr (Some new), w')
    ∧ title new = "A2" ∧ priority new = low ∧ status new = pending
    ∧ version new = 2
    ∧ select_task "b" w' = Some (sample_task "b" 1 200 critical).
Proof.
  destruct (updateTask_frame sample_world
              (snd (updateTask "a" (retitle "A2" 1) sample_world)) "a"
              (retitle "A2" 1)
              (Some (patched (retitle "A2" 1) 10000000 None (sample_task "a" 1 100 low))))
    as (old & new & Ho & Hr & Hn & H); [reflexivity|].
  injection Ho as <-. injection Hr as <-.
  destruct H as (_&_&_&_&_&_&_&_&_&Ht&_&Hs&Hp&_&_&_&_&_&_&Hv&Hoth).
  eexists _, _. split; [reflexivity|].
  split; [exact Ht|]. split; [exact Hp|]. split; [exact Hs|]. split; [exact Hv|].
  rewrite Hoth by discriminate. reflexivity.
Defined.

(* ===================================================================== *)
(** ** The lease lock *)
(* ===================================================================== *)

Lemma sql_update_nofk sets cond w :
  existsb (fk_violation w) sets = false →
  sql_update sets cond w
  = (inr (length (List.filter cond (tasks w))),
     set_tasks (map (row_update sets cond)) w).
Proof. intros E. rewrite sql_update_unfold, E, andb_false_r. reflexivity. Qed.

Lemma select_set_tasks_nohit i sets cond w :
  List.filter cond (tasks w) = [] →
  select_task i (set_tasks (map (row_update sets cond)) w) = select_task i w.
Proof.
  intros E. unfold select_task. simpl. by rewrite map_row_update_nohit.
Qed.

Lemma length_zero_decide {A} (l : list A) :
  bool_decide (length l = 0%nat) = bool_decide (l = []).
Proof. apply bool_decide_ext. apply length_zero_iff_nil. Qed.

(** [lockTask] in closed form. *)
Lemma lockTask_run w i agentId :
  lockTask i agentId w =
  match select_task i w with
  | None => (inl (TaskNotFoundError i), w)
  | Some task =>
      if bool_decide (locked_by task = Some agentId)
      then match locked_at task with
           | Some t =>
               if expired_at w (ticks w) t
               then acquire i agentId task (S (ticks w)) w
               else (inr (lock_granted agentId (locked_at task)),
                     set_ticks (S (ticks w)) w)
           | None => acquire i agentId task (ticks w) w
           end
      else acquire i agentId task (ticks w) w
  end.
Proof.
  assert (Hacq : ∀ task n,
    select_task i w = Some task →
    (cutoff ← lockExpiryCutoff;
     timestamp ← now;
     changes ← sql_update (lock_sets agentId timestamp) (lock_where i agentId cutoff);
     if bool_decide (changes = 0%nat)
     then
       current ← getTask i;
       match current with
       | None => throw (TaskNotFoundError i)
       | Some current =>
           held ←
             (if truthy_ostring (locked_by current)
              then e ← isLockExpired (locked_at current); ret (negb e)
              else ret false);
           if (held : bool)
           then ret (Lock.mk false (locked_by current) (locked_at current)
                       (Some ("Task is locked by "
                              +:+ default "" (locked_by current))))
           else ret (Lock.mk true (Some agentId) (Some timestamp) None)
       end
     else ret (Lock.mk true (Some agentId) (Some timestamp) None))
      (set_ticks n w) = acquire i agentId task n w).
  { intros task n Hsel.
    unfold acquire, lockExpiryCutoff, now.
    repeat unfold mbind, M_bind, bind, Date_now, ret.
    cbn [fst snd ticks clock set_ticks].
    rewrite sql_update_nofk by reflexivity.
    cbn [tasks set_ticks]. rewrite length_zero_decide.
    destruct (bool_decide (List.filter _ (tasks w) = [])) eqn:Hhit; [|reflexivity].
    apply bool_decide_eq_true in Hhit.
    unfold getTask, gets.
    rewrite select_set_tasks_nohit by exact Hhit.
    change (select_task i _) with (select_task i w).
    rewrite Hsel.
    unfold lock_refused.
    destruct (truthy_ostring (locked_by task)); simpl.
    - destruct (locked_at task) as [t|]; simpl; [|reflexivity].
      unfold expired_at. destruct (expiryMs <? _); reflexivity.
    - destruct (locked_at task); reflexivity. }
  unfold lockTask at 1. step_bind.
  unfold getTask at 1, gets at 1.
  destruct (select_task i w) as [task|] eqn:Hsel; [|reflexivity].
  step_bind.
  destruct (bool_decide (locked_by task = Some agentId)).
  - destruct (locked_at task) as [t|] eqn:Hla.
    + unfold isLockExpired, mbind at 1, M_bind at 1, bind at 1.
      step_bind; unfold Date_now at 1, ret at 1.
      unfold expired_at.
      destruct (expiryMs <? clock w (ticks w) - t); cbn [negb fst snd ret].
      * exact (Hacq task (S (ticks w)) eq_refl).
      * reflexivity.
    + cbn [isLockExpired]. step_bind; unfold ret at 1.
      cbn [negb ret].
      rewrite <- (Hacq task (ticks w) eq_refl). destruct w; reflexivity.
  - unfold ret at 1. rewrite <- (Hacq task (ticks w) eq_refl). destruct w; reflexivity.
Qed.

Lemma locked_by_lock_sets agentId ts t :
  locked_by (apply_sets (lock_sets agentId ts) t) = Some agentId.
Proof. destruct t; reflexivity. Qed.

Lemma acquire_hit w i agentId task n :
  select_task i w = Some task →
  lock_where i agentId (clock w n - expiryMs) task = true →
  ∃ w', acquire i agentId task n w
        = (inr (lock_granted agentId (Some (clock w (S n)))), w')
        ∧ locked_by <$> select_task i w' = Some (Some agentId).
Proof.
  intros Hsel Hc. unfold acquire.
  rewrite bool_decide_eq_false_2
    by (eapply find_filter_nonempty; [exact Hsel|exact Hc]).
  eexists. split; [reflexivity|].
  unfold select_task in *. cbn [tasks set_tasks set_ticks].
  rewrite find_id_map by (intros; apply row_update_id).
  rewrite Hsel. cbn [fmap option_fmap option_map]. do 2 f_equal.
  unfold row_update. rewrite Hc. apply locked_by_lock_sets.
Qed.

Lemma acquire_refused w i agentId task n r w' :
  select_task i w = Some task →
  acquire i agentId task n w = (inr r, w') →
  Lock.success r = false →
  ∃ owner t, locked_by task = Some owner ∧ owner ≠ agentId
    ∧ locked_at task = Some t ∧ expired_at w (S (S n)) t = false
    ∧ r = lock_refused task ∧ tasks w' = tasks w.
Proof.
  intros Hsel. unfold acquire.
  destruct (bool_decide _) eqn:Hhit; [|by intros [= <- _]].
  apply bool_decide_eq_true in Hhit.
  assert (Hc : lock_where i agentId (clock w n - expiryMs) task = false).
  { destruct (lock_where _ _ _ task) eqn:Hc; [|done].
    by eapply find_filter_nonempty in Hc. }
  destruct (locked_at task) as [t|] eqn:Hla; [|by intros [= <- _]].
  destruct (truthy_ostring (locked_by task)) eqn:Htr; [|by intros [= <- _]].
  destruct (expired_at w (S (S n)) t) eqn:Hexp; [by intros [= <- _]|].
  intros [= <- <-] _.
  destruct (locked_by task) as [owner|] eqn:Hlb; [|discriminate].
  exists owner, t. repeat split; try done.
  - intros ->. unfold lock_where in Hc. rewrite Hlb in Hc. simpl in Hc.
    rewrite (select_task_id _ _ _ Hsel), !String.eqb_refl in Hc. discriminate.
  - cbn [tasks set_ticks set_tasks]. by apply map_row_update_nohit.
Qed.

Lemma acquire_returns w i agentId task n :
  ∃ r w', acquire i agentId task n w = (inr r, w').
Proof.
  unfold acquire. destruct (bool_decide _); [|by eexists _, _].
  destruct (locked_at task); [|by eexists _, _].
  destruct (truthy_ostring _); by eexists _, _.
Qed.

(** What a refusal tells. *)
Definition refusal (w w' : World) (agentId : string) (task : Task)
    (r : Lock.LockResult) : Prop :=
  ∃ owner t n,
    locked_by task = Some owner ∧ owner ≠ agentId
    ∧ locked_at task = Some t ∧ clock w n - t <= expiryMs
    ∧ r = lock_refused task ∧ Lock.locked_by r = Some owner
    ∧ tasks w' = tasks w.

Lemma acquire_cases w i agentId task n :
  select_task i w = Some task →
  ∃ r w',
    acquire i agentId task n w = (inr r, w')
    ∧ ((locked_by task = None ∨ locked_by task = Some agentId
        ∨ (∃ t, locked_at task = Some t ∧ expiryMs < clock w n - t))
       → granted i agentId r w')
    ∧ (Lock.success r = false → refusal w w' agentId task r).
Proof.
  intros Hsel.
  assert (Hid := select_task_id _ _ _ Hsel).
  destruct (acquire_returns w i agentId task n) as (r & w' & Hr).
  exists r, w'. split; [done|]. split.
  - intros Hcase.
    assert (Hc : lock_where i agentId (clock w n - expiryMs) task = true).
    { unfold lock_where. rewrite Hid, String.eqb_refl. simpl.
      destruct Hcase as [-> | [-> | (t & -> & Hexp)]]; simpl.
      - done.
      - by rewrite String.eqb_refl.
      - assert ((t <? clock w n - expiryMs) = true) as -> by (apply Z.ltb_lt; lia).
        by rewrite orb_true_r. }
    destruct (acquire_hit w i agentId task n Hsel Hc) as (w2 & Hr2 & Hlk).
    rewrite Hr in Hr2. injection Hr2 as -> ->. done.
  - intros Hfail.
    destruct (acquire_refused _ _ _ _ _ _ _ Hsel Hr Hfail)
      as (owner & t & Hlb & Hne & Hla & Hexp & -> & Ht).
    exists owner, t, (S (S n)).
    split; [done|]. split; [done|]. split; [done|]. split.
    { unfold expired_at in Hexp. apply Z.ltb_ge in Hexp. lia. }
    split; [done|]. split; [|done]. unfold lock_refused. simpl. done.
Qed.

Lemma lockTask_cases w i agentId task :
  select_task i w = Some task →
  ∃ r w',
    lockTask i agentId w = (inr r, w')
    ∧ ((locked_by task = None ∨ locked_by task = Some agentId
        ∨ (∃ t, locked_at task = Some t ∧ expiryMs < clock w (ticks w) - t))
       → granted i agentId r w')
    ∧ (Lock.success r = false → refusal w w' agentId task r).
Proof.
  intros Hsel. rewrite lockTask_run, Hsel.
  destruct (bool_decide (locked_by task = Some agentId)) eqn:Hmine.
  - apply bool_decide_eq_true in Hmine.
    destruct (locked_at task) as [t|] eqn:Hla.
    + destruct (expired_at w (ticks w) t) eqn:Hexp.
      * destruct (acquire_cases w i agentId task (S (ticks w)) Hsel)
          as (r & w' & Hr & Hg & Hf).
        exists r, w'. split; [done|]. split; [|done].
        intros _. apply Hg. auto.
      * exists (lock_granted agentId (Some t)), (set_ticks (S (ticks w)) w).
        split; [done|]. split; [|discriminate].
        intros _. split; [done|]. split; [done|].
        change (select_task i (set_ticks _ w)) with (select_task i w).
        by rewrite Hsel, <- Hmine.
    + destruct (acquire_cases w i agentId task (ticks w) Hsel)
        as (r & w' & Hr & Hg & Hf).
      exists r, w'. split; [done|]. split; [|done].
      intros _. apply Hg. auto.
  - destruct (acquire_cases w i agentId task (ticks w) Hsel)
      as (r & w' & Hr & Hg & Hf).
    exists r, w'. done.
Qed.

(** C5.  On an existing task [lockTask] never throws.  It grants the lease
    when the task is unlocked, when the caller already holds it, and when
    the lease is older than 30 minutes (whoever holds it); when it refuses,
    the result has [success = false] and names the current owner, another
    agent whose lease has not expired, and no row is changed. *)
Theorem lockTask_outcomes (w : World) (i agentId : string) (task : Task) :
  select_task i w = Some task →
  ∃ r w',
    lockTask i agentId w = (inr r, w')
    ∧ (locked_by task = None → granted i agentId r w')
    ∧ (locked_by task = Some agentId → granted i agentId r w')
    ∧ (∀ t, locked_at task = Some t → expiryMs < clock w (ticks w) - t →
         granted i agentId r w')
    ∧ (Lock.success r = false →
         ∃ owner t n,
           locked_by task = Some owner ∧ owner ≠ agentId
           ∧ locked_at task = Some t ∧ clock w n - t <= expiryMs
           ∧ r = lock_refused task ∧ Lock.locked_by r = Some owner
           ∧ tasks w' = tasks w).
Proof.
  intros Hsel.
  destruct (lockTask_cases w i agentId task Hsel) as (r & w' & Hr & Hg & Hf).
  exists r, w'. split; [done|].
  split; [auto|]. split; [auto|]. split; [|exact Hf].
  intros t Hla Hexp. apply Hg. eauto.
Qed.

(** C5 at work: an unlocked task, the owner again, a lease 31 minutes old
    taken over by another agent, and a live lease refused. *)
Lemma lockTask_outcomes_witness :
  (∃ r w', lockTask "a" "codex" sample_world = (inr r, w')
           ∧ granted "a" "codex" r w')
  ∧ (∃ r w', lockTask "a" "claude" (held_world 9999000) = (inr r, w')
             ∧ granted "a" "claude" r w')
  ∧ (∃ r w', lockTask "a" "codex" (held_world (10000000 - 1860000)) = (inr r, w')
             ∧ granted "a" "codex" r w')
  ∧ (∃ r w', lockTask "a" "codex" (held_world 9999000) = (inr r, w')
             ∧ r = lock_refused (held_task "a" "claude" 9999000)
             ∧ tasks w' = tasks (held_world 9999000)).
Proof.
  split; [|split; [|split]].
  - destruct (lockTask_outcomes sample_world "a" "codex" (sample_task "a" 1 100 low))
      as (r & w' & Hr & Hg & _); [reflexivity|].
    exists r, w'. split; [exact Hr|]. apply Hg. reflexivity.
  - destruct (lockTask_outcomes (held_world 9999000) "a" "claude"
                (held_task "a" "claude" 9999000))
      as (r & w' & Hr & _ & Hg & _); [reflexivity|].
    exists r, w'. split; [exact Hr|]. apply Hg. reflexivity.
  - destruct (lockTask_outcomes (held_world (10000000 - 1860000)) "a" "codex"
                (held_task "a" "claude" (10000000 - 1860000)))
      as (r & w' & Hr & _ & _ & Hg & _); [reflexivity|].
    exists r, w'. split; [exact Hr|].
    apply (Hg (10000000 - 1860000)); [reflexivity|vm_compute; reflexivity].
  - destruct (lockTask_outcomes (held_world 9999000) "a" "codex"
                (held_task "a" "claude" 9999000))
      as (r & w' & Hr & _ & _ & _ & Hf); [reflexivity|].
    assert (Lock.success r = false) as Hs.
    { assert (E : fst (lockTask "a" "codex" (held_world 9999000)) = inr r)
        by (by rewrite Hr).
      vm_compute in E. by injection E as <-. }
    destruct (Hf Hs) as (owner & t & n & _ & _ & _ & _ & Hrr & _ & Ht).
    exists r, w'. split; [exact Hr|]. split; [exact Hrr|exact Ht].
Defined.

(** C7.  Locking again a task the caller holds under a lease that has not
    expired succeeds and does not refresh the lease: the result carries the
    stored [locked_at], and no row is changed. *)
Theorem lockTask_same_owner_idempotent (w : World) (i agentId : string)
    (task : Task) (t : Z) :
  select_task i w = Some task →
  locked_by task = Some agentId →
  locked_at task = Some t →
  clock w (ticks w) - t <= expiryMs →
  ∃ w', lockTask i agentId w = (inr (Lock.mk true (Some agentId) (Some t) None), w')
        ∧ tasks w' = tasks w
        ∧ select_task i w' = Some task.
Proof.
  intros Hsel Hlb Hla Hage.
  rewrite lockTask_run, Hsel, Hlb, bool_decide_eq_true_2, Hla by done.
  unfold expired_at. destruct (Z.ltb_spec expiryMs (clock w (ticks w) - t)); [lia|].
  eexists. split; [reflexivity|]. split; [reflexivity|exact Hsel].
Qed.

Lemma lockTask_same_owner_idempotent_witness :
  ∃ w', lockTask "a" "claude" (held_world 9999000)
        = (inr (Lock.mk true (Some "claude") (Some 9999000) None), w')
        ∧ tasks w' = tasks (held_world 9999000).
Proof.
  destruct (lockTask_same_owner_idempotent (held_world 9999000) "a" "claude"
              (held_task "a" "claude" 9999000) 9999000)
    as (w' & Hr & Ht & _);
    [reflexivity|reflexivity|reflexivity|vm_compute; discriminate|].
  exists w'. split; [exact Hr|exact Ht].
Defined.

(* ===================================================================== *)
(** ** completeTask *)
(* ===================================================================== *)






(* ===================================================================== *)
(** ** The dependency guard *)
(* ===================================================================== *)

Lemma elem_of_depends_on_of x y deps :
  y ∈ depends_on_of x deps ↔ edge deps x y.
Proof.
  unfold depends_on_of, edge. rewrite list_elem_of_In, in_map_iff. split.
  - intros ([a b] & <- & Hin). apply filter_In in Hin as [Hin Hx].
    simpl in *. apply String.eqb_eq in Hx as ->. by apply list_elem_of_In.
  - intros Hin. exists (x, y). split; [done|]. apply filter_In.
    split; [by apply list_elem_of_In|]. simpl. apply String.eqb_refl.
Qed.

(** Visiting [c] moves its out-edges from the unvisited ones to the queue. *)
Lemma unvisited_edges_visit c visited deps :
  c ∉ visited →
  (length (depends_on_of c deps)
   + length (unvisited_edges ({[c]} ∪ visited) deps))%nat
  = length (unvisited_edges visited deps).
Proof.
  intros Hc. unfold depends_on_of, unvisited_edges. rewrite length_map.
  induction deps as [|[a b] deps IH]; simpl; [done|].
  destruct (String.eqb_spec a c) as [->|Hne].
  - rewrite (bool_decide_eq_true_2 (c ∈ {[c]} ∪ visited)) by set_solver.
    rewrite (bool_decide_eq_false_2 (c ∈ visited)) by done.
    simpl. by rewrite IH.
  - destruct (decide (a ∈ visited)) as [Hin|Hnin].
    + rewrite (bool_decide_eq_true_2 (a ∈ {[c]} ∪ visited)) by set_solver.
      rewrite (bool_decide_eq_true_2 (a ∈ visited)) by done.
      simpl. exact IH.
    + rewrite (bool_decide_eq_false_2 (a ∈ {[c]} ∪ visited)) by set_solver.
      rewrite (bool_decide_eq_false_2 (a ∈ visited)) by done.
      simpl. rewrite <- IH. lia.
Qed.

(** The loop ends: fuel for the queue and the unvisited edges is enough. *)
Lemma bfs_enough_fuel fuel deps taskId visited queue :
  (length queue + length (unvisited_edges visited deps) ≤ fuel)%nat →
  is_Some (bfs fuel deps taskId visited queue).
Proof.
  revert visited queue.
  induction fuel as [|fuel IH]; intros visited queue Hm.
  - destruct queue; simpl in *; [by eexists|lia].
  - destruct queue as [|c q]; simpl in *; [by eexists|].
    destruct (String.eqb c taskId); [by eexists|].
    destruct (decide (c ∈ visited)) as [Hin|Hnin].
    + rewrite bool_decide_eq_true_2 by done. apply IH. lia.
    + rewrite bool_decide_eq_false_2 by done. apply IH.
      rewrite length_app.
      pose proof (unvisited_edges_visit c visited deps Hnin). lia.
Qed.

Lemma unvisited_edges_length visited deps :
  (length (unvisited_edges visited deps) ≤ length deps)%nat.
Proof.
  unfold unvisited_edges. induction deps as [|e deps IH]; simpl; [done|].
  destruct (negb _); simpl; lia.
Qed.

Lemma bfs_total deps taskId dependsOn :
  is_Some (bfs (S (length deps)) deps taskId ∅ [dependsOn]).
Proof.
  apply bfs_enough_fuel. simpl.
  pose proof (unvisited_edges_length ∅ deps). lia.
Qed.

(** An answer [true] comes with a path from the queue to [taskId]. *)
Lemma bfs_true_reaches fuel deps taskId visited queue :
  bfs fuel deps taskId visited queue = Some true →
  ∃ x, x ∈ queue ∧ reaches deps x taskId.
Proof.
  revert visited queue.
  induction fuel as [|fuel IH]; intros visited queue.
  - destruct queue; simpl; discriminate.
  - destruct queue as [|c q]; simpl; [discriminate|].
    destruct (String.eqb_spec c taskId) as [->|Hne].
    + intros _. exists taskId. split; [set_solver|]. apply rtc_refl.
    + destruct (bool_decide (c ∈ visited)).
      * intros H. destruct (IH _ _ H) as (x & Hx & Hr).
        exists x. split; [set_solver|done].
      * intros H. destruct (IH _ _ H) as (x & Hx & Hr).
        apply elem_of_app in Hx as [Hx|Hx].
        -- exists x. split; [set_solver|done].
        -- exists c. split; [set_solver|].
           apply elem_of_depends_on_of in Hx. by eapply rtc_l.
Qed.

(** An answer [false] means [taskId] is out of reach of everything the
    traversal has seen. *)
Lemma bfs_false_unreachable fuel deps taskId visited queue :
  bfs fuel deps taskId visited queue = Some false →
  taskId ∉ visited →
  (∀ v u, v ∈ visited → edge deps v u → u ∈ visited ∨ u ∈ queue) →
  ∀ x y, x ∈ visited ∨ x ∈ queue → reaches deps x y → y ≠ taskId.
Proof.
  revert visited queue.
  induction fuel as [|fuel IH]; intros visited queue.
  - destruct queue as [|c q]; simpl; [|discriminate].
    intros _ Ht Hclosed x y Hx Hr.
    assert (y ∈ visited); [|set_solver].
    destruct Hx as [Hx|Hx]; [|set_solver].
    induction Hr as [|a b c' Hab Hbc IHr]; [done|].
    apply IHr. destruct (Hclosed a b Hx Hab); set_solver.
  - destruct queue as [|c q]; simpl.
    + intros _ Ht Hclosed x y Hx Hr.
      assert (y ∈ visited); [|set_solver].
      destruct Hx as [Hx|Hx]; [|set_solver].
      induction Hr as [|a b c' Hab Hbc IHr]; [done|].
      apply IHr. destruct (Hclosed a b Hx Hab); set_solver.
    + destruct (String.eqb_spec c taskId) as [->|Hne]; [discriminate|].
      destruct (decide (c ∈ visited)) as [Hin|Hnin].
      * rewrite bool_decide_eq_true_2 by done.
        intros H Ht Hclosed x y Hx Hr.
        eapply (IH _ _ H Ht); [| |exact Hr].
        -- intros v u Hv Hvu. destruct (Hclosed v u Hv Hvu) as [|Hu]; [by left|].
           apply elem_of_cons in Hu as [->|Hu]; [by left|by right].
        -- destruct Hx as [Hx|Hx]; [by left|].
           apply elem_of_cons in Hx as [->|Hx]; [by left|by right].
      * rewrite bool_decide_eq_false_2 by done.
        intros H Ht Hclosed x y Hx Hr.
        eapply (IH _ _ H); [set_solver| | |exact Hr].
        -- intros v u Hv Hvu. apply elem_of_union in Hv as [Hv|Hv].
           ++ apply elem_of_singleton in Hv as ->. right.
              apply elem_of_app. right. by apply elem_of_depends_on_of.
           ++ destruct (Hclosed v u Hv Hvu) as [|Hu]; [left; set_solver|].
              apply elem_of_cons in Hu as [->|Hu]; [left; set_solver|].
              right. set_solver.
        -- destruct Hx as [Hx|Hx]; [left; set_solver|].
           apply elem_of_cons in Hx as [->|Hx]; [left; set_solver|].
           right. set_solver.
Qed.

(** [wouldCreateCycle] decides whether [dependsOn] reaches [taskId]. *)
Lemma wouldCreateCycle_spec deps taskId dependsOn :
  ∃ b, bfs (S (length deps)) deps taskId ∅ [dependsOn] = Some b
       ∧ (b = true ↔ reaches deps dependsOn taskId).
Proof.
  destruct (bfs_total deps taskId dependsOn) as [b Hb].
  exists b. split; [done|]. destruct b.
  - split; [intros _|done].
    apply bfs_true_reaches in Hb as (x & Hx & Hr).
    apply list_elem_of_singleton in Hx as ->. done.
  - split; [done|]. intros Hr. exfalso.
    eapply (bfs_false_unreachable _ _ _ _ _ Hb); [set_solver|set_solver| |exact Hr|done].
    right. set_solver.
Qed.

(** A path through the graph with one more edge either avoids the new edge
    or runs into its source and leaves from its target. *)
Lemma path_new_edge deps t d a b :
  path (deps ++ [(t, d)]) a b →
  path deps a b ∨ (reaches deps a t ∧ reaches deps d b).
Proof.
  assert (Hedge : ∀ x y, edge (deps ++ [(t, d)]) x y →
                         edge deps x y ∨ (x = t ∧ y = d)).
  { unfold edge. intros x y H. apply elem_of_app in H as [H|H]; [by left|].
    apply list_elem_of_singleton in H. injection H as -> ->. by right. }
  unfold path, reaches. induction 1 as [x y Hxy|x y z Hxy Hyz IH].
  - destruct (Hedge _ _ Hxy) as [H|[-> ->]].
    + left. by apply tc_once.
    + right. split; apply rtc_refl.
  - destruct (Hedge _ _ Hxy) as [H|[-> ->]].
    + destruct IH as [IH|[IH1 IH2]].
      * left. by eapply tc_l.
      * right. split; [by eapply rtc_l|done].
    + right. split; [apply rtc_refl|].
      destruct IH as [IH|[IH1 IH2]]; [by apply tc_rtc|done].
Qed.

Lemma acyclic_new_edge deps t d :
  acyclic deps → ¬ reaches deps d t → acyclic (deps ++ [(t, d)]).
Proof.
  intros Hac Hnr x Hx.
  apply path_new_edge in Hx as [Hx|[H1 H2]].
  - by apply (Hac x).
  - apply Hnr. unfold reaches in *. by etrans.
Qed.

(** [addDependency] in closed form. *)
Lemma addDependency_run w t d :
  addDependency t d w =
  if is_null (select_task t w) then (inl (TaskNotFoundError t), w)
  else if is_null (select_task d w) then (inl (TaskNotFoundError d), w)
  else match bfs (S (length (task_dependencies w))) (task_dependencies w) t ∅ [d] with
       | Some true => (inl (DependencyCycleError t d), w)
       | Some false =>
           (inr tt,
            set_task_dependencies (fun rows =>
              if bool_decide ((t, d) ∈ rows) || String.eqb t d
              then rows else rows ++ [(t, d)]) w)
       | None => (inr tt, w)
       end.
Proof.
  unfold addDependency, wouldCreateCycle, getTask.
  repeat unfold mbind, M_bind, bind, gets.
  destruct (select_task t w); [|reflexivity]. cbn [is_null].
  destruct (select_task d w); [|reflexivity]. cbn [is_null].
  destruct (bfs _ _ _ _ _) as [[]|]; reflexivity.
Qed.

Lemma addDependency_keeps_acyclic w t d :
  acyclic (task_dependencies w) →
  acyclic (task_dependencies (snd (addDependency t d w))).
Proof.
  intros Hac. rewrite addDependency_run.
  destruct (is_null (select_task t w)); [done|].
  destruct (is_null (select_task d w)); [done|].
  destruct (wouldCreateCycle_spec (task_dependencies w) t d) as (b & -> & Hb).
  destruct b; [done|]. simpl.
  destruct (bool_decide _ || _); [done|].
  apply acyclic_new_edge; [done|]. intros Hr. by apply Hb in Hr.
Qed.

(** C4.  [addDependency] never produces a cycle: a run of calls that starts
    from an acyclic edge set leaves an acyclic edge set, and the check
    always ends.  Between two existing tasks, an edge whose target reaches
    its source (it would close a cycle) is refused with
    DependencyCycleError naming both endpoints and the table stays as it
    was, and every other edge is inserted; [addDependency(x, x)] always
    fails. *)
Theorem addDependency_never_cycles :
  (∀ w calls, acyclic (task_dependencies w) →
              acyclic (task_dependencies (addDependencies calls w)))
  ∧ (∀ w t d, ∃ b, wouldCreateCycle t d w = (inr (Some b), w)
                   ∧ (b = true ↔ reaches (task_dependencies w) d t))
  ∧ (∀ w t d ta tb,
       select_task t w = Some ta → select_task d w = Some tb →
       (reaches (task_dependencies w) d t →
          addDependency t d w = (inl (DependencyCycleError t d), w))
       ∧ (¬ reaches (task_dependencies w) d t →
          ∃ w', addDependency t d w = (inr tt, w')
                ∧ edge (task_dependencies w') t d
                ∧ ∀ x y, edge (task_dependencies w') x y
                         ↔ edge (task_dependencies w) x y ∨ (x = t ∧ y = d)))
  ∧ (∀ w x, ∃ e, addDependency x x w = (inl e, w)
                 ∧ (e = TaskNotFoundError x ∨ e = DependencyCycleError x x)).
Proof.
  split; [|split; [|split]].
  - intros w calls. revert w.
    induction calls as [|[t d] calls IH]; intros w Hac; simpl; [done|].
    apply IH. by apply addDependency_keeps_acyclic.
  - intros w t d. unfold wouldCreateCycle, gets.
    destruct (wouldCreateCycle_spec (task_dependencies w) t d) as (b & Hb & Hspec).
    exists b. by rewrite Hb.
  - intros w t d ta tb Ha Hb.
    destruct (wouldCreateCycle_spec (task_dependencies w) t d) as (b & Hbfs & Hspec).
    split.
    + intros Hr. rewrite addDependency_run, Ha, Hb, Hbfs. cbn [is_null].
      apply Hspec in Hr as ->. reflexivity.
    + intros Hnr. rewrite addDependency_run, Ha, Hb, Hbfs. cbn [is_null].
      destruct b; [exfalso; by apply Hnr, Hspec|].
      eexists. split; [reflexivity|]. simpl.
      assert (t ≠ d) as Hne by (intros ->; apply Hnr, rtc_refl).
      destruct (String.eqb_spec t d); [done|]. rewrite orb_false_r.
      unfold edge. destruct (decide ((t, d) ∈ task_dependencies w)) as [Hin|Hnin].
      * rewrite bool_decide_eq_true_2 by done. split; [done|].
        intros x y. split; [by left|]. intros [H|[-> ->]]; done.
      * rewrite bool_decide_eq_false_2 by done. split; [set_solver|].
        intros x y. rewrite elem_of_app, list_elem_of_singleton.
        split; (intros [H|H]; [by left|right]); [by injection H|].
        by destruct H as [-> ->].
  - intros w x. rewrite addDependency_run.
    destruct (select_task x w) eqn:Hx; cbn [is_null].
    + destruct (wouldCreateCycle_spec (task_dependencies w) x x) as (b & -> & Hspec).
      assert (b = true) as -> by (apply Hspec, rtc_refl).
      eexists. split; [reflexivity|by right].
    + eexists. split; [reflexivity|by left].
Qed.

(** C4 at work: scenario 3 of the specification. *)
Lemma addDependency_never_cycles_witness :
  acyclic (task_dependencies
             (addDependencies [("B", "A"); ("C", "B"); ("A", "C"); ("A", "A")]
                (set_task_dependencies (fun _ => []) chain_world)))
  ∧ addDependency "A" "C" chain_world
    = (inl (DependencyCycleError "A" "C"), chain_world).
Proof.
  destruct addDependency_never_cycles as (Hseq & _ & Hone & _).
  split.
  - apply Hseq. intros x Hx. simpl in Hx.
    inversion Hx as [? ? He|? ? ? He _]; unfold edge in He; by apply elem_of_nil in He.
  - destruct (Hone chain_world "A" "C" (sample_task "A" 1 100 medium)
                (sample_task "C" 1 300 medium)) as (Hcyc & _);
      [reflexivity|reflexivity|].
    apply Hcyc. simpl.
    apply (rtc_l _ _ "B"); [unfold edge; set_solver|].
    apply (rtc_l _ _ "A"); [unfold edge; set_solver|].
    apply rtc_refl.
Defined.

(* ===================================================================== *)
(** ** listTasks *)
(* ===================================================================== *)

#[local] Instance task_order_total : Total task_order.
Proof. intros a b. unfold task_order. lia. Qed.

#[local] Instance task_order_trans : Transitive task_order.
Proof. intros a b c. unfold task_order. lia. Qed.

Lemma filter_map_ext {A} (P Q : A → bool) (g : A → A) (l : list A) :
  (∀ x, P (g x) = Q x) → List.filter P (map g l) = map g (List.filter Q l).
Proof.
  intros H. induction l as [|x l IH]; simpl; [done|].
  rewrite H. destruct (Q x); simpl; by rewrite IH.
Qed.

(** Clearing a lease does not move a row in or out of a filter. *)
Lemma matches_unlock w w' f cond t :
  task_tags w' = task_tags w →
  matches w' f (row_update [set_locked_by None; set_locked_at None] cond t)
  = matches w f t.
Proof.
  intros Htags. unfold row_update, matches. rewrite Htags.
  destruct (cond t); [|done]. by destruct t.
Qed.

Lemma clearExpiredLocks_run w :
  clearExpiredLocks w
  = (inr tt,
     set_tasks (map (row_update [set_locked_by None; set_locked_at None]
                       (fun t => negb (is_null (locked_at t))
                                 && sql_lt (locked_at t)
                                      (clock w (ticks w) - expiryMs))))
               (set_ticks (S (ticks w)) w)).
Proof.
  unfold clearExpiredLocks, lockExpiryCutoff.
  repeat unfold mbind, M_bind, bind, Date_now, ret.
  cbn [fst snd]. rewrite sql_update_nofk by reflexivity. reflexivity.
Qed.

Lemma listTasks_run f w :
  listTasks f w
  = (inr (sql_limit_offset (limitVal f) (offsetVal f)
            (merge_sort task_order (matching f (swept w)))),
     swept w).
Proof.
  unfold listTasks, swept. step_bind.
  rewrite clearExpiredLocks_run. reflexivity.
Qed.





(* ===================================================================== *)
(** ** The push pass *)
(* ===================================================================== *)

Lemma handled_ok st : handled (push_ok st) = S (handled st).
Proof. reflexivity. Qed.

Lemma handled_error st msg : handled (push_error st msg) = S (handled st).
Proof. unfold handled. simpl. rewrite length_app. simpl. lia. Qed.

(** Whatever branch it takes, the body for a mirrored task ends by counting
    the task once, as pushed or as an error. *)
Lemma push_existing_counted pref task existing st w st' w' :
  push_existing pref task existing st w = (inr st', w') →
  handled st' = S (handled st) ∧ hwm st' = hwm st
  ∧ prefixCounter st' = prefixCounter st.
Proof.
  unfold push_existing.
  destruct (conflict_detected _ _ _ && bool_decide (pref = prefer_remote)).
  - repeat unfold mbind, M_bind, bind, Date_now, ret. cbn [fst snd].
    destruct (updateTask _ _ _) as [[e|r] w1]; [discriminate|].
    intros [= <- <-]. rewrite handled_error. done.
  - step_bind.
    destruct (writeClaudeTask _ w) as [[e|[]] w1]; [discriminate|].
    step_bind.
    match goal with
    | |- context [(if ?c then ?a else ?b) w1] =>
        destruct ((if c then a else b) w1) as [[e|[]] w2]; [discriminate|]
    end.
    intros [= <- <-]. rewrite handled_ok. done.
Qed.

Lemma push_new_counted cfg task st w :
  ∃ st' w', push_new cfg task st w = (inr st', w')
            ∧ handled st' = S (handled st).
Proof.
  unfold push_new, try_catch.
  match goal with
  | |- context [match ?m w with _ => _ end] =>
      destruct (m w) as [[e|st1] w1] eqn:Hm
  end.
  - eexists _, _. split; [reflexivity|]. by rewrite handled_error.
  - eexists _, _. split; [reflexivity|].
    revert Hm. step_bind.
    destruct (writeClaudeTask _ w) as [[e|[]] w2]; [discriminate|].
    step_bind; unfold getTask at 1, gets at 1.
    step_bind.
    match goal with
    | |- context [match ?o with Some _ => _ | None => _ end w2] =>
        destruct ((match o with Some c => _ | None => ret tt end) w2)
          as [[e|[]] w3]; [discriminate|]
    end.
    intros [= <- <-]. by rewrite handled_ok.
Qed.

(** One iteration never throws and counts its task once. *)
Lemma push_task_counted pref cfg index st task w :
  ∃ st' w', push_task pref cfg index st task w = (inr st', w')
            ∧ handled st' = S (handled st).
Proof.
  unfold push_task. destruct (index !! id task) as [existing|].
  - unfold try_catch.
    destruct (push_existing pref task existing st w) as [[e|st'] w'] eqn:Hp.
    + eexists _, _. split; [reflexivity|]. by rewrite handled_error.
    + eexists _, _. split; [reflexivity|].
      by apply push_existing_counted in Hp as [? _].
  - apply push_new_counted.
Qed.

Lemma push_loop_counted pref cfg index rows st w :
  ∃ st' w', for_each (push_task pref cfg index) st rows w = (inr st', w')
            ∧ handled st' = (handled st + length rows)%nat.
Proof.
  revert st w. induction rows as [|task rows IH]; intros st w; simpl.
  - eexists _, _. split; [reflexivity|]. lia.
  - unfold mbind, M_bind, bind.
    destruct (push_task_counted pref cfg index st task w) as (st1 & w1 & -> & H1).
    destruct (IH st1 w1) as (st2 & w2 & -> & H2).
    eexists _, _. split; [reflexivity|]. lia.
Qed.

Lemma writeClaudeTask_run ct w d :
  mirror w = Some d →
  writeClaudeTask ct w
  = (inr tt,
     set_mirror (Some (mkDir (<[Claude.id ct := mkFile (Some ct) (clock w (ticks w))]>
                                (files d))
                             (highwatermark d) (prefix_counter d)))
                (set_ticks (S (ticks w)) w)).
Proof.
  intros Hm. unfold writeClaudeTask, with_dir.
  repeat unfold mbind, M_bind, bind, Date_now. cbn [fst snd mirror set_ticks].
  by rewrite Hm.
Qed.



Lemma with_dir_present f w d :
  mirror w = Some d → with_dir f w = (inr tt, set_mirror (Some (f d)) w).
Proof. intros Hm. unfold with_dir. by rewrite Hm. Qed.


Lemma swept_frame w :
  mirror (swept w) = mirror w ∧ task_prefix (swept w) = task_prefix w.
Proof. unfold swept. rewrite clearExpiredLocks_run. done. Qed.

Lemma listTasks_project projectId w :
  listTasks (project_filter projectId) w = (inr (listed projectId w), swept w).
Proof. rewrite listTasks_run. reflexivity. Qed.


(** The push pass handles at most 100 tasks: it inherits the default limit
    of [listTasks]. *)
Lemma push_handles_listed projectId options w r w' :
  pushToClaudeTaskList projectId options w = (inr r, w') →
  (pushed r + length (errors r))%nat = length (listed projectId (snd (ensureDir w)))
  ∧ pulled r = 0%nat.
Proof.
  unfold pushToClaudeTaskList.
  step_bind.
  destruct (ensureDir w) as [[e|[]] w0] eqn:He; [discriminate|]. cbn [snd].
  step_bind.
  rewrite listTasks_project.
  step_bind; unfold gets at 1.
  step_bind; unfold gets at 1.
  step_bind.
  match goal with
  | |- context [for_each ?b ?s ?l ?x] =>
      destruct (push_loop_counted (default prefer_remote options)
                  (task_prefix (swept w0))
                  (existingByTodosId (default (mkDir ∅ None None) (mirror (swept w0))))
                  l s x) as (st' & w2 & Hloop & Hcount)
  end.
  rewrite Hloop.
  step_bind.
  destruct (writeHighWaterMark _ w2) as [[e|[]] w3]; [discriminate|].
  step_bind.
  match goal with
  | |- context [(if ?c then ?a else ?b) w3] =>
      destruct ((if c then a else b) w3) as [[e|[]] w4]; [discriminate|]
  end.
  intros [= <- <-]. cbn [pushed pulled errors].
  unfold handled in Hcount. simpl in Hcount. split; [lia|done].
Qed.



(* ===================================================================== *)
(** ** The conflict log *)
(* ===================================================================== *)



Lemma select_task_same_tasks i w w' :
  tasks w' = tasks w → select_task i w' = select_task i w.
Proof. intros H. unfold select_task. by rewrite H. Qed.

(** Storing new metadata on a row at its current version succeeds. *)
Lemma updateTask_metadata w task m :
  select_task (id task) w = Some task →
  ∃ w' new,
    updateTask (id task) (Input.version_metadata (version task) m) w
    = (inr (Some new), w')
    ∧ select_task (id task) w' = Some new
    ∧ metadata new = m
    ∧ mirror w' = mirror w.
Proof.
  intros Hsel. rewrite updateTask_run, Hsel.
  cbn [Input.version Input.version_metadata]. rewrite Z.eqb_refl. cbn [negb].
  change (refs_exist w (Input.mk None None None None None None None None (Some m)
                          (version task))) with true. cbv iota.
  eexists _, _. split; [reflexivity|].
  split; [by apply select_after_update|]. done.
Qed.




(* --------------------------------------------------------------------- *)
(** *** The whole pass *)
(* --------------------------------------------------------------------- *)

(** Effects that leave every row but row [i] alone, and keep the mirror
    directory in place, compose. *)
Section Frames.
Context (i : string).











End Frames.


Lemma select_unique l (t : Task) :
  NoDup (map id l) → In t l →
  List.find (λ r, String.eqb (id r) (id t)) l = Some t.
Proof.
  induction l as [|r l IH]; simpl; [done|].
  intros Hnd [->|Hin].
  - by rewrite String.eqb_refl.
  - apply NoDup_cons in Hnd as [Hr Hnd].
    destruct (String.eqb_spec (id r) (id t)) as [E|_]; [|by apply IH].
    exfalso. apply Hr. rewrite E. apply list_elem_of_In, in_map, Hin.
Qed.

Lemma map_id_row_update sets cond l :
  map id (map (row_update sets cond) l) = map id l.
Proof.
  rewrite map_map. apply map_ext. intros t. apply row_update_id.
Qed.

Lemma pk_unique_swept w : pk_unique w → pk_unique (swept w).
Proof.
  unfold pk_unique, swept. rewrite clearExpiredLocks_run.
  cbn [snd tasks set_tasks set_ticks]. by rewrite map_id_row_update.
Qed.

Lemma filter_sublist {A} (f : A → bool) (l : list A) :
  List.filter f l `sublist_of` l.
Proof.
  induction l as [|x l IH]; simpl; [done|].
  destruct (f x); [by apply sublist_skip|by apply sublist_cons].
Qed.

Lemma sql_limit_offset_sublist {A} lim off (l : list A) :
  sql_limit_offset lim off l `sublist_of` l.
Proof.
  unfold sql_limit_offset. destruct (lim <? 0); [apply sublist_drop|].
  etrans; [apply sublist_take|apply sublist_drop].
Qed.

Lemma map_sublist {A B} (f : A → B) (l k : list A) :
  l `sublist_of` k → map f l `sublist_of` map f k.
Proof.
  induction 1; simpl; [done|by apply sublist_skip|by apply sublist_cons].
Qed.

(** The listed rows are stored rows, one per id. *)
Lemma listed_stored projectId w :
  pk_unique w →
  NoDup (map id (listed projectId w))
  ∧ ∀ t, t ∈ listed projectId w → select_task (id t) (swept w) = Some t.
Proof.
  intros Hpk. apply pk_unique_swept in Hpk. unfold pk_unique in Hpk.
  set (matched := matching (project_filter projectId) (swept w)).
  assert (Hm : NoDup (map id matched)).
  { eapply sublist_NoDup; [exact Hpk|]. apply map_sublist, filter_sublist. }
  assert (Hs : NoDup (map id (merge_sort task_order matched))).
  { assert (map id (merge_sort task_order matched) ≡ₚ map id matched) as Hperm
      by apply Permutation_map, merge_sort_Permutation.
    by rewrite Hperm. }
  split.
  - eapply sublist_NoDup; [exact Hs|].
    apply map_sublist, sql_limit_offset_sublist.
  - intros t Ht. apply select_unique; [exact Hpk|].
    assert (t ∈ merge_sort task_order matched) as Hin
      by (eapply elem_of_sublist; [exact Ht|apply sql_limit_offset_sublist]).
    rewrite merge_sort_Permutation in Hin.
    apply list_elem_of_In in Hin. by apply filter_In in Hin as [Hin _].
Qed.




(* ===================================================================== *)
(** ** Pushing again *)
(* ===================================================================== *)



(* ===================================================================== *)
(** ** startTask and unlockTask *)
(* ===================================================================== *)

Lemma select_none_filter i (cond : Task → bool) w :
  select_task i w = None →
  (∀ t, cond t = true → id t = i) →
  List.filter cond (tasks w) = [].
Proof.
  unfold select_task. intros Hn Hc.
  induction (tasks w) as [|r l IH]; [done|].
  simpl in *. destruct (String.eqb_spec (id r) i) as [E|E]; [done|].
  destruct (cond r) eqn:Hr; [by apply Hc in Hr|by apply IH].
Qed.

Lemma lock_where_id i agentId cutoff t :
  lock_where i agentId cutoff t = true → id t = i.
Proof.
  unfold lock_where. intros [H _]%andb_true_iff. by apply String.eqb_eq.
Qed.

Lemma filter_unique_nohit (cond : Task → bool) w t :
  pk_unique w → select_task (id t) w = Some t →
  (∀ r, cond r = true → id r = id t) →
  cond t = false →
  List.filter cond (tasks w) = [].
Proof.
  unfold pk_unique, select_task. intros Hnd Hsel Hc Hf.
  induction (tasks w) as [|r l IH]; [done|].
  simpl in *. apply NoDup_cons in Hnd as [Hr Hnd].
  destruct (String.eqb_spec (id r) (id t)) as [E|E].
  - injection Hsel as ->. rewrite Hf.
    clear IH. induction l as [|r l IH]; [done|]. simpl.
    apply not_elem_of_cons in Hr as [Hne Hr].
    apply NoDup_cons in Hnd as [_ Hnd].
    destruct (cond r) eqn:Hcr; [by apply Hc in Hcr|by apply IH].
  - destruct (cond r) eqn:Hcr; [by apply Hc in Hcr|by apply IH].
Qed.

(** [startTask] in closed form. *)
Lemma startTask_run w i agentId :
  startTask i agentId w =
  let n := ticks w in
  let cutoff := clock w n - expiryMs in
  let ts := clock w (S n) in
  let w2 := set_tasks (map (row_update (start_sets agentId ts)
                                       (lock_where i agentId cutoff)))
                      (set_ticks (S (S n)) w) in
  if bool_decide (List.filter (lock_where i agentId cutoff) (tasks w) = [])
  then
    match select_task i w with
    | None => (inl (TaskNotFoundError i), w2)
    | Some current =>
        if truthy_ostring (locked_by current)
           && negb (bool_decide (locked_by current = Some agentId))
        then match locked_at current with
             | Some t =>
                 if expired_at w (S (S n)) t
                 then (inr (Some current), set_ticks (S (S (S n))) w2)
                 else (inl (LockError i (default "" (locked_by current))),
                       set_ticks (S (S (S n))) w2)
             | None => (inr (Some current), w2)
             end
        else (inr (Some current), w2)
    end
  else (inr (select_task i w2), w2).
Proof.
  unfold startTask, lockExpiryCutoff, now.
  repeat unfold mbind, M_bind, bind, Date_now, ret.
  cbn [fst snd ticks clock set_ticks].
  rewrite sql_update_nofk by reflexivity.
  cbn [tasks set_ticks]. rewrite length_zero_decide. cbv zeta.
  destruct (bool_decide (List.filter _ (tasks w) = [])) eqn:Hhit; [|reflexivity].
  apply bool_decide_eq_true in Hhit.
  unfold getTask, gets.
  rewrite !select_set_tasks_nohit by exact Hhit.
  change (select_task i (set_ticks _ _)) with (select_task i w).
  destruct (select_task i w) as [current|] eqn:Hsel; [|reflexivity].
  destruct (truthy_ostring (locked_by current)
            && negb (bool_decide (locked_by current = Some agentId))).
  - destruct (locked_at current) as [t|]; cbn [isLockExpired].
    + repeat unfold mbind, M_bind, bind, Date_now, ret. unfold expired_at.
      cbn [fst snd ticks clock set_ticks set_tasks].
      destruct (expiryMs <? _); cbn [negb]; [|reflexivity].
      unfold throw.
      rewrite select_task_same_tasks with (w := w) by
        (cbn [tasks set_tasks set_ticks]; by apply map_row_update_nohit).
      by rewrite Hsel.
    + unfold ret. cbn [negb].
      rewrite select_task_same_tasks with (w := w) by
        (cbn [tasks set_tasks set_ticks]; by apply map_row_update_nohit).
      by rewrite Hsel.
  - unfold ret.
    rewrite select_task_same_tasks with (w := w) by
      (cbn [tasks set_tasks set_ticks]; by apply map_row_update_nohit).
    by rewrite Hsel.
Qed.

Lemma row_update_hit sets cond t :
  cond t = true → row_update sets cond t = apply_sets sets t.
Proof. intros H. unfold row_update. by rewrite H. Qed.

Lemma row_update_miss sets cond t :
  cond t = false → row_update sets cond t = t.
Proof. intros H. unfold row_update. by rewrite H. Qed.

Lemma select_row_update i sets cond w0 w :
  tasks w0 = tasks w →
  select_task i (set_tasks (map (row_update sets cond)) w0)
  = row_update sets cond <$> select_task i w.
Proof.
  intros Hf. unfold select_task. cbn [tasks set_tasks]. rewrite Hf.
  apply find_id_map. intros. apply row_update_id.
Qed.

Lemma select_other_row_update i j sets cond w0 w :
  tasks w0 = tasks w →
  (∀ t, cond t = true → id t = i) → j ≠ i →
  select_task j (set_tasks (map (row_update sets cond)) w0) = select_task j w.
Proof.
  intros Hf Hc Hne. rewrite (select_row_update _ _ _ _ w) by done.
  destruct (select_task j w) as [t|] eqn:Hsel; [|done].
  cbn [fmap option_fmap option_map]. f_equal. unfold row_update.
  destruct (cond t) eqn:Hct; [|done].
  apply Hc in Hct. apply select_task_id in Hsel. congruence.
Qed.

Lemma started_row_fields agentId ts task :
  status (started_row agentId ts task) = in_progress
  ∧ assigned_to (started_row agentId ts task) = Some agentId
  ∧ locked_by (started_row agentId ts task) = Some agentId
  ∧ locked_at (started_row agentId ts task) = Some ts
  ∧ updated_at (started_row agentId ts task) = ts
  ∧ version (started_row agentId ts task) = version task + 1
  ∧ id (started_row agentId ts task) = id task
  ∧ title (started_row agentId ts task) = title task
  ∧ description (started_row agentId ts task) = description task
  ∧ priority (started_row agentId ts task) = priority task
  ∧ tags (started_row agentId ts task) = tags task
  ∧ metadata (started_row agentId ts task) = metadata task
  ∧ created_at (started_row agentId ts task) = created_at task
  ∧ completed_at (started_row agentId ts task) = completed_at task.
Proof. destruct task; repeat split; reflexivity. Qed.

Lemma lock_where_free i agentId cutoff task :
  id task = i →
  locked_by task = None ∨ locked_by task = Some agentId
  ∨ (∃ t, locked_at task = Some t ∧ t < cutoff) →
  lock_where i agentId cutoff task = true.
Proof.
  intros Hid Hcase. unfold lock_where. rewrite Hid, String.eqb_refl. simpl.
  destruct Hcase as [-> | [-> | (t & -> & Hexp)]]; simpl.
  - done.
  - by rewrite String.eqb_refl.
  - assert ((t <? cutoff) = true) as -> by (apply Z.ltb_lt; lia).
    by rewrite orb_true_r.
Qed.

Lemma lock_where_held i agentId cutoff task owner :
  locked_by task = Some owner → owner ≠ agentId →
  (∀ t, locked_at task = Some t → cutoff <= t) →
  lock_where i agentId cutoff task = false.
Proof.
  intros Hlb Hne Hla. unfold lock_where. rewrite Hlb. simpl.
  destruct (String.eqb_spec owner agentId) as [E|_]; [done|]. simpl.
  destruct (locked_at task) as [t|]; simpl; [|apply andb_false_r].
  assert ((t <? cutoff) = false) as ->; [|apply andb_false_r].
  apply Z.ltb_ge. by apply Hla.
Qed.

(** X1.  On a task that is free, or held by the caller, or held under a lease
    older than 30 minutes at the first reading of the clock, [startTask]
    puts the task in progress for the caller: status, assignee and lease are
    set, the lease and [updated_at] carry the second reading, the version
    goes up by one, and nothing else of the row or of any other row
    changes.  A task that was completed is put back in progress with its
    [completed_at] left in place. *)
Theorem startTask_starts (w : World) (i agentId : string) (task : Task) :
  select_task i w = Some task →
  (locked_by task = None ∨ locked_by task = Some agentId
   ∨ (∃ t, locked_at task = Some t ∧ expiryMs < clock w (ticks w) - t)) →
  ∃ new w',
    startTask i agentId w = (inr (Some new), w')
    ∧ select_task i w' = Some new
    ∧ status new = in_progress
    ∧ assigned_to new = Some agentId
    ∧ locked_by new = Some agentId
    ∧ locked_at new = Some (clock w (S (ticks w)))
    ∧ updated_at new = clock w (S (ticks w))
    ∧ version new = version task + 1
    ∧ title new = title task ∧ description new = description task
    ∧ priority new = priority task ∧ tags new = tags task
    ∧ metadata new = metadata task ∧ created_at new = created_at task
    ∧ completed_at new = completed_at task
    ∧ ∀ j, j ≠ i → select_task j w' = select_task j w.
Proof.
  intros Hsel Hcase.
  assert (Hid := select_task_id _ _ _ Hsel).
  assert (Hc : lock_where i agentId (clock w (ticks w) - expiryMs) task = true).
  { apply lock_where_free; [done|].
    destruct Hcase as [?|[?|(t & ? & ?)]]; [by left|by right; left|].
    right; right. exists t. split; [done|lia]. }
  rewrite startTask_run. cbv zeta.
  rewrite bool_decide_eq_false_2
    by (eapply find_filter_nonempty; [exact Hsel|exact Hc]).
  rewrite (select_row_update _ _ _ _ w) by reflexivity. rewrite Hsel.
  cbn [fmap option_fmap option_map]. rewrite row_update_hit by done.
  fold (started_row agentId (clock w (S (ticks w))) task).
  destruct (started_row_fields agentId (clock w (S (ticks w))) task)
    as (?&?&?&?&?&?&?&?&?&?&?&?&?&?).
  eexists _, _. split; [reflexivity|].
  split.
  { rewrite (select_row_update _ _ _ _ w) by reflexivity. rewrite Hsel.
    cbn [fmap option_fmap option_map]. by rewrite row_update_hit. }
  do 13 (split; [done|]).
  intros j Hj. apply (select_other_row_update i); [done| |done].
  intros t. apply lock_where_id.
Qed.

Lemma startTask_starts_witness :
  ∃ new w',
    startTask "a" "codex" (held_world (10000000 - 1860000)) = (inr (Some new), w')
    ∧ locked_by new = Some "codex" ∧ status new = in_progress
    ∧ version new = 3.
Proof.
  destruct (startTask_starts (held_world (10000000 - 1860000)) "a" "codex"
              (held_task "a" "claude" (10000000 - 1860000)) eq_refl)
    as (new & w' & Hr & _ & Hst & _ & Hlb & _ & _ & Hv & _).
  { right; right. eexists. split; [reflexivity|]. vm_compute. reflexivity. }
  exists new, w'. split; [exact Hr|]. split; [exact Hlb|]. split; [exact Hst|].
  exact Hv.
Defined.

(** X2.  [startTask] never takes over a live lease: on a store with unique ids,
    a task held by another agent under a lease that is not older than 30
    minutes at the first and at the third reading of the clock makes the
    call throw [LockError] naming the holder, and no row changes.  A task
    that does not exist makes it throw [TaskNotFoundError]. *)
Theorem startTask_refuses_live_lease (w : World) (i agentId : string) :
  (select_task i w = None →
     ∃ w', startTask i agentId w = (inl (TaskNotFoundError i), w')
           ∧ tasks w' = tasks w)
  ∧ ∀ task owner t,
      pk_unique w →
      select_task i w = Some task →
      locked_by task = Some owner → owner ≠ "" → owner ≠ agentId →
      locked_at task = Some t →
      clock w (ticks w) - t <= expiryMs →
      clock w (S (S (ticks w))) - t <= expiryMs →
      ∃ w', startTask i agentId w = (inl (LockError i owner), w')
            ∧ tasks w' = tasks w.
Proof.
  split.
  - intros Hsel. rewrite startTask_run. cbv zeta.
    assert (Hhit : List.filter (lock_where i agentId (clock w (ticks w) - expiryMs))
                     (tasks w) = []).
    { apply (select_none_filter i); [done|]. intros t. apply lock_where_id. }
    rewrite bool_decide_eq_true_2 by done. rewrite Hsel.
    eexists. split; [reflexivity|].
    cbn [tasks set_tasks set_ticks]. by apply map_row_update_nohit.
  - intros task owner t Hpk Hsel Hlb Hown Hne Hla Hfirst Hthird.
    assert (Hid := select_task_id _ _ _ Hsel).
    assert (Hhit : List.filter (lock_where i agentId (clock w (ticks w) - expiryMs))
                     (tasks w) = []).
    { apply (filter_unique_nohit _ w task); [done|by rewrite Hid| |].
      - intros r Hr. rewrite Hid. by eapply lock_where_id.
      - eapply lock_where_held; [done|done|].
        intros t' Ht'. rewrite Hla in Ht'. injection Ht' as <-. lia. }
    rewrite startTask_run. cbv zeta.
    rewrite bool_decide_eq_true_2 by done. rewrite Hsel, Hlb, Hla.
    cbn [truthy_ostring default]. unfold truthy_string.
    destruct (String.eqb_spec owner "") as [E|_]; [done|]. cbn [negb andb].
    rewrite bool_decide_eq_false_2 by congruence. cbn [negb].
    unfold expired_at.
    assert ((expiryMs <? clock w (S (S (ticks w))) - t) = false) as ->
      by (apply Z.ltb_ge; lia).
    eexists. split; [reflexivity|].
    cbn [tasks set_tasks set_ticks]. by apply map_row_update_nohit.
Qed.

Lemma startTask_refuses_live_lease_witness :
  ∃ w', startTask "a" "codex" (held_world 9999000) = (inl (LockError "a" "claude"), w')
        ∧ tasks w' = tasks (held_world 9999000).
Proof.
  apply (proj2 (startTask_refuses_live_lease (held_world 9999000) "a" "codex")
           (held_task "a" "claude" 9999000) "claude" 9999000).
  - unfold pk_unique. vm_compute. apply NoDup_singleton.
  - reflexivity.
  - reflexivity.
  - discriminate.
  - discriminate.
  - reflexivity.
  - vm_compute. discriminate.
  - vm_compute. discriminate.
Defined.





Lemma unlocked_row_fields ts task :
  locked_by (unlocked_row ts task) = None
  ∧ locked_at (unlocked_row ts task) = None
  ∧ version (unlocked_row ts task) = version task + 1
  ∧ updated_at (unlocked_row ts task) = ts
  ∧ status (unlocked_row ts task) = status task
  ∧ assigned_to (unlocked_row ts task) = assigned_to task
  ∧ title (unlocked_row ts task) = title task
  ∧ metadata (unlocked_row ts task) = metadata task
  ∧ completed_at (unlocked_row ts task) = completed_at task.
Proof. destruct task; repeat split; reflexivity. Qed.

(** [unlockTask] in closed form. *)
Lemma unlockTask_run w i agentId :
  unlockTask i agentId w =
  match select_task i w with
  | None => (inl (TaskNotFoundError i), w)
  | Some task =>
      if truthy_ostring agentId && truthy_ostring (locked_by task)
         && negb (bool_decide (locked_by task = agentId))
      then (inl (LockError i (default "" (locked_by task))), w)
      else (inr true,
            set_tasks (map (row_update (unlock_sets (clock w (ticks w)))
                                       (fun r => String.eqb (id r) i)))
                      (set_ticks (S (ticks w)) w))
  end.
Proof.
  unfold unlockTask. step_bind. unfold getTask at 1, gets at 1.
  destruct (select_task i w) as [task|]; [|reflexivity].
  destruct (_ && _); [reflexivity|].
  unfold now. repeat unfold mbind, M_bind, bind, Date_now, ret.
  by rewrite sql_update_nofk by reflexivity.
Qed.



Lemma unlockTask_clears w i who task :
  select_task i w = Some task →
  who = None ∨ who = locked_by task →
  ∃ new w', unlockTask i who w = (inr true, w')
            ∧ select_task i w' = Some new
            ∧ locked_by new = None ∧ locked_at new = None.
Proof.
  intros Hsel Hwho. assert (Hid := select_task_id _ _ _ Hsel).
  rewrite unlockTask_run, Hsel.
  assert (truthy_ostring who && truthy_ostring (locked_by task)
          && negb (bool_decide (locked_by task = who)) = false) as ->.
  { destruct Hwho as [-> | ->]; [done|].
    rewrite bool_decide_eq_true_2 by done. apply andb_false_r. }
  destruct (unlocked_row_fields (clock w (ticks w)) task) as (?&?&_).
  exists (unlocked_row (clock w (ticks w)) task). eexists.
  split; [reflexivity|]. split; [|done].
  rewrite (select_row_update _ _ _ _ w) by reflexivity. rewrite Hsel.
  cbn [fmap option_fmap option_map].
  rewrite row_update_hit; [done|]. by rewrite Hid, String.eqb_refl.
Qed.

(** X5.  Lock, then unlock.  Once [lockTask] has granted the lease on a task
    that was free, the caller's own, or held under a lease older than 30
    minutes, a call of [unlockTask] under any other name is refused with
    [LockError] naming the holder, whatever the clock says by then; the
    holder's own call and a call that names nobody clear the lease. *)
Theorem lockTask_then_unlockTask (w : World) (i a : string) (task : Task) :
  select_task i w = Some task →
  a ≠ "" →
  (locked_by task = None ∨ locked_by task = Some a
   ∨ (∃ t, locked_at task = Some t ∧ expiryMs < clock w (ticks w) - t)) →
  ∃ r w1,
    lockTask i a w = (inr r, w1)
    ∧ Lock.success r = true
    ∧ (∀ b, b ≠ "" → b ≠ a →
         unlockTask i (Some b) w1 = (inl (LockError i a), w1))
    ∧ (∀ who, who = Some a ∨ who = None →
         ∃ new w2, unlockTask i who w1 = (inr true, w2)
                   ∧ select_task i w2 = Some new
                   ∧ locked_by new = None ∧ locked_at new = None).
Proof.
  intros Hsel Ha Hcase.
  destruct (lockTask_cases w i a task Hsel) as (r & w1 & Hr & Hg & _).
  destruct (Hg Hcase) as (Hok & _ & Hheld).
  exists r, w1. split; [done|]. split; [done|].
  destruct (select_task i w1) as [held|] eqn:Hsel1; [|discriminate].
  injection Hheld as Hlb. split.
  - intros b Hb Hne. rewrite unlockTask_run, Hsel1, Hlb.
    cbn [truthy_ostring default]. unfold truthy_string.
    destruct (String.eqb_spec b "") as [E|_]; [done|].
    destruct (String.eqb_spec a "") as [E|_]; [done|].
    rewrite bool_decide_eq_false_2 by congruence. reflexivity.
  - intros who Hwho. apply (unlockTask_clears w1 i who held Hsel1).
    destruct Hwho as [-> | ->]; [right; by rewrite Hlb|by left].
Qed.

Lemma lockTask_then_unlockTask_witness :
  ∃ r w1,
    lockTask "a" "codex" sample_world = (inr r, w1)
    ∧ Lock.success r = true
    ∧ unlockTask "a" (Some "claude") w1 = (inl (LockError "a" "codex"), w1)
    ∧ ∃ new w2, unlockTask "a" (Some "codex") w1 = (inr true, w2)
                ∧ select_task "a" w2 = Some new ∧ locked_by new = None.
Proof.
  destruct (lockTask_then_unlockTask sample_world "a" "codex"
              (sample_task "a" 1 100 low) eq_refl)
    as (r & w1 & Hr & Hok & Hother & Hown).
  { discriminate. }
  { left. reflexivity. }
  exists r, w1. split; [exact Hr|]. split; [exact Hok|]. split.
  - apply Hother; discriminate.
  - destruct (Hown (Some "codex")) as (new & w2 & Hu & Hs & Hlb & _);
      [by left|].
    exists new, w2. split; [exact Hu|]. split; [exact Hs|exact Hlb].
Defined.
(* ===================================================================== *)
(** ** deleteTask *)
(* ===================================================================== *)

Lemma filter_length_lt {A} (P Q : A → bool) (l : list A) (x : A) :
  (∀ y, Q y = true → P y = true) →
  In x l → P x = true → Q x = false →
  (length (List.filter Q l) < length (List.filter P l))%nat.
Proof.
  intros HQP.
  assert (Hle : ∀ k, (length (List.filter Q k) ≤ length (List.filter P k))%nat).
  { induction k as [|z k IH]; simpl; [done|].
    destruct (Q z) eqn:HQ.
    - rewrite (HQP z HQ). simpl. lia.
    - destruct (P z); simpl; lia. }
  induction l as [|y l IH]; simpl; [done|].
  intros [->|Hin] HP HQ.
  - rewrite HP, HQ. simpl. specialize (Hle l). lia.
  - specialize (IH Hin HP HQ).
    destruct (Q y) eqn:HQy.
    + rewrite (HQP y HQy). simpl. lia.
    + destruct (P y); simpl; lia.
Qed.

Lemma cascade_unfold fuel rows dead :
  cascade (S fuel) rows dead
  = match falls rows dead with
    | [] => dead
    | _ => cascade fuel rows (dead ∪ list_to_set (map id (falls rows dead)))
    end.
Proof. reflexivity. Qed.

Lemma elem_of_falls rows dead t :
  In t (falls rows dead)
  ↔ In t rows ∧ (∃ p, parent_id t = Some p ∧ p ∈ dead) ∧ id t ∉ dead.
Proof.
  unfold falls. rewrite filter_In, andb_true_iff, negb_true_iff,
    bool_decide_eq_false.
  split.
  - intros (Hin & Hp & Hd). split; [done|]. split; [|done].
    destruct (parent_id t) as [p|]; [|done].
    exists p. split; [done|]. by apply bool_decide_eq_true in Hp.
  - intros (Hin & (p & -> & Hp) & Hd). split; [done|]. split; [|done].
    by apply bool_decide_eq_true.
Qed.

Lemma cascade_mono fuel rows dead : dead ⊆ cascade fuel rows dead.
Proof.
  revert dead. induction fuel as [|fuel IH]; intros dead; [done|].
  rewrite cascade_unfold. destruct (falls rows dead); [done|].
  etrans; [|apply IH]. set_solver.
Qed.

Lemma cascade_sound fuel rows i dead :
  (∀ x, x ∈ dead → descends rows x i) →
  ∀ x, x ∈ cascade fuel rows dead → descends rows x i.
Proof.
  revert dead. induction fuel as [|fuel IH]; intros dead Hd; [done|].
  rewrite cascade_unfold. destruct (falls rows dead) as [|t l] eqn:Hf; [done|].
  apply IH. intros x [Hx|Hx]%elem_of_union; [by apply Hd|].
  apply elem_of_list_to_set, list_elem_of_In, in_map_iff in Hx as (r & <- & Hr).
  rewrite <- Hf in Hr. apply elem_of_falls in Hr as (Hin & (p & Hp & Hpd) & _).
  eapply rtc_l; [|by apply Hd].
  exists r. split; [by apply list_elem_of_In|done].
Qed.

Lemma falls_nil_closed rows dead : falls rows dead = [] → closed rows dead.
Proof.
  intros Hf t p Hin Hp Hpd.
  destruct (decide (id t ∈ dead)) as [|Hn]; [done|].
  assert (In t (falls rows dead)) as Hin'.
  { apply elem_of_falls. split; [done|]. split; [by exists p|done]. }
  rewrite Hf in Hin'. done.
Qed.

Lemma cascade_closed fuel rows dead :
  (length (List.filter (fun t => negb (bool_decide (id t ∈ dead))) rows) ≤ fuel)%nat →
  closed rows (cascade fuel rows dead).
Proof.
  revert dead. induction fuel as [|fuel IH]; intros dead Hm.
  - simpl. intros t p Hin _ _.
    destruct (decide (id t ∈ dead)) as [|Hn]; [done|].
    assert (In t (List.filter (fun t => negb (bool_decide (id t ∈ dead))) rows)) as Hin'.
    { apply filter_In. split; [done|].
      by apply negb_true_iff, bool_decide_eq_false. }
    destruct (List.filter _ rows); [done|]. simpl in Hm. lia.
  - rewrite cascade_unfold.
    destruct (falls rows dead) as [|t l] eqn:Hf; [by apply falls_nil_closed|].
    apply IH.
    assert (In t (falls rows dead)) as Ht by (rewrite Hf; by left).
    apply elem_of_falls in Ht as (Hin & _ & Hnd).
    enough (length (List.filter
                      (fun r => negb (bool_decide
                                        (id r ∈ dead ∪ list_to_set (map id (t :: l)))))
                      rows)
            < length (List.filter (fun r => negb (bool_decide (id r ∈ dead))) rows))%nat
      by lia.
    apply (filter_length_lt _ _ rows t).
    + intros y. rewrite !negb_true_iff, !bool_decide_eq_false. set_solver.
    + done.
    + by apply negb_true_iff, bool_decide_eq_false.
    + apply negb_false_iff, bool_decide_eq_true. set_solver.
Qed.

Lemma closed_complete rows i dead :
  closed rows dead → i ∈ dead →
  ∀ x, descends rows x i → x ∈ dead.
Proof.
  intros Hcl Hi x Hx. induction Hx as [|x y z (t & Hin & Hid & Hp) _ IH]; [done|].
  rewrite <- Hid. eapply Hcl; [by apply list_elem_of_In|done|by apply IH].
Qed.

(** The ids the cascade takes are those of the subtree under [i]. *)
Lemma cascade_spec rows i x :
  x ∈ cascade (length rows) rows {[i]} ↔ descends rows x i.
Proof.
  split.
  - apply cascade_sound. intros y ->%elem_of_singleton. apply rtc_refl.
  - apply closed_complete.
    + apply cascade_closed.
      clear. induction rows as [|r rows IH]; simpl; [done|].
      destruct (negb _); simpl; lia.
    + apply cascade_mono. set_solver.
Qed.

(** [deleteTask] in closed form. *)
Lemma deleteTask_run w i :
  deleteTask i w =
  match select_task i w with
  | None => (inr false, w)
  | Some _ =>
      let alive (k : string) :=
        negb (bool_decide (k ∈ cascade (length (tasks w)) (tasks w) {[i]})) in
      (inr true,
       set_task_dependencies
         (List.filter (fun r => alive (fst r) && alive (snd r)))
         (set_task_tags (List.filter (fun r => alive (fst r)))
            (set_tasks (List.filter (fun t => alive (id t))) w)))
  end.
Proof.
  unfold deleteTask, sql_delete_task. step_bind.
  destruct (select_task i w) as [task|] eqn:Hsel.
  - destruct (List.filter _ (tasks w)) as [|t l] eqn:Hf.
    + exfalso. eapply find_filter_nonempty; [exact Hsel| |exact Hf].
      apply String.eqb_eq. by eapply select_task_id.
    + reflexivity.
  - rewrite (select_none_filter i) by (done || intros t; apply String.eqb_eq).
    reflexivity.
Qed.

Lemma deleted_spec i w x : x ∈ deleted i w ↔ descends (tasks w) x i.
Proof. apply cascade_spec. Qed.

Lemma elem_of_filter_bool {A} (f : A → bool) (l : list A) (x : A) :
  x ∈ List.filter f l ↔ x ∈ l ∧ f x = true.
Proof. rewrite !list_elem_of_In. apply filter_In. Qed.

(** X6.  [deleteTask] returns [false] and changes nothing when no row has the
    id.  Otherwise it returns [true] and takes from table [tasks] exactly
    the task and the subtasks below it, to any depth: a row stays if and
    only if no chain of [parent_id]s leads from it to the task.  The rows
    that stay are unchanged and keep their order. *)
Theorem deleteTask_removes_subtree (w : World) (i : string) :
  (select_task i w = None → deleteTask i w = (inr false, w))
  ∧ (∀ task, select_task i w = Some task →
       ∃ w', deleteTask i w = (inr true, w')
             ∧ select_task i w' = None
             ∧ (∀ t, t ∈ tasks w'
                     ↔ t ∈ tasks w ∧ ¬ descends (tasks w) (id t) i)
             ∧ tasks w' `sublist_of` tasks w).
Proof.
  split; [intros Hsel; by rewrite deleteTask_run, Hsel|].
  intros task Hsel. rewrite deleteTask_run, Hsel. cbv zeta.
  eexists. split; [reflexivity|].
  cbn [tasks set_tasks set_task_tags set_task_dependencies].
  fold (deleted i w).
  assert (Hmem : ∀ t, t ∈ List.filter
                        (λ t, negb (bool_decide (id t ∈ deleted i w))) (tasks w)
                      ↔ t ∈ tasks w ∧ ¬ descends (tasks w) (id t) i).
  { intros t. rewrite elem_of_filter_bool, negb_true_iff, bool_decide_eq_false.
    by rewrite deleted_spec. }
  split; [|split; [exact Hmem|apply filter_sublist]].
  unfold select_task. cbn [tasks set_tasks set_task_tags set_task_dependencies].
  fold (deleted i w).
  destruct (List.find _ _) as [t|] eqn:Hfind; [|done].
  apply find_some in Hfind as [Hin Hid].
  apply list_elem_of_In, Hmem in Hin as [_ Hnd].
  apply String.eqb_eq in Hid. exfalso. apply Hnd. rewrite Hid. apply rtc_refl.
Qed.

Lemma deleteTask_removes_subtree_witness :
  ∃ w', deleteTask "kid" tree_world = (inr true, w')
        ∧ select_task "kid" w' = None
        ∧ map id (tasks w') = ["root"; "twin"; "apart"].
Proof.
  destruct (proj2 (deleteTask_removes_subtree tree_world "kid")
              (child_task "kid" "root") eq_refl) as (w' & Hr & Hsel & _).
  exists w'. split; [exact Hr|]. split; [exact Hsel|].
  replace w' with (snd (deleteTask "kid" tree_world)) by (by rewrite Hr).
  vm_compute. reflexivity.
Defined.

Lemma path_subrel deps deps' x y :
  (∀ a b, edge deps' a b → edge deps a b) → path deps' x y → path deps x y.
Proof.
  intros Hsub Hp. induction Hp as [x y He|x y z He _ IH].
  - apply tc_once. by apply Hsub.
  - eapply tc_l; [by apply Hsub|done].
Qed.

Lemma acyclic_subrel deps deps' :
  (∀ a b, edge deps' a b → edge deps a b) → acyclic deps → acyclic deps'.
Proof. intros Hsub Hac x Hx. apply (Hac x). by eapply path_subrel. Qed.

(** X7.  After [deleteTask] has taken a task, no row of [task_dependencies] or
    [task_tags] names a row that is gone, and the rows that name only
    survivors are all still there.  The store stays referentially intact
    (parents, dependencies and tags name stored rows) and the dependency
    graph stays acyclic. *)
Theorem deleteTask_cleans_references (w w' : World) (i : string) :
  deleteTask i w = (inr true, w') →
  (∀ a b, (a, b) ∈ task_dependencies w'
          ↔ (a, b) ∈ task_dependencies w
            ∧ ¬ descends (tasks w) a i ∧ ¬ descends (tasks w) b i)
  ∧ (∀ a tag, (a, tag) ∈ task_tags w'
              ↔ (a, tag) ∈ task_tags w ∧ ¬ descends (tasks w) a i)
  ∧ (parents_intact w → parents_intact w')
  ∧ (references_intact w → references_intact w')
  ∧ (acyclic (task_dependencies w) → acyclic (task_dependencies w')).
Proof.
  rewrite deleteTask_run.
  destruct (select_task i w) as [task|] eqn:Hsel; [|discriminate].
  cbv zeta. intros [= <-].
  cbn [tasks task_tags task_dependencies set_tasks set_task_tags
       set_task_dependencies].
  fold (deleted i w).
  assert (Halive : ∀ k, negb (bool_decide (k ∈ deleted i w)) = true
                        ↔ ¬ descends (tasks w) k i).
  { intros k. by rewrite negb_true_iff, bool_decide_eq_false, deleted_spec. }
  assert (Hdeps : ∀ a b,
    (a, b) ∈ List.filter (λ r, negb (bool_decide (r.1 ∈ deleted i w))
                               && negb (bool_decide (r.2 ∈ deleted i w)))
               (task_dependencies w)
    ↔ (a, b) ∈ task_dependencies w
      ∧ ¬ descends (tasks w) a i ∧ ¬ descends (tasks w) b i).
  { intros a b. rewrite elem_of_filter_bool, andb_true_iff, !Halive. done. }
  assert (Htags : ∀ a tag,
    (a, tag) ∈ List.filter (λ r, negb (bool_decide (r.1 ∈ deleted i w)))
                 (task_tags w)
    ↔ (a, tag) ∈ task_tags w ∧ ¬ descends (tasks w) a i).
  { intros a tag. rewrite elem_of_filter_bool, Halive. done. }
  assert (Hrows : ∀ k, k ∈ map id (tasks w) → ¬ descends (tasks w) k i →
    k ∈ map id (List.filter (λ t, negb (bool_decide (id t ∈ deleted i w)))
                  (tasks w))).
  { intros k Hk Hnd.
    apply list_elem_of_In, in_map_iff in Hk as (r & <- & Hr).
    apply list_elem_of_In, in_map. apply filter_In. split; [done|].
    by apply Halive. }
  split; [exact Hdeps|]. split; [exact Htags|]. split; [|split].
  - intros Hint t p Ht Hp.
    apply elem_of_filter_bool in Ht as [Ht Hal]. apply Halive in Hal.
    apply Hrows; [by eapply Hint|].
    intros Hd. apply Hal. eapply rtc_l; [|exact Hd]. by exists t.
  - intros [Hd Ht]. split.
    + intros a b (Hab & Ha & Hb)%Hdeps. destruct (Hd a b Hab). split; by apply Hrows.
    + intros a tag (Hat & Ha)%Htags. apply Hrows; [by eapply Ht|done].
  - apply acyclic_subrel. intros a b Hab. unfold edge in *.
    by apply Hdeps in Hab as [? _].
Qed.

Lemma deleteTask_cleans_references_witness :
  ∃ w', deleteTask "kid" tree_world = (inr true, w')
        ∧ task_dependencies w' = [("apart", "twin")]
        ∧ task_tags w' = [("apart", "urgent")]
        ∧ acyclic (task_dependencies w').
Proof.
  eexists. split; [reflexivity|].
  split; [reflexivity|]. split; [reflexivity|].
  apply (deleteTask_cleans_references tree_world _ "kid" eq_refl).
  intros x Hx. unfold path in Hx.
  assert (Hstep : ∀ a b, edge (task_dependencies tree_world) a b →
            (a = "leaf" ∧ b = "apart") ∨ (a = "apart" ∧ b = "twin")).
  { intros a b Hab. unfold edge in Hab. cbn in Hab. set_solver. }
  assert (Hno : ∀ b, ¬ edge (task_dependencies tree_world) "twin" b).
  { intros b [[? _]|[? _]]%Hstep; discriminate. }
  inversion Hx as [? ? He|? y ? He Hp]; subst.
  - apply Hstep in He as [[-> ?]|[-> ?]]; discriminate.
  - apply Hstep in He as [[-> ->]|[-> ->]].
    + inversion Hp as [? ? He2|? y2 ? He2 Hp2]; subst.
      * apply Hstep in He2 as [[? ?]|[? ?]]; discriminate.
      * apply Hstep in He2 as [[? ?]|[_ ->]]; [discriminate|].
        inversion Hp2 as [? ? He3|? ? ? He3 _]; subst; by apply Hno in He3.
    + inversion Hp as [? ? He2|? ? ? He2 _]; subst; by apply Hno in He2.
Defined.
(* ===================================================================== *)
(** ** Dependencies: lookup and removal *)
(* ===================================================================== *)

(** What a successful [addDependency] has checked and written. *)
Lemma addDependency_success w w1 t d :
  addDependency t d w = (inr tt, w1) →
  is_null (select_task t w) = false
  ∧ is_null (select_task d w) = false
  ∧ ¬ reaches (task_dependencies w) d t
  ∧ w1 = set_task_dependencies
           (fun rows => if bool_decide ((t, d) ∈ rows) then rows
                        else rows ++ [(t, d)]) w.
Proof.
  rewrite addDependency_run.
  destruct (is_null (select_task t w)); [discriminate|].
  destruct (is_null (select_task d w)); [discriminate|].
  destruct (wouldCreateCycle_spec (task_dependencies w) t d) as (b & -> & Hb).
  destruct b; [discriminate|]. intros [= <-].
  assert (Hnr : ¬ reaches (task_dependencies w) d t).
  { intros Hr. apply Hb in Hr. discriminate. }
  do 3 (split; [done|]).
  destruct (String.eqb_spec t d) as [->|_]; [exfalso; apply Hnr, rtc_refl|].
  unfold set_task_dependencies. f_equal.
  by rewrite orb_false_r.
Qed.

Lemma set_task_dependencies_id f w :
  f (task_dependencies w) = task_dependencies w → set_task_dependencies f w = w.
Proof. destruct w. unfold set_task_dependencies. simpl. by intros ->. Qed.

Lemma reaches_new_edge deps t d :
  t ≠ d → reaches (deps ++ [(t, d)]) d t → reaches deps d t.
Proof.
  intros Hne Hr. apply rtc_tc in Hr as [E|Hp]; [congruence|].
  apply path_new_edge in Hp as [Hp|[Hp _]]; [by apply tc_rtc|done].
Qed.

(** X8.  After [addDependency(t, d)] has returned, [getTaskDependencies(t)] and
    [getTaskDependents(d)] both list the row [(t, d)], each of them returns
    exactly the stored rows with that [task_id] (that [depends_on]), and
    the same call of [addDependency] again returns and changes nothing. *)
Theorem addDependency_then_lookup (w w1 : World) (t d : string) :
  addDependency t d w = (inr tt, w1) →
  (∃ rows, getTaskDependencies t w1 = (inr rows, w1)
           ∧ (t, d) ∈ rows
           ∧ ∀ r, r ∈ rows ↔ r ∈ task_dependencies w1 ∧ r.1 = t)
  ∧ (∃ rows, getTaskDependents d w1 = (inr rows, w1)
             ∧ (t, d) ∈ rows
             ∧ ∀ r, r ∈ rows ↔ r ∈ task_dependencies w1 ∧ r.2 = d)
  ∧ addDependency t d w1 = (inr tt, w1).
Proof.
  intros Hadd.
  destruct (addDependency_success _ _ _ _ Hadd) as (Ht & Hd & Hnr & ->).
  assert (Hne : t ≠ d) by (intros ->; apply Hnr, rtc_refl).
  assert (Hin : (t, d) ∈ task_dependencies
                  (set_task_dependencies
                     (λ rows, if bool_decide ((t, d) ∈ rows) then rows
                              else rows ++ [(t, d)]) w)).
  { cbn [task_dependencies set_task_dependencies].
    destruct (bool_decide _) eqn:E; [by apply bool_decide_eq_true in E|].
    set_solver. }
  split; [|split].
  - eexists. split; [reflexivity|]. split.
    + apply elem_of_filter_bool. split; [done|]. apply String.eqb_refl.
    + intros r. rewrite elem_of_filter_bool, String.eqb_eq. done.
  - eexists. split; [reflexivity|]. split.
    + apply elem_of_filter_bool. split; [done|]. apply String.eqb_refl.
    + intros r. rewrite elem_of_filter_bool, String.eqb_eq. done.
  - rewrite addDependency_run.
    change (select_task t (set_task_dependencies _ w)) with (select_task t w).
    change (select_task d (set_task_dependencies _ w)) with (select_task d w).
    rewrite Ht, Hd.
    destruct (wouldCreateCycle_spec
                (task_dependencies (set_task_dependencies
                   (λ rows, if bool_decide ((t, d) ∈ rows) then rows
                            else rows ++ [(t, d)]) w)) t d) as (b & -> & Hb).
    destruct b.
    + exfalso. apply Hnr. destruct Hb as [Hb _]. specialize (Hb eq_refl).
      cbn [task_dependencies set_task_dependencies] in Hb.
      destruct (bool_decide _); [done|]. by apply reaches_new_edge.
    + f_equal. apply set_task_dependencies_id. cbv beta.
      by rewrite bool_decide_eq_true_2.
Qed.

Lemma addDependency_then_lookup_witness :
  ∃ w1, addDependency "C" "A" chain_world = (inr tt, w1)
        ∧ fst (getTaskDependencies "C" w1) = inr [("C", "B"); ("C", "A")]
        ∧ fst (getTaskDependents "A" w1) = inr [("B", "A"); ("C", "A")]
        ∧ addDependency "C" "A" w1 = (inr tt, w1).
Proof.
  eexists. split; [reflexivity|].
  split; [reflexivity|]. split; [reflexivity|].
  apply (addDependency_then_lookup chain_world _ "C" "A" eq_refl).
Defined.

Lemma filter_all {A} (f : A → bool) (l : list A) :
  (∀ x, x ∈ l → f x = true) → List.filter f l = l.
Proof.
  induction l as [|x l IH]; intros H; simpl; [done|].
  rewrite H by set_solver. f_equal. apply IH. intros y Hy. apply H. set_solver.
Qed.

Lemma dep_hit_eq (t d : string) (r : string * string) :
  String.eqb r.1 t && String.eqb r.2 d = true ↔ r = (t, d).
Proof.
  destruct r as [a b]. simpl. rewrite andb_true_iff, !String.eqb_eq.
  split; [by intros [-> ->]|by intros [= -> ->]].
Qed.

(** X9.  [removeDependency] never throws and checks nothing: it returns whether
    the row [(t, d)] was there, leaves every other row of
    [task_dependencies] in place and touches no task; a graph that was
    acyclic stays so. *)
Theorem removeDependency_removes (w : World) (t d : string) :
  ∃ w',
    removeDependency t d w
    = (inr (bool_decide ((t, d) ∈ task_dependencies w)), w')
    ∧ ¬ edge (task_dependencies w') t d
    ∧ (∀ x y, edge (task_dependencies w') x y
              ↔ edge (task_dependencies w) x y ∧ (x, y) ≠ (t, d))
    ∧ tasks w' = tasks w
    ∧ (acyclic (task_dependencies w) → acyclic (task_dependencies w')).
Proof.
  eexists. split.
  { unfold removeDependency. f_equal. f_equal. apply bool_decide_ext.
    split.
    - intros Hlen.
      destruct (List.filter _ (task_dependencies w)) as [|r l] eqn:Hf;
        [simpl in Hlen; lia|].
      assert (r ∈ List.filter
                (λ r, String.eqb r.1 t && String.eqb r.2 d)
                (task_dependencies w)) as Hr by (rewrite Hf; set_solver).
      apply elem_of_filter_bool in Hr as [Hr ->%dep_hit_eq]. done.
    - intros Hin.
      assert ((t, d) ∈ List.filter
                (λ r, String.eqb r.1 t && String.eqb r.2 d)
                (task_dependencies w)) as Hr.
      { apply elem_of_filter_bool. split; [done|]. by apply dep_hit_eq. }
      destruct (List.filter _ (task_dependencies w)); [set_solver|simpl; lia]. }
  cbn [tasks task_dependencies set_task_dependencies].
  assert (Hedge : ∀ x y,
    edge (List.filter (λ r, negb (String.eqb r.1 t && String.eqb r.2 d))
            (task_dependencies w)) x y
    ↔ edge (task_dependencies w) x y ∧ (x, y) ≠ (t, d)).
  { intros x y. unfold edge. rewrite elem_of_filter_bool, negb_true_iff.
    rewrite <- not_true_iff_false, dep_hit_eq. done. }
  split; [|split; [exact Hedge|split; [done|]]].
  - intros [_ Hne]%Hedge. done.
  - apply acyclic_subrel. intros a b Hab. by apply Hedge in Hab as [? _].
Qed.

(** X10.  Add, then remove.  When the row [(t, d)] was not stored and
    [addDependency(t, d)] has returned, [removeDependency(t, d)] returns
    [true] and table [task_dependencies] is as it was before the two
    calls. *)
Theorem addDependency_then_removeDependency (w w1 : World) (t d : string) :
  ¬ edge (task_dependencies w) t d →
  addDependency t d w = (inr tt, w1) →
  ∃ w2, removeDependency t d w1 = (inr true, w2)
        ∧ task_dependencies w2 = task_dependencies w
        ∧ tasks w2 = tasks w.
Proof.
  intros Hno Hadd.
  destruct (addDependency_success _ _ _ _ Hadd) as (_ & _ & _ & ->).
  unfold edge in Hno. eexists. split; [|split].
  - unfold removeDependency. f_equal. f_equal.
    cbn [task_dependencies set_task_dependencies].
    rewrite (bool_decide_eq_false_2 _ Hno).
    apply bool_decide_eq_true_2.
    rewrite List.filter_app, length_app. simpl.
    rewrite !String.eqb_refl. simpl. lia.
  - cbn [task_dependencies set_task_dependencies].
    rewrite (bool_decide_eq_false_2 _ Hno).
    rewrite List.filter_app. simpl. rewrite !String.eqb_refl. simpl.
    rewrite app_nil_r. apply filter_all.
    intros r Hr. apply negb_true_iff, not_true_iff_false.
    rewrite dep_hit_eq. by intros ->.
  - reflexivity.
Qed.

Lemma addDependency_then_removeDependency_witness :
  ∃ w1 w2, addDependency "C" "A" chain_world = (inr tt, w1)
           ∧ removeDependency "C" "A" w1 = (inr true, w2)
           ∧ task_dependencies w2 = task_dependencies chain_world.
Proof.
  exists (snd (addDependency "C" "A" chain_world)).
  destruct (addDependency_then_removeDependency chain_world
              (snd (addDependency "C" "A" chain_world)) "C" "A")
    as (w2 & Hr & Hd & _).
  - unfold edge. cbn. set_solver.
  - reflexivity.
  - exists w2. split; [reflexivity|]. split; [exact Hr|exact Hd].
Defined.
(* ===================================================================== *)
(** ** resolvePartialId and searchTasks *)
(* ===================================================================== *)

Lemma append_cons c p q : String c p +:+ q = String c (p +:+ q).
Proof. reflexivity. Qed.

Lemma sql_like_cons c p s :
  sql_like (String c p) s
  = if String.eqb (String c "") "%"
    then sql_like p s
         || match s with
            | EmptyString => false
            | String _ s' => sql_like (String c p) s'
            end
    else if String.eqb (String c "") "_"
    then match s with
         | EmptyString => false
         | String _ s' => sql_like p s'
         end
    else match s with
         | EmptyString => false
         | String d s' => Ascii.eqb (like_fold c) (like_fold d) && sql_like p s'
         end.
Proof.
  cbn [sql_like]. destruct (String.eqb (String c "") "%");
    [destruct s; reflexivity|].
  destruct (String.eqb (String c "") "_"); reflexivity.
Qed.

Lemma sql_like_any s : sql_like "%" s = true.
Proof.
  induction s as [|c s IH]; [reflexivity|].
  change (sql_like "%" (String c s))
    with (sql_like "" (String c s) || sql_like "%" s).
  by rewrite IH, orb_true_r.
Qed.

Lemma sql_like_literal p x :
  literal p = true → sql_like (p +:+ "%") x = prefix_ci p x.
Proof.
  revert x. induction p as [|c p IH]; intros x Hlit.
  - apply sql_like_any.
  - cbn [literal] in Hlit.
    apply andb_true_iff in Hlit as [[H1 H2]%andb_true_iff Hlit].
    apply negb_true_iff in H1, H2.
    rewrite append_cons, sql_like_cons, H1, H2.
    destruct x as [|d x]; [reflexivity|].
    cbn [prefix_ci]. by rewrite IH.
Qed.

Lemma sql_like_app p1 p2 s1 s2 :
  sql_like p1 s1 = true → sql_like p2 s2 = true →
  sql_like (p1 +:+ p2) (s1 +:+ s2) = true.
Proof.
  intros H1 H2. revert s1 H1. induction p1 as [|c p1 IH]; intros s1 H1.
  - destruct s1; [done|discriminate].
  - rewrite append_cons.
    induction s1 as [|d s1 IHs].
    + rewrite sql_like_cons in H1. rewrite sql_like_cons.
      destruct (String.eqb (String c "") "%") eqn:Hc.
      * rewrite orb_false_r in H1. specialize (IH "" H1).
        change ("" +:+ s2) with s2 in *. by rewrite IH.
      * by destruct (String.eqb (String c "") "_").
    + rewrite sql_like_cons in H1. rewrite append_cons, sql_like_cons.
      destruct (String.eqb (String c "") "%") eqn:Hc.
      * apply orb_true_iff in H1 as [H1|H1].
        -- specialize (IH _ H1). rewrite append_cons in IH. by rewrite IH.
        -- by rewrite (IHs H1), orb_true_r.
      * destruct (String.eqb (String c "") "_"); [by apply IH|].
        apply andb_true_iff in H1 as [-> H1]. by apply IH.
Qed.

Lemma sql_like_self q : sql_like q q = true.
Proof.
  induction q as [|c q IH]; [reflexivity|].
  rewrite sql_like_cons. destruct (String.eqb (String c "") "%") eqn:Hc.
  - rewrite (sql_like_cons c q q), Hc, IH. apply orb_true_r.
  - destruct (String.eqb (String c "") "_"); [done|].
    by rewrite Ascii.eqb_refl.
Qed.

Lemma sql_like_contains q a b :
  sql_like ("%" +:+ q +:+ "%") (a +:+ q +:+ b) = true.
Proof.
  apply (sql_like_app "%" (q +:+ "%") a (q +:+ b)); [apply sql_like_any|].
  apply sql_like_app; [apply sql_like_self|apply sql_like_any].
Qed.

Lemma filter_singleton {A} (f : A → bool) (l : list A) (x : A) :
  List.filter f l = [x] →
  x ∈ l ∧ f x = true ∧ ∀ y, y ∈ l → f y = true → y = x.
Proof.
  intros Hf.
  assert (Hmem : ∀ y, y ∈ List.filter f l ↔ y ∈ l ∧ f y = true)
    by (intros; apply elem_of_filter_bool).
  rewrite Hf in Hmem. split; [|split].
  - apply Hmem. set_solver.
  - apply Hmem. set_solver.
  - intros y Hy Hfy. assert (y ∈ [x]) by (apply Hmem; done). set_solver.
Qed.

Lemma filter_none {A} (f : A → bool) (l : list A) :
  (∀ y, y ∈ l → f y = false) → List.filter f l = [].
Proof.
  induction l as [|a l IH]; intros H; simpl; [done|].
  rewrite H by set_solver. apply IH. intros y Hy. apply H. set_solver.
Qed.

Lemma singleton_filter {A} (f : A → bool) (l : list A) (x : A) :
  NoDup l → x ∈ l → f x = true →
  (∀ y, y ∈ l → f y = true → y = x) →
  List.filter f l = [x].
Proof.
  induction l as [|a l IH]; intros Hnd Hx Hfx Huniq; [set_solver|].
  apply NoDup_cons in Hnd as [Ha Hnd]. simpl.
  apply elem_of_cons in Hx as [<-|Hx].
  - rewrite Hfx. f_equal. apply filter_none. intros y Hy.
    destruct (f y) eqn:Hfy; [|done].
    assert (y = x) by (apply Huniq; [set_solver|done]). by subst.
  - destruct (f a) eqn:Hfa.
    + assert (a = x) by (apply Huniq; [set_solver|done]). by subst.
    + apply IH; [done|done|done|]. intros y Hy. apply Huniq. set_solver.
Qed.

Lemma resolvePartialId_cases (ids : list string) (p : string) :
  (∀ x, resolvePartialId ids p = Some x → (String.length p < 36)%nat →
        x ∈ ids ∧ sql_like (p +:+ "%") x = true
        ∧ ∀ y, y ∈ ids → sql_like (p +:+ "%") y = true → y = x)
  ∧ ((String.length p < 36)%nat → NoDup ids →
       ∀ x, x ∈ ids → sql_like (p +:+ "%") x = true →
            (∀ y, y ∈ ids → sql_like (p +:+ "%") y = true → y = x) →
            resolvePartialId ids p = Some x).
Proof.
  unfold resolvePartialId. split.
  - intros x Hr Hlen. apply Nat.leb_gt in Hlen. rewrite Hlen in Hr.
    destruct (List.filter _ ids) as [|a [|b l]] eqn:Hf; try discriminate.
    injection Hr as ->. by apply filter_singleton in Hf.
  - intros Hlen Hnd x Hx Hm Hu. apply Nat.leb_gt in Hlen. rewrite Hlen.
    by rewrite (singleton_filter _ ids x).
Qed.

(** X11.  [resolvePartialId] never guesses.  Whatever it returns is a
    stored id; for an argument of 36 characters or more it is the argument
    itself, found by equality; for a shorter one it is the only stored id
    that matches [LIKE '<argument>%'].  Two different stored ids that both
    match make it return [null], and with unique ids the one id that
    matches alone is returned. *)
Theorem resolvePartialId_unambiguous (ids : list string) (p : string) :
  (∀ x, resolvePartialId ids p = Some x →
        x ∈ ids
        ∧ ((36 ≤ String.length p)%nat → x = p)
        ∧ ((String.length p < 36)%nat →
             sql_like (p +:+ "%") x = true
             ∧ ∀ y, y ∈ ids → sql_like (p +:+ "%") y = true → y = x))
  ∧ ((36 ≤ String.length p)%nat → p ∈ ids → resolvePartialId ids p = Some p)
  ∧ ((String.length p < 36)%nat →
       ∀ x y, x ∈ ids → y ∈ ids → x ≠ y →
              sql_like (p +:+ "%") x = true → sql_like (p +:+ "%") y = true →
              resolvePartialId ids p = None)
  ∧ ((String.length p < 36)%nat → NoDup ids →
       ∀ x, x ∈ ids → sql_like (p +:+ "%") x = true →
            (∀ y, y ∈ ids → sql_like (p +:+ "%") y = true → y = x) →
            resolvePartialId ids p = Some x).
Proof.
  unfold resolvePartialId. split; [|split; [|split]].
  - intros x. destruct (36 <=? String.length p)%nat eqn:Hlen.
    + apply Nat.leb_le in Hlen. intros Hfind.
      apply find_some in Hfind as [Hin ->%String.eqb_eq].
      split; [by apply list_elem_of_In|]. split; [done|lia].
    + apply Nat.leb_gt in Hlen.
      destruct (List.filter _ ids) as [|a [|b l]] eqn:Hf; try discriminate.
      intros [= ->]. apply filter_singleton in Hf as (Hin & Hm & Hu).
      split; [done|]. split; [lia|done].
  - intros Hlen Hin. apply Nat.leb_le in Hlen. rewrite Hlen.
    destruct (List.find _ ids) as [x|] eqn:Hfind.
    + by apply find_some in Hfind as [_ ->%String.eqb_eq].
    + apply list_elem_of_In in Hin.
      apply (find_none _ _ Hfind) in Hin. by rewrite String.eqb_refl in Hin.
  - intros Hlen x y Hx Hy Hne Hmx Hmy. apply Nat.leb_gt in Hlen. rewrite Hlen.
    destruct (List.filter _ ids) as [|a [|b l]] eqn:Hf; [done| |done].
    apply filter_singleton in Hf as (_ & _ & Hu).
    exfalso. apply Hne. by rewrite (Hu x), (Hu y).
  - intros Hlen Hnd x Hx Hm Hu. apply Nat.leb_gt in Hlen. rewrite Hlen.
    by rewrite (singleton_filter _ ids x).
Qed.

Lemma resolvePartialId_unambiguous_witness :
  resolvePartialId ["7c2fa8d1-81c7"; "7c2f0000-aaaa"; "19ab"] "7c2fa" = Some "7c2fa8d1-81c7"
  ∧ resolvePartialId ["7c2fa8d1-81c7"; "7c2f0000-aaaa"; "19ab"] "7c2f" = None.
Proof.
  destruct (resolvePartialId_unambiguous
              ["7c2fa8d1-81c7"; "7c2f0000-aaaa"; "19ab"] "7c2fa") as (_ & _ & _ & Hone).
  destruct (resolvePartialId_unambiguous
              ["7c2fa8d1-81c7"; "7c2f0000-aaaa"; "19ab"] "7c2f") as (_ & _ & Htwo & _).
  split.
  - apply Hone.
    + vm_compute. lia.
    + repeat constructor; set_solver.
    + set_solver.
    + reflexivity.
    + intros y Hy. repeat (apply elem_of_cons in Hy as [->|Hy]);
        [done|discriminate|discriminate|set_solver].
  - apply (Htwo ltac:(vm_compute; lia) "7c2fa8d1-81c7" "7c2f0000-aaaa");
      [set_solver|set_solver|discriminate|reflexivity|reflexivity].
Defined.

Lemma prefix_ci_prefix p q : prefix_ci p (p +:+ q) = true.
Proof.
  induction p as [|c p IH]; [done|].
  rewrite append_cons. cbn [prefix_ci]. by rewrite Ascii.eqb_refl.
Qed.

(** X12.  For a partial id shorter than 36 characters with no [%] and no
    [_] in it, "matches" means "is a prefix, up to the case of ASCII
    letters": on a table with unique ids, [resolvePartialId] returns [x]
    if and only if [x] is the one stored id that the argument is such a
    prefix of.  In particular the leading characters of a stored id
    resolve to it when no other stored id starts the same way. *)
Theorem resolvePartialId_prefix (ids : list string) (p : string) :
  literal p = true → (String.length p < 36)%nat → NoDup ids →
  (∀ x, resolvePartialId ids p = Some x
        ↔ x ∈ ids ∧ prefix_ci p x = true
          ∧ ∀ y, y ∈ ids → prefix_ci p y = true → y = x)
  ∧ (∀ rest, p +:+ rest ∈ ids →
       (∀ y, y ∈ ids → prefix_ci p y = true → y = p +:+ rest) →
       resolvePartialId ids p = Some (p +:+ rest)).
Proof.
  intros Hlit Hlen Hnd.
  destruct (resolvePartialId_cases ids p) as (Hsound & Hfound).
  assert (Hiff : ∀ x, resolvePartialId ids p = Some x
        ↔ x ∈ ids ∧ prefix_ci p x = true
          ∧ ∀ y, y ∈ ids → prefix_ci p y = true → y = x).
  { intros x. split.
    - intros Hr. destruct (Hsound x Hr Hlen) as (Hin & Hm & Hu).
      split; [done|]. rewrite sql_like_literal in Hm by done. split; [done|].
      intros y Hy Hpy. apply Hu; [done|]. by rewrite sql_like_literal.
    - intros (Hin & Hm & Hu). apply Hfound; [done|done|done| |].
      + by rewrite sql_like_literal.
      + intros y Hy Hpy. apply Hu; [done|]. by rewrite sql_like_literal in Hpy. }
  split; [exact Hiff|].
  intros rest Hin Hu. apply Hiff. split; [done|]. split; [|done].
  apply prefix_ci_prefix.
Qed.

Lemma resolvePartialId_prefix_witness :
  resolvePartialId ["7c2fa8d1-81c7"; "19ab"] "7C2F" = Some "7c2fa8d1-81c7".
Proof.
  apply (proj1 (resolvePartialId_prefix ["7c2fa8d1-81c7"; "19ab"] "7C2F"
                  eq_refl ltac:(vm_compute; lia)
                  ltac:(repeat constructor; set_solver))).
  split; [set_solver|]. split; [reflexivity|].
  intros y Hy. repeat (apply elem_of_cons in Hy as [->|Hy]);
    [done|discriminate|set_solver].
Defined.

Lemma sql_like_percents p x : percents p = true → sql_like (p +:+ "%") x = true.
Proof.
  induction p as [|c p IH]; intros Hp; [apply sql_like_any|].
  cbn [percents] in Hp. apply andb_true_iff in Hp as [Hc Hp].
  rewrite append_cons, sql_like_cons, Hc. by rewrite IH.
Qed.

(** X13.  The wildcards of [LIKE] are live in a partial id.  An argument
    that is empty or made of [%] signs matches every id: it resolves to the
    only row of a one-row table, whatever that row's id is, and to [null]
    on any table with two rows or more. *)
Theorem resolvePartialId_wildcards (p : string) :
  percents p = true → (String.length p < 36)%nat →
  (∀ x, resolvePartialId [x] p = Some x)
  ∧ (∀ x y ids, resolvePartialId (x :: y :: ids) p = None)
  ∧ resolvePartialId [] p = None.
Proof.
  intros Hp Hlen. apply Nat.leb_gt in Hlen. unfold resolvePartialId.
  rewrite Hlen. split; [|split; [|done]].
  - intros x. cbn [List.filter]. by rewrite sql_like_percents.
  - intros x y ids. cbn [List.filter]. by rewrite !sql_like_percents.
Qed.

Lemma resolvePartialId_wildcards_witness :
  resolvePartialId ["7c2fa8d1-81c7"] "" = Some "7c2fa8d1-81c7"
  ∧ resolvePartialId ["7c2fa8d1-81c7"; "19ab"] "%" = None.
Proof.
  split.
  - apply (resolvePartialId_wildcards "" eq_refl ltac:(vm_compute; lia)).
  - apply (resolvePartialId_wildcards "%" eq_refl ltac:(vm_compute; lia)).
Defined.
(* ===================================================================== *)
(** ** listTasks and searchTasks: the sweep, the pages, the search *)
(* ===================================================================== *)

Section merge_sort_map.
Context {A : Type} (R : relation A) `{∀ x y, Decision (R x y)}.
Context (g : A → A) (Hg : ∀ x y, R (g x) (g y) ↔ R x y).

Lemma list_merge_map l1 l2 :
  list_merge R (map g l1) (map g l2) = map g (list_merge R l1 l2).
Proof.
  revert l2. induction l1 as [|x1 l1 IH1]; intros l2;
    [cbn [map]; by rewrite !list_merge_nil_l|].
  induction l2 as [|x2 l2 IH2]; [cbn [map]; by rewrite !list_merge_nil_r|].
  cbn [map]. rewrite !list_merge_cons.
  destruct (decide (R (g x1) (g x2))) as [Hr|Hr], (decide (R x1 x2)) as [Hr'|Hr'].
  - cbn [map]. f_equal. apply (IH1 (x2 :: l2)).
  - exfalso. apply Hr'. by apply (proj1 (Hg x1 x2)).
  - exfalso. apply Hr. by apply (proj2 (Hg x1 x2)).
  - cbn [map]. f_equal. apply IH2.
Qed.

Lemma merge_list_to_stack_map st l :
  merge_list_to_stack R (map (fmap (map g)) st) (map g l)
  = map (fmap (map g)) (merge_list_to_stack R st l).
Proof.
  revert l. induction st as [|[l'|] st IH]; intros l; [done| |done].
  cbn [map fmap option_fmap option_map merge_list_to_stack].
  f_equal. rewrite list_merge_map. apply IH.
Qed.

Lemma merge_stack_map st :
  merge_stack R (map (fmap (map g)) st) = map g (merge_stack R st).
Proof.
  induction st as [|[l'|] st IH]; [done| |done].
  cbn [map fmap option_fmap option_map merge_stack].
  by rewrite IH, list_merge_map.
Qed.

Lemma merge_sort_aux_map st l :
  merge_sort_aux R (map (fmap (map g)) st) (map g l)
  = map g (merge_sort_aux R st l).
Proof.
  revert st. induction l as [|x l IH]; intros st.
  - apply merge_stack_map.
  - cbn [map merge_sort_aux]. rewrite <- IH. f_equal.
    apply (merge_list_to_stack_map st [x]).
Qed.

Lemma merge_sort_map l : merge_sort R (map g l) = map g (merge_sort R l).
Proof. apply (merge_sort_aux_map [] l). Qed.

End merge_sort_map.

Lemma tasks_swept w :
  tasks (swept w) = map (sweep_row (clock w (ticks w) - expiryMs)) (tasks w).
Proof. unfold swept. by rewrite clearExpiredLocks_run. Qed.

Lemma task_tags_swept w : task_tags (swept w) = task_tags w.
Proof. unfold swept. by rewrite clearExpiredLocks_run. Qed.

Lemma ticks_swept w : ticks (swept w) = S (ticks w) ∧ clock (swept w) = clock w.
Proof. unfold swept. by rewrite clearExpiredLocks_run. Qed.

Lemma sweep_row_order cutoff a b :
  task_order (sweep_row cutoff a) (sweep_row cutoff b) ↔ task_order a b.
Proof.
  unfold sweep_row, row_update, task_order.
  destruct (_ && _), (_ && _); by destruct a, b.
Qed.

Lemma sweep_row_keeps cutoff t :
  id (sweep_row cutoff t) = id t
  ∧ version (sweep_row cutoff t) = version t
  ∧ updated_at (sweep_row cutoff t) = updated_at t
  ∧ title (sweep_row cutoff t) = title t
  ∧ description (sweep_row cutoff t) = description t
  ∧ status (sweep_row cutoff t) = status t
  ∧ priority (sweep_row cutoff t) = priority t
  ∧ assigned_to (sweep_row cutoff t) = assigned_to t
  ∧ project_id (sweep_row cutoff t) = project_id t
  ∧ tags (sweep_row cutoff t) = tags t
  ∧ metadata (sweep_row cutoff t) = metadata t.
Proof.
  unfold sweep_row, row_update. destruct (_ && _); [|done]. by destruct t.
Qed.

Lemma sweep_row_lease cutoff t :
  (∀ la, locked_at (sweep_row cutoff t) = Some la →
         cutoff <= la ∧ locked_at t = Some la
         ∧ locked_by (sweep_row cutoff t) = locked_by t)
  ∧ (∀ la, locked_at t = Some la → la < cutoff →
           locked_by (sweep_row cutoff t) = None
           ∧ locked_at (sweep_row cutoff t) = None)
  ∧ ((∀ la, locked_at t = Some la → cutoff <= la) → sweep_row cutoff t = t).
Proof.
  unfold sweep_row, row_update.
  destruct (locked_at t) as [la0|] eqn:Hla; cbn [is_null negb andb sql_lt].
  - destruct (Z.ltb_spec la0 cutoff) as [Hlt|Hge].
    + split; [|split].
      * intros la. by destruct t.
      * intros la _ _. by destruct t.
      * intros Hall. specialize (Hall la0 eq_refl). lia.
    + split; [|split].
      * intros la Hl. rewrite Hla in Hl. injection Hl as <-. done.
      * intros la [= <-] ?. lia.
      * done.
  - split; [|split]; [|done|done].
    intros la Hl. by rewrite Hla in Hl.
Qed.

Lemma matching_swept f w :
  matching f (swept w)
  = map (sweep_row (clock w (ticks w) - expiryMs)) (matching f w).
Proof.
  unfold matching. rewrite tasks_swept.
  apply filter_map_ext. intros t. apply matches_unlock, task_tags_swept.
Qed.

(** [listTasks] returns the sorted rows of the store it was called on, as
    the sweep leaves them. *)
Lemma listTasks_rows f w :
  listTasks f w
  = (inr (map (sweep_row (clock w (ticks w) - expiryMs))
            (sql_limit_offset (limitVal f) (offsetVal f)
               (merge_sort task_order (matching f w)))),
     swept w).
Proof.
  rewrite listTasks_run, matching_swept.
  rewrite merge_sort_map by apply sweep_row_order.
  do 2 f_equal. unfold sql_limit_offset.
  destruct (_ <? 0); by rewrite ?skipn_map, ?firstn_map.
Qed.

Lemma select_task_swept i w :
  select_task i (swept w)
  = sweep_row (clock w (ticks w) - expiryMs) <$> select_task i w.
Proof.
  unfold select_task. rewrite tasks_swept. apply find_id_map.
  intros t. apply sweep_row_keeps.
Qed.

Lemma map_id_sweep cutoff (l : list Task) :
  map id (map (sweep_row cutoff) l) = map id l.
Proof. rewrite map_map. apply map_ext. intros t. apply sweep_row_keeps. Qed.

(** X14.  Listing is not read-only: every call of [listTasks] first clears,
    on all rows of the store and not only on those it returns, each lease
    whose [locked_at] is more than 30 minutes before the clock's reading.
    No returned row and no stored row carries an older lease afterwards.
    The sweep is silent: it changes neither [version] nor [updated_at], and
    a row without such a lease is left exactly as it was. *)
Theorem listTasks_sweeps_leases (w : World) (f : Filter.TaskFilter) :
  ∃ rows w',
    listTasks f w = (inr rows, w')
    ∧ (∀ t la, t ∈ rows ∨ t ∈ tasks w' → locked_at t = Some la →
               clock w (ticks w) - la <= expiryMs)
    ∧ map id (tasks w') = map id (tasks w)
    ∧ (∀ i old, select_task i w = Some old →
         ∃ new, select_task i w' = Some new
                ∧ version new = version old ∧ updated_at new = updated_at old
                ∧ status new = status old ∧ title new = title old
                ∧ metadata new = metadata old
                ∧ (∀ la, locked_at old = Some la →
                         expiryMs < clock w (ticks w) - la →
                         locked_by new = None ∧ locked_at new = None)
                ∧ ((∀ la, locked_at old = Some la →
                          clock w (ticks w) - la <= expiryMs) → new = old)).
Proof.
  eexists _, _. split; [apply listTasks_rows|].
  set (cutoff := clock w (ticks w) - expiryMs).
  assert (Hfresh : ∀ t la, t ∈ map (sweep_row cutoff) (tasks w) →
            locked_at t = Some la → clock w (ticks w) - la <= expiryMs).
  { intros t la Ht Hla.
    apply list_elem_of_In, in_map_iff in Ht as (old & <- & _).
    apply (sweep_row_lease cutoff old) in Hla as [Hge _]. unfold cutoff in Hge. lia. }
  split; [|split].
  - intros t la [Ht|Ht] Hla.
    + apply (Hfresh t la); [|done].
      apply list_elem_of_In, in_map_iff in Ht as (old & <- & Hin).
      apply list_elem_of_In, in_map.
      assert (old ∈ merge_sort task_order (matching f w)) as Hm.
      { eapply elem_of_sublist; [by apply list_elem_of_In|].
        apply sql_limit_offset_sublist. }
      rewrite merge_sort_Permutation in Hm.
      apply elem_of_filter_bool in Hm as [Hm _]. by apply list_elem_of_In.
    + rewrite tasks_swept in Ht. by apply (Hfresh t la).
  - rewrite tasks_swept. apply map_id_sweep.
  - intros i old Hsel. exists (sweep_row cutoff old).
    rewrite select_task_swept, Hsel. split; [done|].
    destruct (sweep_row_keeps cutoff old) as (_&Hv&Hu&Ht&_&Hs&_&_&_&_&Hm).
    do 5 (split; [done|]).
    destruct (sweep_row_lease cutoff old) as (_ & Hold & Hkeep).
    split.
    + intros la Hla Hexp. apply (Hold la Hla). unfold cutoff. lia.
    + intros Hall. apply Hkeep. intros la Hla. specialize (Hall la Hla).
      unfold cutoff. lia.
Qed.

Lemma listTasks_sweeps_leases_witness :
  ∃ row w', listTasks Filter.empty (held_world (10000000 - 1860000)) = (inr [row], w')
            ∧ locked_by row = None ∧ locked_at row = None ∧ version row = 2
            ∧ tasks w' = [row].
Proof.
  destruct (listTasks_sweeps_leases (held_world (10000000 - 1860000)) Filter.empty)
    as (rows & w' & Hr & _ & _ & Hsel).
  destruct (Hsel "a" _ eq_refl) as (new & Hnew & Hv & _ & _ & _ & _ & Hold & _).
  destruct (Hold _ eq_refl) as [Hlb Hla]; [vm_compute; reflexivity|].
  exists new, w'.
  assert (Hw : w' = snd (listTasks Filter.empty (held_world (10000000 - 1860000))))
    by (by rewrite Hr).
  assert (Hrows : rows = [new]).
  { assert (inr rows = fst (listTasks Filter.empty
                              (held_world (10000000 - 1860000)))) as Hf
      by (by rewrite Hr).
    rewrite Hw in Hnew. vm_compute in Hnew. vm_compute in Hf.
    injection Hnew as <-. by injection Hf as ->. }
  rewrite <- Hrows. split; [exact Hr|]. split; [exact Hlb|]. split; [exact Hla|].
  split; [exact Hv|].
  rewrite Hrows, Hw. rewrite Hw in Hnew. vm_compute in Hnew. injection Hnew as <-.
  vm_compute. reflexivity.
Defined.

Lemma ranked_swept f w : ranked f (swept w) = ranked f w.
Proof.
  unfold ranked. rewrite matching_swept.
  rewrite merge_sort_map by apply sweep_row_order. apply map_id_sweep.
Qed.

Lemma ranked_paged f lim off w : ranked (paged f lim off) w = ranked f w.
Proof. reflexivity. Qed.

(** The ids [listTasks] returns, read off the store it was called on. *)
Lemma listTasks_ids f w :
  ∃ rows, listTasks f w = (inr rows, swept w)
          ∧ map id rows
            = sql_limit_offset (limitVal f) (offsetVal f) (ranked f w).
Proof.
  eexists. split; [apply listTasks_rows|].
  rewrite map_id_sweep. unfold ranked, sql_limit_offset.
  destruct (_ <? 0); by rewrite ?skipn_map, ?firstn_map.
Qed.

Lemma take_add_drop {A} (a b : nat) (l : list A) :
  take (a + b)%nat l = take a l ++ take b (drop a l).
Proof.
  revert l. induction a as [|a IH]; intros l; [done|].
  destruct l as [|x l]; [by destruct b|].
  cbn [Nat.add take drop app]. by rewrite IH.
Qed.

(** X15.  Pages fit together.  Three calls of [listTasks] in a row with the
    same filter, the first for [a] rows from offset [o], the second for [b]
    rows from offset [o + a], the third for [a + b] rows from offset [o]:
    the third returns the tasks of the first page followed by those of the
    second, whatever leases the calls swept in between. *)
Theorem listTasks_pages (w : World) (f : Filter.TaskFilter) (a b o : Z) :
  0 < a → 0 < b → 0 <= o →
  ∃ page1 w1 page2 w2 both w3,
    listTasks (paged f a o) w = (inr page1, w1)
    ∧ listTasks (paged f b (o + a)) w1 = (inr page2, w2)
    ∧ listTasks (paged f (a + b) o) w2 = (inr both, w3)
    ∧ map id both = map id page1 ++ map id page2
    ∧ map id page1 = take (Z.to_nat a) (drop (Z.to_nat o) (ranked f w))
    ∧ (length page1 ≤ Z.to_nat a)%nat.
Proof.
  intros Ha Hb Ho.
  destruct (listTasks_ids (paged f a o) w) as (page1 & Hr1 & Hi1).
  destruct (listTasks_ids (paged f b (o + a)) (swept w)) as (page2 & Hr2 & Hi2).
  destruct (listTasks_ids (paged f (a + b) o) (swept (swept w)))
    as (both & Hr3 & Hi3).
  exists page1, (swept w), page2, (swept (swept w)), both,
    (swept (swept (swept w))).
  do 3 (split; [done|]).
  rewrite !ranked_paged in Hi1, Hi2, Hi3.
  assert (Hlim : ∀ n off, 0 < n → limitVal (paged f n off) = n).
  { intros n off Hn. unfold limitVal, paged. cbn [Filter.limit].
    destruct (Z.eqb_spec n 0); [lia|done]. }
  rewrite Hlim in Hi1, Hi2, Hi3 by lia.
  unfold sql_limit_offset, offsetVal, paged in Hi1, Hi2, Hi3.
  cbn [Filter.offset] in Hi1, Hi2, Hi3.
  destruct (Z.ltb_spec a 0); [lia|]. destruct (Z.ltb_spec b 0); [lia|].
  destruct (Z.ltb_spec (a + b) 0); [lia|].
  split; [|split; [done|]].
  - rewrite Hi1, Hi2, Hi3.
    rewrite !Z2Nat.inj_add by lia.
    by rewrite take_add_drop, drop_drop, !ranked_swept.
  - rewrite <- (length_map id page1), Hi1, length_take. lia.
Qed.

Lemma listTasks_pages_witness :
  ∃ page1 w1 page2 w2 both w3,
    listTasks (paged Filter.empty 1 0) sample_world = (inr page1, w1)
    ∧ listTasks (paged Filter.empty 2 1) w1 = (inr page2, w2)
    ∧ listTasks (paged Filter.empty 3 0) w2 = (inr both, w3)
    ∧ map id both = map id page1 ++ map id page2
    ∧ map id page1 = ["b"].
Proof.
  destruct (listTasks_pages sample_world Filter.empty 1 2 0)
    as (page1 & w1 & page2 & w2 & both & w3 & H1 & H2 & H3 & Hcat & Hfirst & _);
    [lia|lia|lia|].
  exists page1, w1, page2, w2, both, w3.
  do 4 (split; [assumption|]).
  rewrite Hfirst. vm_compute. reflexivity.
Defined.

(** X16.  A negative [limit] lifts the cap: [listTasks] then returns every
    row the filter selects from the offset on, however many there are, in
    the usual order; only a missing or zero [limit] means 100. *)
Theorem listTasks_negative_limit (w : World) (f : Filter.TaskFilter) (n : Z) :
  Filter.limit f = Some n → n < 0 →
  ∃ rows, listTasks f w = (inr rows, swept w)
          ∧ map id rows = drop (Z.to_nat (offsetVal f)) (ranked f w)
          ∧ length rows
            = (length (matching f w) - Z.to_nat (offsetVal f))%nat.
Proof.
  intros Hn Hneg.
  destruct (listTasks_ids f w) as (rows & Hr & Hi).
  exists rows. split; [done|].
  assert (limitVal f = n) as Hlim.
  { unfold limitVal. rewrite Hn. destruct (Z.eqb_spec n 0); [lia|done]. }
  unfold sql_limit_offset in Hi. rewrite Hlim in Hi.
  destruct (Z.ltb_spec n 0); [|lia].
  split; [done|].
  rewrite <- (length_map id rows), Hi, length_drop. unfold ranked.
  by rewrite length_map, merge_sort_Permutation.
Qed.

Lemma listTasks_negative_limit_witness :
  ∃ rows, listTasks (with_limit (-1)) crowded_world = (inr rows, swept crowded_world)
          ∧ length rows = 150%nat.
Proof.
  destruct (listTasks_negative_limit crowded_world (with_limit (-1)) (-1) eq_refl)
    as (rows & Hr & _ & Hlen); [lia|].
  exists rows. split; [exact Hr|]. rewrite Hlen. vm_compute. reflexivity.
Defined.
(* ===================================================================== *)
(** ** searchTasks *)
(* ===================================================================== *)

Lemma search_where_swept w q pid cutoff t :
  search_where (swept w) q pid (sweep_row cutoff t) = search_where w q pid t.
Proof.
  unfold search_where. rewrite task_tags_swept.
  destruct (sweep_row_keeps cutoff t) as (->&_&_&->&->&_&_&_&->&_).
  done.
Qed.

Lemma clearExpiredLocks_swept w : clearExpiredLocks w = (inr tt, swept w).
Proof. unfold swept. by rewrite clearExpiredLocks_run. Qed.

(** [searchTasks] in closed form. *)
Lemma searchTasks_run q pid w :
  searchTasks q pid w
  = (inr (map (sweep_row (clock w (ticks w) - expiryMs))
            (merge_sort task_order (found q pid w))),
     swept w).
Proof.
  unfold searchTasks. step_bind. rewrite clearExpiredLocks_swept.
  unfold gets, found. f_equal. f_equal.
  rewrite tasks_swept.
  rewrite (filter_map_ext _ (search_where w q pid))
    by (intros t; apply search_where_swept).
  by rewrite merge_sort_map by apply sweep_row_order.
Qed.

Lemma search_where_contains w q pid t :
  (∃ a b, title t = a +:+ q +:+ b)
  ∨ (∃ a b, description t = Some (a +:+ q +:+ b))
  ∨ (∃ a b, (id t, a +:+ q +:+ b) ∈ task_tags w) →
  (truthy_ostring pid = true → project_id t = pid) →
  search_where w q pid t = true.
Proof.
  intros Hhit Hproj. unfold search_where. apply andb_true_iff. split.
  - destruct Hhit as [(a & b & ->)|[(a & b & ->)|(a & b & Hin)]].
    + by rewrite sql_like_contains.
    + cbn [like_null]. by rewrite sql_like_contains, orb_true_r.
    + apply orb_true_iff. right. apply existsb_exists.
      exists (id t, a +:+ q +:+ b). split; [by apply list_elem_of_In|].
      cbn [fst snd]. by rewrite String.eqb_refl, sql_like_contains.
  - destruct (truthy_ostring pid) eqn:Hp; [|done].
    rewrite (Hproj eq_refl). destruct pid as [p|]; [|done].
    cbn [sql_eq default]. apply String.eqb_refl.
Qed.

(** X17.  [searchTasks] sweeps expired leases like [listTasks] and returns,
    in the order of [listTasks] (priority rank, then newest first) and with
    no limit, every row the search selects: as many rows as the store has
    matches, each the stored row of a match. *)
Theorem searchTasks_sorted_unbounded (w : World) (q : string)
    (pid : option string) :
  ∃ rows,
    searchTasks q pid w = (inr rows, swept w)
    ∧ StronglySorted task_order rows
    ∧ length rows = length (found q pid w)
    ∧ map id rows ≡ₚ map id (found q pid w)
    ∧ (∀ t, t ∈ rows →
            t ∈ tasks (swept w) ∧ search_where (swept w) q pid t = true).
Proof.
  eexists. split; [apply searchTasks_run|].
  set (cutoff := clock w (ticks w) - expiryMs).
  split; [|split; [|split]].
  - rewrite <- merge_sort_map by apply sweep_row_order.
    apply StronglySorted_merge_sort; apply _.
  - by rewrite length_map, merge_sort_Permutation.
  - by rewrite map_id_sweep, merge_sort_Permutation.
  - intros t Ht.
    apply list_elem_of_In, in_map_iff in Ht as (old & <- & Hin).
    apply list_elem_of_In in Hin. rewrite merge_sort_Permutation in Hin.
    apply elem_of_filter_bool in Hin as [Hin Hm]. split.
    + rewrite tasks_swept. by apply list_elem_of_In, in_map, list_elem_of_In.
    + by rewrite search_where_swept.
Qed.

(** X18.  [searchTasks] finds what contains the query: every stored task
    whose title, description or one of whose tag rows contains the query
    as a substring, character for character (and which is in the project,
    when one is given), is among the rows returned.  With the empty query
    and no project every task of the store is returned. *)
Theorem searchTasks_finds (w : World) (q : string) (pid : option string) :
  ∃ rows,
    searchTasks q pid w = (inr rows, swept w)
    ∧ (∀ t, t ∈ tasks w →
         (∃ a b, title t = a +:+ q +:+ b)
         ∨ (∃ a b, description t = Some (a +:+ q +:+ b))
         ∨ (∃ a b, (id t, a +:+ q +:+ b) ∈ task_tags w) →
         (truthy_ostring pid = true → project_id t = pid) →
         ∃ r, r ∈ rows ∧ id r = id t ∧ title r = title t)
    ∧ (q = "" → pid = None → map id rows ≡ₚ map id (tasks w)).
Proof.
  eexists. split; [apply searchTasks_run|].
  set (cutoff := clock w (ticks w) - expiryMs). split.
  - intros t Hin Hhit Hproj. exists (sweep_row cutoff t).
    destruct (sweep_row_keeps cutoff t) as (Hid & _ & _ & Ht & _).
    split; [|done].
    apply list_elem_of_In, in_map, list_elem_of_In.
    rewrite merge_sort_Permutation. apply elem_of_filter_bool.
    split; [done|]. by apply search_where_contains.
  - intros -> ->. rewrite map_id_sweep, merge_sort_Permutation.
    unfold found. rewrite filter_all; [done|].
    intros t _. apply (search_where_contains w "" None t); [|done].
    left. exists "", (title t). reflexivity.
Qed.

Lemma searchTasks_finds_witness :
  ∃ rows, searchTasks "login" None searched_world = (inr rows, swept searched_world)
          ∧ (∃ r, r ∈ rows ∧ id r = "t1" ∧ title r = "Fix login bug")
          ∧ map id rows = ["t2"; "t3"; "t1"].
Proof.
  destruct (searchTasks_finds searched_world "login" None) as (rows & Hr & Hfind & _).
  exists rows. split; [exact Hr|]. split.
  - apply (Hfind (mkTask "t1" None None None None "Fix login bug" None pending low
                    None None None None [] ∅ 1 None None 100 100 None)).
    + set_solver.
    + left. exists "Fix ", " bug". reflexivity.
    + discriminate.
  - assert (inr rows = fst (searchTasks "login" None searched_world)) as Hf
      by (by rewrite Hr).
    vm_compute in Hf. injection Hf as ->. reflexivity.
Defined.
(* ===================================================================== *)
(** ** createTask and the tag index *)
(* ===================================================================== *)

Lemma insertTaskTags_run taskId tgs w :
  insertTaskTags taskId tgs w
  = (inr tt, set_task_tags (tagged taskId tgs) w).
Proof. reflexivity. Qed.

Lemma find_fresh_none (i : string) (l : list Task) :
  i ∉ map id l → List.find (λ t, String.eqb (id t) i) l = None.
Proof.
  induction l as [|r l IH]; [done|]. cbn [map List.find].
  intros [Hne Hl]%not_elem_of_cons.
  destruct (String.eqb_spec (id r) i) as [E|_]; [congruence|by apply IH].
Qed.

Lemma find_app_fresh (i : string) (l : list Task) (row : Task) :
  i ∉ map id l → id row = i →
  List.find (λ t, String.eqb (id t) i) (l ++ [row]) = Some row.
Proof.
  intros Hl Hid. induction l as [|r l IH].
  - cbn [app List.find]. by rewrite Hid, String.eqb_refl.
  - cbn [map] in Hl. apply not_elem_of_cons in Hl as [Hne Hl].
    cbn [app List.find].
    destruct (String.eqb_spec (id r) i) as [E|_]; [congruence|by apply IH].
Qed.

Lemma find_app_other (j : string) (l : list Task) (row : Task) :
  id row ≠ j →
  List.find (λ t, String.eqb (id t) j) (l ++ [row])
  = List.find (λ t, String.eqb (id t) j) l.
Proof.
  intros Hne. induction l as [|r l IH].
  - cbn [app List.find]. by destruct (String.eqb_spec (id row) j).
  - cbn [app List.find]. by destruct (String.eqb (id r) j).
Qed.

(** [createTask] in closed form. *)
Lemma createTask_run input w :
  createTask input w =
  let i := uuids w (minted w) in
  let w1 := set_ticks (S (ticks w)) (set_minted (S (minted w)) w) in
  let row := created_row input i (clock w (ticks w)) in
  if insertable w input
  then (inr (Some row),
        set_task_tags (tagged i (default [] (Create.tags input)))
          (set_tasks (fun rows => rows ++ [row]) w1))
  else (inl (SQLiteError
               (match Create.priority input with
                | Some p_other => "CHECK constraint failed: priority"
                | _ => if bool_decide (i ∈ map id (tasks w))
                       then "UNIQUE constraint failed: tasks.id"
                       else "FOREIGN KEY constraint failed"
                end)), w1).
Proof.
  assert (Hok : ∀ p : TaskPriority,
    bool_decide (uuids w (minted w) ∈ map id (tasks w)) = false →
    fk_present (or_null (Create.project_id input)) (projects w)
    && fk_present (or_null (Create.parent_id input)) (map id (tasks w))
    && fk_present (or_null (Create.plan_id input)) (plans w)
    && fk_present (or_null (Create.task_list_id input)) (task_lists w) = true →
    let row := mkTask (uuids w (minted w))
      (or_null (Create.project_id input)) (or_null (Create.parent_id input))
      (or_null (Create.plan_id input)) (or_null (Create.task_list_id input))
      (Create.title input) (or_null (Create.description input))
      (default pending (Create.status input)) p
      (or_null (Create.agent_id input)) (or_null (Create.assigned_to input))
      (or_null (Create.session_id input)) (or_null (Create.working_dir input))
      (default [] (Create.tags input)) (default ∅ (Create.metadata input))
      1 None None (clock w (ticks w)) (clock w (ticks w)) None in
    (_ ← sql_insert_task row true;
     _ ← (if bool_decide (default [] (Create.tags input) = []) then ret tt
          else insertTaskTags (uuids w (minted w)) (default [] (Create.tags input)));
     getTask (uuids w (minted w)))
      (set_ticks (S (ticks w)) (set_minted (S (minted w)) w))
    = (inr (Some row),
       set_task_tags (tagged (uuids w (minted w)) (default [] (Create.tags input)))
         (set_tasks (fun rows => rows ++ [row])
            (set_ticks (S (ticks w)) (set_minted (S (minted w)) w))))).
  { intros p Hu Hfk. cbv zeta. apply bool_decide_eq_false in Hu.
    unfold sql_insert_task. repeat unfold mbind, M_bind, bind.
    cbn [negb id project_id parent_id plan_id task_list_id tasks projects plans
         task_lists set_minted set_ticks].
    rewrite bool_decide_eq_false_2 by done. rewrite Hfk.
    assert (Hsel : ∀ W row, tasks W = tasks w ++ [row] →
              id row = uuids w (minted w) →
              getTask (uuids w (minted w)) W = (inr (Some row), W)).
    { intros W row HW Hid. unfold getTask, gets, select_task. rewrite HW.
      by rewrite find_app_fresh. }
    destruct (default [] (Create.tags input)) as [|tg tgs] eqn:Htags.
    - rewrite bool_decide_eq_true_2 by done. unfold ret.
      erewrite Hsel by reflexivity. reflexivity.
    - rewrite bool_decide_eq_false_2 by done. rewrite insertTaskTags_run.
      erewrite Hsel by reflexivity. reflexivity. }
  unfold createTask, uuid, now, Date_now, insertable. cbv zeta.
  step_bind. cbn [fst snd]. step_bind.
  cbn [fst snd ticks clock minted uuids set_minted set_ticks].
  unfold created_row.
  destruct (Create.priority input) as [[p|]|] eqn:Hp; cbn [is_null negb default andb].
  - destruct (bool_decide (uuids w (minted w) ∈ map id (tasks w))) eqn:Hu.
    + cbn [negb andb]. unfold sql_insert_task. step_bind.
      cbn [negb id tasks set_minted set_ticks]. by rewrite Hu.
    + cbn [negb andb].
      destruct (fk_present _ _ && _ && _ && _) eqn:Hfk.
      * by apply Hok.
      * unfold sql_insert_task. step_bind.
        cbn [negb id project_id parent_id plan_id task_list_id tasks projects
             plans task_lists set_minted set_ticks].
        by rewrite Hu, Hfk.
  - reflexivity.
  - destruct (bool_decide (uuids w (minted w) ∈ map id (tasks w))) eqn:Hu.
    + cbn [negb andb]. unfold sql_insert_task. step_bind.
      cbn [negb id tasks set_minted set_ticks]. by rewrite Hu.
    + cbn [negb andb].
      destruct (fk_present _ _ && _ && _ && _) eqn:Hfk.
      * by apply Hok.
      * unfold sql_insert_task. step_bind.
        cbn [negb id project_id parent_id plan_id task_list_id tasks projects
             plans task_lists set_minted set_ticks].
        by rewrite Hu, Hfk.
Qed.

(** X19.  When the insert is accepted (the priority is one of the four, the
    id drawn is not taken, the project, parent, plan and task list named
    exist), [createTask] appends one row and returns it: the id drawn, the
    input's fields with an empty string stored as [NULL], status [pending]
    and priority [medium] unless given, version 1, no lease,
    [created_at = updated_at] the clock's reading, and [completed_at]
    [NULL] whatever the status.  [getTask] finds the row, every other row
    is as it was, and ids stay unique. *)
Theorem createTask_creates (w : World) (input : Create.CreateTaskInput) :
  insertable w input = true →
  ∃ new w',
    createTask input w = (inr (Some new), w')
    ∧ new = created_row input (uuids w (minted w)) (clock w (ticks w))
    ∧ select_task (id new) w' = Some new
    ∧ tasks w' = tasks w ++ [new]
    ∧ version new = 1
    ∧ locked_by new = None ∧ locked_at new = None ∧ completed_at new = None
    ∧ created_at new = clock w (ticks w) ∧ updated_at new = clock w (ticks w)
    ∧ status new = default pending (Create.status input)
    ∧ (Create.priority input = None → priority new = medium)
    ∧ (Create.description input = Some "" → description new = None)
    ∧ (∀ j, j ≠ id new → select_task j w' = select_task j w)
    ∧ (pk_unique w → pk_unique w').
Proof.
  intros Hins. rewrite createTask_run. cbv zeta. rewrite Hins.
  assert (Hfresh : uuids w (minted w) ∉ map id (tasks w)).
  { unfold insertable in Hins.
    do 4 (apply andb_true_iff in Hins as [Hins _]).
    apply andb_true_iff in Hins as [_ Hins].
    by apply negb_true_iff, bool_decide_eq_false in Hins. }
  eexists _, _. split; [reflexivity|]. split; [reflexivity|].
  split.
  { unfold select_task.
    cbn [tasks set_tasks set_task_tags set_ticks set_minted].
    by apply find_app_fresh. }
  split; [reflexivity|]. do 7 (split; [reflexivity|]).
  split; [intros Hp; cbn [created_row priority]; by rewrite Hp|].
  split; [intros Hd; cbn [created_row description]; by rewrite Hd|]. split.
  - intros j Hj. unfold select_task.
    cbn [tasks set_tasks set_task_tags set_ticks set_minted].
    apply find_app_other. by intros E; apply Hj.
  - unfold pk_unique. cbn [tasks set_tasks set_task_tags set_ticks set_minted].
    intros Hnd. rewrite map_app. apply NoDup_app. split; [done|].
    split; [|apply NoDup_singleton].
    intros x Hx ->%list_elem_of_singleton. done.
Qed.

Lemma createTask_creates_witness :
  ∃ new w', createTask (titled "Write the release notes") sample_world
            = (inr (Some new), w')
            ∧ id new = "uuid-0" ∧ version new = 1 ∧ status new = pending
            ∧ priority new = medium
            ∧ select_task "uuid-0" w' = Some new
            ∧ select_task "a" w' = select_task "a" sample_world.
Proof.
  destruct (createTask_creates sample_world (titled "Write the release notes"))
    as (new & w' & Hr & -> & Hsel & _ & Hv & _ & _ & _ & _ & _ & Hs & Hp & _
        & Hother & _).
  { reflexivity. }
  eexists _, w'. split; [exact Hr|]. split; [reflexivity|].
  split; [exact Hv|]. split; [exact Hs|]. split; [by apply Hp|].
  split; [exact Hsel|]. apply Hother. discriminate.
Defined.



(* --------------------------------------------------------------------- *)
(** *** The tag index *)
(* --------------------------------------------------------------------- *)

Lemma elem_of_tagged i tgs rows j tag :
  (j, tag) ∈ tagged i tgs rows
  ↔ (j, tag) ∈ rows ∨ (j = i ∧ tag ∈ tgs ∧ tag ≠ "").
Proof.
  unfold tagged. revert rows. induction tgs as [|x tgs IH]; intros rows.
  - cbn [foldl]. set_solver.
  - cbn [foldl]. rewrite IH. unfold truthy_string.
    destruct (String.eqb_spec x "") as [->|Hx]; cbn [negb andb].
    + set_solver.
    + destruct (bool_decide _) eqn:Hd; cbn [negb].
      * apply bool_decide_eq_true in Hd. set_solver.
      * rewrite elem_of_app, list_elem_of_singleton. set_solver.
Qed.

Lemma elem_of_map_rows (h : Task → Task) (l : list Task) (t' : Task) :
  t' ∈ map h l ↔ ∃ t, t ∈ l ∧ t' = h t.
Proof.
  rewrite list_elem_of_In, in_map_iff. split.
  - intros (t & <- & Hin). exists t. by rewrite list_elem_of_In.
  - intros (t & Hin & ->). exists t. by rewrite <- list_elem_of_In.
Qed.

(** An operation that rewrites rows in place without touching their ids,
    their tags or table [task_tags] keeps the index. *)
Lemma tags_indexed_rows w w' (h : Task → Task) :
  tags_indexed w →
  tasks w' = map h (tasks w) → task_tags w' = task_tags w →
  (∀ t, id (h t) = id t ∧ tags (h t) = tags t) →
  tags_indexed w'.
Proof.
  intros Hidx Ht Hg Hh j tag. rewrite Hg, Ht, (Hidx j tag). split.
  - intros (t & Hin & Hid & Htag & Hne). exists (h t).
    destruct (Hh t) as [-> ->]. split; [|done].
    apply elem_of_map_rows. by exists t.
  - intros (t' & (t & Hin & ->)%elem_of_map_rows & Hid & Htag & Hne).
    destruct (Hh t) as [Hi Htg]. rewrite Hi in Hid. rewrite Htg in Htag.
    by exists t.
Qed.

(** Rewriting the tags of the rows under [i] together with their rows of
    [task_tags] keeps the index. *)
Lemma tags_indexed_retag w w' (h : Task → Task) i tgs :
  tags_indexed w →
  tasks w' = map h (tasks w) →
  (∀ t, id (h t) = id t) →
  (∀ t, t ∈ tasks w → id t ≠ i → tags (h t) = tags t) →
  (∀ t, t ∈ tasks w → id t = i → tags (h t) = tgs) →
  (∃ t, t ∈ tasks w ∧ id t = i) →
  task_tags w'
  = tagged i tgs (List.filter (fun r => negb (String.eqb (fst r) i)) (task_tags w)) →
  tags_indexed w'.
Proof.
  intros Hidx Ht Hid Hother Hmine (t0 & Hin0 & Hid0) Hg j tag.
  rewrite Hg, Ht, elem_of_tagged, elem_of_filter_bool, (Hidx j tag).
  cbn [fst]. rewrite negb_true_iff. split.
  - intros [[(t & Hin & Hti & Htag & Hne) Hji]|(-> & Htag & Hne)].
    + apply String.eqb_neq in Hji. exists (h t).
      split; [apply elem_of_map_rows; by exists t|].
      rewrite Hid, Hother by congruence. done.
    + exists (h t0). split; [apply elem_of_map_rows; by exists t0|].
      by rewrite Hid, (Hmine t0).
  - intros (t' & (t & Hin & ->)%elem_of_map_rows & Hti & Htag & Hne).
    rewrite Hid in Hti. destruct (decide (j = i)) as [->|Hji].
    + right. rewrite (Hmine t Hin Hti) in Htag. done.
    + left. split; [|by apply String.eqb_neq].
      rewrite Hother in Htag by congruence. by exists t.
Qed.

Lemma replaceTaskTags_run i tgs w :
  replaceTaskTags i tgs w
  = (inr tt,
     set_task_tags
       (fun rows => tagged i tgs
          (List.filter (fun r => negb (String.eqb (fst r) i)) rows)) w).
Proof. by destruct w. Qed.

(** X21.  [updateTask] keeps the tag index: on a store with unique ids
    where table [task_tags] says what the [tags] columns say, it still does
    after the call, whether the call returns or throws, and whether the
    patch names [tags] or not; ids stay unique. *)
Theorem updateTask_keeps_tag_index (w w' : World) (i : string)
    (input : Input.UpdateTaskInput) (r : Error + option Task) :
  pk_unique w → tags_indexed w →
  updateTask i input w = (r, w') →
  tags_indexed w' ∧ pk_unique w'.
Proof.
  intros Hpk Hidx. rewrite updateTask_run.
  destruct (select_task i w) as [task|] eqn:Hsel; [|by intros [= _ <-]].
  destruct (Z.eqb_spec (version task) (Input.version input)) as [Hv|Hv];
    cbn [negb]; [|by intros [= _ <-]].
  destruct (refs_exist w input); [|by intros [= _ <-]].
  intros [= _ <-].
  set (h := row_update (update_sets input (clock w (ticks w)) (done_reading input w))
                       (update_where i (Input.version input))).
  assert (Hid := select_task_id _ _ _ Hsel).
  assert (Hin : task ∈ tasks w).
  { apply list_elem_of_In. unfold select_task in Hsel.
    by apply find_some in Hsel as [? _]. }
  assert (Hh : ∀ t, id (h t) = id t) by (intros; apply row_update_id).
  assert (Hother : ∀ t, id t ≠ i → h t = t).
  { intros t Hne. apply row_update_miss. unfold update_where.
    by destruct (String.eqb_spec (id t) i). }
  assert (Hmine : ∀ t, t ∈ tasks w → id t = i →
            tags (h t) = default (tags t) (Input.tags input)).
  { intros t Ht Hti.
    assert (t = task) as ->.
    { apply list_elem_of_In in Ht.
      pose proof (select_unique _ _ Hpk Ht) as Hu.
      unfold select_task in Hsel. rewrite Hti, Hsel in Hu. by injection Hu. }
    unfold h. rewrite row_update_hit.
    - by rewrite apply_update_sets.
    - unfold update_where. rewrite Hid, String.eqb_refl, Hv. by rewrite Z.eqb_refl. }
  assert (Htasks : tasks (after_update i input w) = map h (tasks w))
    by apply tasks_after_update.
  split.
  - unfold after_update in *. destruct (Input.tags input) as [tgs|] eqn:Htg.
    + rewrite replaceTaskTags_run in *. cbn [snd] in *.
      apply (tags_indexed_retag w _ h i tgs); try done.
      * intros t _ Hne. by rewrite Hother.
      * by exists task.
    + apply (tags_indexed_rows w _ h); try done.
      intros t. split; [done|].
      unfold h, row_update. destruct (update_where _ _ t); [|done].
      rewrite apply_update_sets. unfold patched. cbn [tags]. by rewrite Htg.
  - unfold pk_unique. rewrite Htasks. unfold h. by rewrite map_id_row_update.
Qed.

Lemma tagged_world_indexed : pk_unique tagged_world ∧ tags_indexed tagged_world.
Proof.
  split; [unfold pk_unique; cbn; repeat constructor; set_solver|].
  intros i tag. unfold tagged_world. cbn [task_tags tasks]. split.
  - intros Hin. repeat (apply elem_of_cons in Hin as [[= -> ->]|Hin]).
    + eexists. split; [by left|]. cbn. split; [done|]. split; [set_solver|done].
    + eexists. split; [by left|]. cbn. split; [done|]. split; [set_solver|done].
    + set_solver.
  - intros (t & Ht & <- & Htag & Hne).
    repeat (apply elem_of_cons in Ht as [->|Ht]); cbn in *; set_solver.
Qed.

Lemma updateTask_keeps_tag_index_witness :
  ∃ r w', updateTask "a" (retag ["docs"; ""; "docs"] 1) tagged_world = (r, w')
          ∧ task_tags w' = [("a", "docs")]
          ∧ tags_indexed w'.
Proof.
  eexists _, _. split; [reflexivity|]. split; [reflexivity|].
  destruct tagged_world_indexed as [Hpk Hidx].
  apply (updateTask_keeps_tag_index tagged_world _ "a"
           (retag ["docs"; ""; "docs"] 1) _ Hpk Hidx eq_refl).
Defined.

Lemma deleteTask_fields i w r w' :
  deleteTask i w = (r, w') →
  ∃ alive : string → bool,
    tasks w' = List.filter (fun t => alive (id t)) (tasks w)
    ∧ task_tags w' = List.filter (fun r => alive (fst r)) (task_tags w).
Proof.
  rewrite deleteTask_run. destruct (select_task i w).
  - cbv zeta. intros [= _ <-].
    by exists (fun k => negb (bool_decide
                (k ∈ cascade (length (tasks w)) (tasks w) {[i]}))).
  - intros [= _ <-]. exists (fun _ => true).
    by rewrite !filter_all.
Qed.

(** X22.  [createTask] and [deleteTask] keep the tag index: if table
    [task_tags] says what the [tags] columns say, it still does after
    either call, whether the call succeeds or not. *)
Theorem createTask_deleteTask_keep_tag_index (w : World) :
  tags_indexed w →
  (∀ input r w', createTask input w = (r, w') → tags_indexed w')
  ∧ (∀ i r w', deleteTask i w = (r, w') → tags_indexed w').
Proof.
  intros Hidx. split.
  - intros input r w'. rewrite createTask_run. cbv zeta.
    destruct (insertable w input); intros [= _ <-]; [|exact Hidx].
    intros j tag.
    cbn [tasks task_tags set_tasks set_task_tags set_ticks set_minted].
    rewrite elem_of_tagged, (Hidx j tag). split.
    + intros [(t & Ht & Hrest)|(-> & Htag & Hne)].
      * exists t. split; [set_solver|done].
      * eexists. split; [apply elem_of_app; right; by left|]. done.
    + intros (t & [Ht|Ht]%elem_of_app & Hid & Htag & Hne).
      * left. by exists t.
      * apply list_elem_of_singleton in Ht as ->. right. done.
  - intros i r w' (alive & Ht & Hg)%deleteTask_fields j tag.
    rewrite Hg, Ht, elem_of_filter_bool, (Hidx j tag). cbn [fst]. split.
    + intros [(t & Hin & <- & Hrest) Hal]. exists t.
      split; [by apply elem_of_filter_bool|done].
    + intros (t & [Hin Hal]%elem_of_filter_bool & <- & Hrest).
      split; [by exists t|done].
Qed.

Lemma createTask_deleteTask_keep_tag_index_witness :
  tags_indexed (snd (createTask
     (Create.mk "task c" None None None None None None None None None None None
        (Some ["ui"; "new"]) None) tagged_world))
  ∧ tags_indexed (snd (deleteTask "a" tagged_world)).
Proof.
  destruct (createTask_deleteTask_keep_tag_index tagged_world
              (proj2 tagged_world_indexed)) as [Hc Hd].
  split.
  - eapply Hc. apply surjective_pairing.
  - eapply Hd. apply surjective_pairing.
Defined.

Lemma elem_of_backfill (l : list Task) rows j tag :
  (j, tag) ∈ foldl (fun acc row => tagged (id row) (tags row) acc) rows l
  ↔ (j, tag) ∈ rows ∨ ∃ t, t ∈ l ∧ id t = j ∧ tag ∈ tags t ∧ tag ≠ "".
Proof.
  revert rows. induction l as [|t l IH]; intros rows; cbn [foldl].
  - set_solver.
  - rewrite IH, elem_of_tagged. split.
    + intros [[?|(-> & ? & ?)]|(t' & ? & ?)]; [by left| |].
      * right. exists t. split; [by left|done].
      * right. exists t'. split; [by right|done].
    + intros [?|(t' & [->|?]%elem_of_cons & Hid & ? & ?)].
      * by left; left.
      * left; right. done.
      * right. by exists t'.
Qed.

(** X23.  [backfillTaskTags] never throws and never touches table [tasks].
    On an empty [task_tags] it builds the tag index: afterwards the table
    holds a row [(i, tag)] exactly for the non-empty tags of each task.  On
    a [task_tags] that has any row it changes nothing, in step or not. *)
Theorem backfillTaskTags_builds_index (w : World) :
  ∃ w', backfillTaskTags w = (inr tt, w')
        ∧ tasks w' = tasks w
        ∧ (task_tags w = [] → tags_indexed w')
        ∧ (task_tags w ≠ [] → w' = w).
Proof.
  unfold backfillTaskTags, modify. eexists. split; [reflexivity|].
  destruct (bool_decide (task_tags w = [])) eqn:He.
  - apply bool_decide_eq_true in He. split; [done|]. split; [|done].
    intros _ j tag. cbv zeta.
    cbn [tasks task_tags set_task_tags].
    fold (tagged). rewrite He.
    change (foldl _ [] ?l) with
      (foldl (fun acc row => tagged (id row) (tags row) acc) [] l).
    rewrite elem_of_backfill. split.
    + intros [?|(t & [Ht _]%elem_of_filter_bool & ?)]; [set_solver|].
      by exists t.
    + intros (t & Ht & Hid & Htag & Hne). right. exists t. split; [|done].
      apply elem_of_filter_bool. split; [done|].
      apply negb_true_iff, bool_decide_eq_false. intros E. rewrite E in Htag.
      set_solver.
  - apply bool_decide_eq_false in He. done.
Qed.

Lemma backfillTaskTags_builds_index_witness :
  ∃ w', backfillTaskTags (set_task_tags (fun _ => []) tagged_world) = (inr tt, w')
        ∧ task_tags w' = [("a", "ui"); ("a", "bug")]
        ∧ tags_indexed w'.
Proof.
  destruct (backfillTaskTags_builds_index
              (set_task_tags (fun _ => []) tagged_world))
    as (w' & Hr & _ & Hidx & _).
  exists w'. split; [exact Hr|]. split; [|by apply Hidx].
  replace w' with (snd (backfillTaskTags (set_task_tags (fun _ => []) tagged_world)))
    by (by rewrite Hr).
  reflexivity.
Defined.

Lemma pk_same w a b :
  pk_unique w → a ∈ tasks w → b ∈ tasks w → id a = id b → a = b.
Proof.
  intros Hpk Ha Hb Hid. apply list_elem_of_In in Ha, Hb.
  pose proof (select_unique _ _ Hpk Ha) as Hfa.
  pose proof (select_unique _ _ Hpk Hb) as Hfb.
  rewrite Hid, Hfb in Hfa. by injection Hfa.
Qed.

Lemma matches_tags w f tg tgs t :
  Filter.tags f = Some (tg :: tgs) →
  matches w f t = true →
  ∃ x, (id t, x) ∈ task_tags w ∧ x ∈ tg :: tgs.
Proof.
  intros Hf Hm. unfold matches in Hm. rewrite Hf in Hm.
  do 2 (apply andb_true_iff in Hm as [Hm _]).
  apply andb_true_iff in Hm as [_ Hm].
  apply existsb_exists in Hm as ([j x] & Hin & [Hj Hx]%andb_true_iff).
  cbn [fst snd] in *. apply String.eqb_eq in Hj as ->.
  apply bool_decide_eq_true in Hx. exists x. split; [|done].
  by apply list_elem_of_In.
Qed.

(** X24.  The tag filter of [listTasks] reads the index, and so, on a store
    with unique ids whose index is in step, the [tags] columns: whatever
    else the filter asks, every row returned carries at least one of the
    tags asked for, and an empty string never counts.  With only tags asked
    for, every stored task that carries one of them is selected (the first
    100 of them are returned), and an empty list of tags filters nothing. *)
Theorem listTasks_tag_filter (w : World) (tg : string) (tgs : list string) :
  pk_unique w → tags_indexed w →
  (∀ f rows w', Filter.tags f = Some (tg :: tgs) →
     listTasks f w = (inr rows, w') →
     ∀ t, t ∈ rows → ∃ x, x ∈ tg :: tgs ∧ x ∈ tags t ∧ x ≠ "")
  ∧ (∃ rows, listTasks (with_tags (tg :: tgs)) w = (inr rows, swept w)
       ∧ map id rows = take 100 (ranked (with_tags (tg :: tgs)) w)
       ∧ ∀ t, t ∈ tasks w →
              (∃ x, x ∈ tg :: tgs ∧ x ∈ tags t ∧ x ≠ "") →
              id t ∈ ranked (with_tags (tg :: tgs)) w)
  ∧ listTasks (with_tags []) w = listTasks Filter.empty w.
Proof.
  intros Hpk Hidx. split; [|split; [|reflexivity]].
  - intros f rows w' Hf. rewrite listTasks_rows. intros [= <- _] t Ht.
    apply elem_of_map_rows in Ht as (old & Hold & ->).
    assert (old ∈ matching f w) as Hm.
    { assert (old ∈ merge_sort task_order (matching f w)) as Hs.
      { eapply elem_of_sublist; [exact Hold|apply sql_limit_offset_sublist]. }
      by rewrite merge_sort_Permutation in Hs. }
    apply elem_of_filter_bool in Hm as [Hin Hm].
    destruct (matches_tags _ _ _ _ _ Hf Hm) as (x & Hx & Hxl).
    apply Hidx in Hx as (t0 & Ht0 & Hid & Htag & Hne).
    assert (t0 = old) as -> by (by apply (pk_same w)).
    exists x. split; [done|]. split; [|done].
    by destruct (sweep_row_keeps (clock w (ticks w) - expiryMs) old)
      as (_&_&_&_&_&_&_&_&_&->&_).
  - destruct (listTasks_ids (with_tags (tg :: tgs)) w) as (rows & Hr & Hi).
    exists rows. split; [done|]. split; [exact Hi|].
    intros t Ht (x & Hxl & Hxt & Hne). unfold ranked.
    apply list_elem_of_In, in_map, list_elem_of_In.
    rewrite merge_sort_Permutation. apply elem_of_filter_bool. split; [done|].
    unfold matches, with_tags.
    cbn [Filter.project_id Filter.parent_id Filter.plan_id Filter.task_list_id
         Filter.status Filter.priority Filter.assigned_to Filter.agent_id
         Filter.session_id Filter.tags cond_text cond_enum andb].
    rewrite !andb_true_r. apply existsb_exists. exists (id t, x).
    split.
    + apply list_elem_of_In, Hidx. by exists t.
    + cbn [fst snd]. rewrite String.eqb_refl. by apply bool_decide_eq_true.
Qed.

Lemma listTasks_tag_filter_witness :
  ∃ rows, listTasks (with_tags ["bug"; "api"]) tagged_world
          = (inr rows, swept tagged_world)
          ∧ map id rows = ["a"].
Proof.
  destruct tagged_world_indexed as [Hpk Hidx].
  destruct (proj1 (proj2 (listTasks_tag_filter tagged_world "bug" ["api"] Hpk Hidx)))
    as (rows & Hr & Hi & _).
  exists rows. split; [exact Hr|]. rewrite Hi. vm_compute. reflexivity.
Defined.
(* ===================================================================== *)
(** ** The conflict log, appended to repeatedly *)
(* ===================================================================== *)

Lemma sync_conflicts_append_any m entry limit :
  sync_conflicts (appendSyncConflict m entry limit)
  = take limit (entry :: sync_conflicts m).
Proof.
  unfold appendSyncConflict, sync_conflicts at 1. by rewrite lookup_insert_eq.
Qed.

Lemma take_app_take {A} (m n : nat) (pre l : list A) :
  (m ≤ n)%nat → take m (pre ++ take n l) = take m (pre ++ l).
Proof.
  revert m. induction pre as [|p pre IH]; intros m Hm; cbn [app].
  - rewrite take_take. f_equal. lia.
  - destruct m as [|m]; [done|]. cbn [take]. f_equal. apply IH. lia.
Qed.

Lemma sync_conflicts_appends m cs limit c :
  sync_conflicts (foldl (fun acc c => appendSyncConflict acc c limit) m (c :: cs))
  = take limit (reverse (c :: cs) ++ sync_conflicts m).
Proof.
  revert m c. induction cs as [|c' cs IH]; intros m c.
  - cbn [foldl]. by rewrite sync_conflicts_append_any.
  - change (foldl _ m (c :: c' :: cs))
      with (foldl (fun acc c => appendSyncConflict acc c limit)
              (appendSyncConflict m c limit) (c' :: cs)).
    rewrite IH, sync_conflicts_append_any, take_app_take by done.
    by rewrite (reverse_cons (c' :: cs) c), <- app_assoc.
Qed.

Lemma appendSyncConflict_others m c limit k :
  k ≠ "sync_conflicts" → appendSyncConflict m c limit !! k = m !! k.
Proof. intros Hk. unfold appendSyncConflict. by rewrite lookup_insert_ne. Qed.

(** X25.  The conflict log is the newest-first list of the latest
    conflicts.  After a run of [appendSyncConflict] calls on a task's
    metadata the log holds the appended entries in reverse order of
    arrival, followed by what was logged before, cut to the limit; it never
    holds more than the limit, every other key of the metadata is as it
    was, and a [sync_conflicts] value that is not an array counts as an
    empty log. *)
Theorem appendSyncConflict_keeps_latest (m : gmap string Json) (c : Json)
    (cs : list Json) (limit : nat) :
  let m' := foldl (fun acc c => appendSyncConflict acc c limit) m (c :: cs) in
  sync_conflicts m' = take limit (reverse (c :: cs) ++ sync_conflicts m)
  ∧ (length (sync_conflicts m') ≤ limit)%nat
  ∧ m' !! "sync_conflicts" = Some (JArr (sync_conflicts m'))
  ∧ (∀ k, k ≠ "sync_conflicts" → m' !! k = m !! k)
  ∧ ((∀ l, m !! "sync_conflicts" ≠ Some (JArr l)) →
       sync_conflicts m' = take limit (reverse (c :: cs))).
Proof.
  cbv zeta. split; [apply sync_conflicts_appends|]. split.
  { rewrite sync_conflicts_appends, length_take. lia. }
  split.
  { clear. revert m c. induction cs as [|c' cs IH]; intros m c.
    - cbn [foldl]. rewrite sync_conflicts_append_any.
      unfold appendSyncConflict. by rewrite lookup_insert_eq.
    - apply (IH (appendSyncConflict m c limit) c'). }
  split.
  { intros k Hk. clear -Hk. revert m c. induction cs as [|c' cs IH]; intros m c.
    - cbn [foldl]. by apply appendSyncConflict_others.
    - change (foldl _ m (c :: c' :: cs))
        with (foldl (fun acc c => appendSyncConflict acc c limit)
                (appendSyncConflict m c limit) (c' :: cs)).
      by rewrite IH, appendSyncConflict_others. }
  intros Hno. rewrite sync_conflicts_appends.
  assert (sync_conflicts m = []) as ->; [|by rewrite app_nil_r].
  unfold sync_conflicts. destruct (m !! "sync_conflicts") as [[]|] eqn:E; try done.
  by specialize (Hno l).
Qed.

Lemma appendSyncConflict_keeps_latest_witness :
  sync_conflicts
    (foldl (fun acc c => appendSyncConflict acc c conflict_limit)
       {["sync_conflicts" := JStr "garbled"; "claude_task_id" := JStr "7"]}
       [JNum 1; JNum 2; JNum 3; JNum 4; JNum 5; JNum 6])
  = [JNum 6; JNum 5; JNum 4; JNum 3; JNum 2].
Proof.
  apply (proj2 (proj2 (proj2 (proj2
    (appendSyncConflict_keeps_latest
       {["sync_conflicts" := JStr "garbled"; "claude_task_id" := JStr "7"]}
       (JNum 1) [JNum 2; JNum 3; JNum 4; JNum 5; JNum 6] conflict_limit))))).
  intros l. vm_compute. discriminate.
Defined.

(* ===================================================================== *)
(** ** lockTask between two readings of the clock *)
(* ===================================================================== *)

(** X26.  [lockTask] can report a lock it has not written.  On a store
    with unique ids, when the task is held under another name and the
    lease is not older than 30 minutes at the call's first reading of the
    clock but is at its third, the [UPDATE] matches no row and the call
    still returns [success: true] with the caller's name and the second
    reading as [locked_at]; the stored row is unchanged and still names
    the other holder. *)
Theorem lockTask_reports_unwritten_lock (w : World) (i a : string)
    (task : Task) (owner : string) (t : Z) :
  pk_unique w →
  select_task i w = Some task →
  locked_by task = Some owner → owner ≠ a →
  locked_at task = Some t →
  clock w (ticks w) - t <= expiryMs →
  expiryMs < clock w (S (S (ticks w))) - t →
  ∃ w', lockTask i a w
        = (inr (Lock.mk true (Some a) (Some (clock w (S (ticks w)))) None), w')
        ∧ tasks w' = tasks w
        ∧ select_task i w' = Some task.
Proof.
  intros Hpk Hsel Hlb Hne Hla Hfirst Hthird.
  assert (Hid := select_task_id _ _ _ Hsel).
  rewrite lockTask_run, Hsel.
  rewrite bool_decide_eq_false_2 by (rewrite Hlb; congruence).
  unfold acquire.
  assert (Hhit : List.filter (lock_where i a (clock w (ticks w) - expiryMs))
                   (tasks w) = []).
  { apply (filter_unique_nohit _ w task); [done|by rewrite Hid| |].
    - intros r Hr. rewrite Hid. by eapply lock_where_id.
    - eapply lock_where_held; [done|done|].
      intros t' Ht'. rewrite Hla in Ht'. injection Ht' as <-. lia. }
  rewrite bool_decide_eq_true_2 by done. rewrite Hla.
  assert (expired_at w (S (S (ticks w))) t = true) as ->
    by (unfold expired_at; apply Z.ltb_lt; lia).
  assert (Hsame : ∀ n, tasks (set_ticks n
             (set_tasks (map (row_update (lock_sets a (clock w (S (ticks w))))
                                (lock_where i a (clock w (ticks w) - expiryMs))))
                (set_ticks (S (S (ticks w))) w))) = tasks w).
  { intros n. cbn [tasks set_tasks set_ticks]. by apply map_row_update_nohit. }
  destruct (truthy_ostring (locked_by task)); eexists;
    (split; [reflexivity|]); (split; [apply (Hsame 0%nat)|]);
    rewrite (select_task_same_tasks i w) by apply (Hsame 0%nat); done.
Qed.

Lemma lockTask_reports_unwritten_lock_witness :
  ∃ w', lockTask "a" "codex" (held_world 8200001)
        = (inr (Lock.mk true (Some "codex") (Some 10000001) None), w')
        ∧ tasks w' = tasks (held_world 8200001)
        ∧ select_task "a" w' = Some (held_task "a" "claude" 8200001).
Proof.
  apply (lockTask_reports_unwritten_lock (held_world 8200001) "a" "codex"
           (held_task "a" "claude" 8200001) "claude" 8200001).
  - unfold pk_unique. vm_compute. apply NoDup_singleton.
  - reflexivity.
  - reflexivity.
  - discriminate.
  - reflexivity.
  - vm_compute. discriminate.
  - vm_compute. reflexivity.
Defined.
(* ===================================================================== *)
(** ** What each pass of the sync leaves alone *)
(* ===================================================================== *)

Section Stable.
Context (R : relation World) `{!PreOrder R}.

Lemma stable_ret {A} (a : A) : stable R (ret a).
Proof. intros w r w' [= _ <-]. reflexivity. Qed.

Lemma stable_throw {A} e : stable R (throw e : M A).
Proof. intros w r w' [= _ <-]. reflexivity. Qed.

Lemma stable_gets {A} (f : World → A) : stable R (gets f).
Proof. intros w r w' [= _ <-]. reflexivity. Qed.

Lemma stable_bind {A B} (m : M A) (k : A → M B) :
  stable R m → (∀ a, stable R (k a)) → stable R (m ≫= k).
Proof.
  intros Hm Hk w r w'. unfold mbind, M_bind, bind.
  destruct (m w) as [[e|a] w1] eqn:E.
  - intros [= _ <-]. by eapply Hm.
  - intros Hka. etrans; [by eapply Hm|by eapply Hk].
Qed.

Lemma stable_try_catch {A} (m : M A) (h : Error → M A) :
  stable R m → (∀ e, stable R (h e)) → stable R (try_catch m h).
Proof.
  intros Hm Hh w r w'. unfold try_catch.
  destruct (m w) as [[e|a] w1] eqn:E.
  - intros Hhe. etrans; [by eapply Hm|by eapply Hh].
  - intros [= _ <-]. by eapply Hm.
Qed.

Lemma stable_for_each {S A} (body : S → A → M S) st (xs : list A) :
  (∀ st x, stable R (body st x)) → stable R (for_each body st xs).
Proof.
  intros Hb. revert st. induction xs as [|x xs IH]; intros st.
  - apply stable_ret.
  - cbn [for_each]. apply stable_bind; [apply Hb|]. intros st'. apply IH.
Qed.

End Stable.

#[local] Instance push_row_preorder : PreOrder push_row.
Proof.
  split.
  - intros t. unfold push_row. naive_solver.
  - intros a b c Hab Hbc. unfold push_row in *.
    destruct Hab as (?&?&?&?&?&?&?&?&?&?&?&?&?&?&?&?).
    destruct Hbc as (?&?&?&?&?&?&?&?&?&?&?&?&?&?&?&?).
    repeat split; congruence.
Qed.

#[local] Instance push_side_preorder : PreOrder push_side.
Proof.
  split.
  - intros w. split; [|done]. apply Forall2_same_length_lookup.
    split; [done|]. intros k t t' H1 H2. rewrite H1 in H2. by injection H2 as ->.
  - intros a b c (Hab & Ht1 & Hd1 & Hm1) (Hbc & Ht2 & Hd2 & Hm2).
    split; [by etrans|]. split; [congruence|]. split; [congruence|]. auto.
Qed.

#[local] Instance pull_side_preorder : PreOrder pull_side.
Proof.
  split.
  - intros w. by repeat split.
  - intros a b c (Hm1 & Hd1 & Hab) (Hm2 & Hd2 & Hbc).
    split; [congruence|]. split; [congruence|]. by etrans.
Qed.

Lemma Forall2_map_r {A} (P : A → A → Prop) (h : A → A) (l : list A) :
  (∀ x, P x (h x)) → Forall2 P l (map h l).
Proof. intros H. induction l; cbn [map]; by constructor. Qed.

Lemma push_side_rows w w' (h : Task → Task) :
  (∀ t, push_row t (h t)) →
  tasks w' = map h (tasks w) → task_tags w' = task_tags w →
  task_dependencies w' = task_dependencies w → mirror w' = mirror w →
  push_side w w'.
Proof.
  intros Hh Ht Hg Hd Hm. split; [|by rewrite Hm].
  rewrite Ht. by apply Forall2_map_r.
Qed.

Lemma push_side_same w w' :
  tasks w' = tasks w → task_tags w' = task_tags w →
  task_dependencies w' = task_dependencies w →
  (is_Some (mirror w) → is_Some (mirror w')) →
  push_side w w'.
Proof.
  intros Ht Hg Hd Hm. split; [|done]. rewrite Ht.
  destruct (reflexivity (R:=push_side) w) as [Hrows _]. exact Hrows.
Qed.

Lemma stable_push_Date_now : stable push_side Date_now.
Proof. intros w r w' [= _ <-]. by apply push_side_same. Qed.

Lemma stable_push_with_dir f : stable push_side (with_dir f).
Proof.
  intros w r w'. unfold with_dir. destruct (mirror w) eqn:Hm.
  - intros [= _ <-]. apply push_side_same; try done; intros _; by eexists.
  - intros [= _ <-]. reflexivity.
Qed.

Lemma stable_push_writeClaudeTask ct : stable push_side (writeClaudeTask ct).
Proof.
  unfold writeClaudeTask. apply (stable_bind push_side); [apply stable_push_Date_now|].
  intros t. apply stable_push_with_dir.
Qed.

Lemma stable_push_updateTask i v m :
  stable push_side (updateTask i (Input.version_metadata v m)).
Proof.
  intros w r w'. rewrite updateTask_run.
  destruct (select_task i w) as [task|]; [|intros [= _ <-]; reflexivity].
  destruct (negb _); [intros [= _ <-]; reflexivity|].
  cbn [refs_exist Input.version_metadata Input.plan_id Input.task_list_id andb].
  intros [= _ <-].
  apply (push_side_rows _ _
           (row_update (update_sets (Input.version_metadata v m)
                          (clock w (ticks w))
                          (done_reading (Input.version_metadata v m) w))
              (update_where i (Input.version (Input.version_metadata v m)))));
    try reflexivity.
  intros t. unfold row_update. destruct (update_where _ _ t); [|reflexivity].
  rewrite apply_update_sets. unfold push_row. by repeat split.
Qed.

Lemma stable_push_listTasks f : stable push_side (listTasks f).
Proof.
  intros w r w'. rewrite listTasks_run. intros [= _ <-].
  apply (push_side_rows _ _ (sweep_row (clock w (ticks w) - expiryMs))).
  - intros t. unfold sweep_row, row_update. destruct (_ && _); [|reflexivity].
    unfold push_row. destruct t. by repeat split.
  - apply tasks_swept.
  - apply task_tags_swept.
  - unfold swept. by rewrite clearExpiredLocks_run.
  - apply swept_frame.
Qed.

Lemma stable_push_ensureDir : stable push_side ensureDir.
Proof.
  intros w r w'. unfold ensureDir, modify. intros [= _ <-].
  destruct (mirror w) eqn:Hm; [reflexivity|].
  apply push_side_same; try done; intros _; by eexists.
Qed.

Lemma stable_push_task pref cfg index st task :
  stable push_side (push_task pref cfg index st task).
Proof.
  unfold push_task. destruct (index !! id task) as [existing|].
  - apply (stable_try_catch push_side); [|intros; apply (stable_ret push_side)].
    unfold push_existing. destruct (_ && _).
    + apply (stable_bind push_side); [apply stable_push_Date_now|]. intros detected.
      apply (stable_bind push_side); [apply stable_push_updateTask|].
      intros _. apply (stable_ret push_side).
    + apply (stable_bind push_side); [apply stable_push_writeClaudeTask|]. intros _.
      apply (stable_bind push_side); [ |intros; apply (stable_ret push_side)].
      destruct (conflict_detected _ _ _); [|apply (stable_ret push_side)].
      apply (stable_bind push_side); [apply (stable_gets push_side)|].
      intros [latest|]; [|apply (stable_ret push_side)].
      apply (stable_bind push_side); [apply stable_push_Date_now|]. intros detected.
      apply (stable_bind push_side); [apply stable_push_updateTask|].
      intros; apply (stable_ret push_side).
  - unfold push_new.
    apply (stable_try_catch push_side); [|intros; apply (stable_ret push_side)].
    apply (stable_bind push_side); [apply stable_push_writeClaudeTask|]. intros _.
    apply (stable_bind push_side); [apply (stable_gets push_side)|]. intros [current|].
    + apply (stable_bind push_side); [ |intros; apply (stable_ret push_side)].
      apply (stable_bind push_side); [apply stable_push_updateTask|].
      intros; apply (stable_ret push_side).
    + apply (stable_bind push_side); [apply (stable_ret push_side)|].
      intros; apply (stable_ret push_side).
Qed.

Lemma stable_pushToClaudeTaskList projectId options :
  stable push_side (pushToClaudeTaskList projectId options).
Proof.
  unfold pushToClaudeTaskList.
  apply (stable_bind push_side); [apply stable_push_ensureDir|]. intros _.
  apply (stable_bind push_side); [apply stable_push_listTasks|]. intros rows.
  apply (stable_bind push_side); [apply (stable_gets push_side)|]. intros dir.
  apply (stable_bind push_side); [apply (stable_gets push_side)|]. intros cfg.
  apply (stable_bind push_side); [ |].
  { apply (stable_for_each push_side). intros st x. apply stable_push_task. }
  intros st.
  apply (stable_bind push_side); [apply stable_push_with_dir|]. intros _.
  apply (stable_bind push_side); [ |intros; apply (stable_ret push_side)].
  destruct (is_null cfg); [apply (stable_ret push_side)|apply stable_push_with_dir].
Qed.

Lemma ensureDir_run w :
  ∃ w0, ensureDir w = (inr tt, w0) ∧ is_Some (mirror w0).
Proof.
  unfold ensureDir, modify. eexists. split; [reflexivity|].
  destruct (mirror w) eqn:Hm; [by rewrite Hm|]. by eexists.
Qed.

Lemma with_dir_returns f w :
  is_Some (mirror w) → ∃ w', with_dir f w = (inr tt, w') ∧ is_Some (mirror w').
Proof.
  intros [d Hd]. exists (set_mirror (Some (f d)) w).
  split; [by apply with_dir_present|]. by eexists.
Qed.

(** The push pass always returns. *)
Lemma pushToClaudeTaskList_returns projectId options w :
  ∃ r w', pushToClaudeTaskList projectId options w = (inr r, w')
          ∧ pulled r = 0%nat.
Proof.
  unfold pushToClaudeTaskList. step_bind.
  destruct (ensureDir_run w) as (w0 & -> & Hm0).
  step_bind. rewrite listTasks_project.
  step_bind; unfold gets at 1. step_bind; unfold gets at 1. step_bind.
  assert (Hms : is_Some (mirror (swept w0))).
  { by rewrite (proj1 (swept_frame w0)). }
  match goal with
  | |- context [for_each ?b ?s ?l ?x] =>
      destruct (push_loop_counted (default prefer_remote options)
                  (task_prefix (swept w0))
                  (existingByTodosId (default (mkDir ∅ None None) (mirror (swept w0))))
                  l s x) as (st' & w2 & Hloop & _);
      pose proof (stable_for_each push_side b s l
                    (λ s0 t0, stable_push_task _ _ _ s0 t0) _ _ _ Hloop)
        as (_ & _ & _ & Hm2)
  end.
  rewrite Hloop. step_bind.
  destruct (with_dir_returns
              (λ d, mkDir (files d) (Some (Some (hwm st'))) (prefix_counter d))
              w2 (Hm2 Hms)) as (w3 & Hw3 & Hm3).
  unfold writeHighWaterMark. rewrite Hw3. step_bind.
  destruct (is_null (task_prefix (swept w0))).
  - by eexists _, _.
  - unfold writePrefixCounter.
    destruct (with_dir_returns
                (λ d, mkDir (files d) (highwatermark d)
                        (Some (Some (prefixCounter st'))))
                w3 Hm3) as (w4 & -> & _).
    by eexists _, _.
Qed.

(** X27.  The push pass writes only its own fields.  It always returns (a
    failure while pushing one task becomes an entry of [errors]), with
    [pulled = 0], and it neither adds nor removes a task: row for row the
    store is as before except for [metadata], [version] and [updated_at],
    which the pass writes, and the leases the listing swept.  Tables
    [task_tags] and [task_dependencies] are untouched, and the mirror
    directory exists afterwards. *)
Theorem push_writes_only_sync_fields (w : World) (projectId : option string)
    (options : option SyncPrefer) :
  ∃ r w',
    pushToClaudeTaskList projectId options w = (inr r, w')
    ∧ pulled r = 0%nat
    ∧ Forall2 push_row (tasks w) (tasks w')
    ∧ map id (tasks w') = map id (tasks w)
    ∧ task_tags w' = task_tags w
    ∧ task_dependencies w' = task_dependencies w
    ∧ is_Some (mirror w').
Proof.
  destruct (pushToClaudeTaskList_returns projectId options w)
    as (r & w' & Hr & Hp).
  exists r, w'. split; [done|]. split; [done|].
  destruct (stable_pushToClaudeTaskList projectId options _ _ _ Hr)
    as (Hrows & Htags & Hdeps & _).
  split; [done|]. split.
  { clear -Hrows. induction Hrows as [|t t' l l' Hrow _ IH]; [done|].
    cbn [map]. destruct Hrow as (-> & _). by rewrite IH. }
  split; [done|]. split; [done|].
  revert Hr. unfold pushToClaudeTaskList. step_bind.
  destruct (ensureDir_run w) as (w0 & -> & Hm0). intros Hr.
  eapply (stable_bind push_side) in Hr as (_ & _ & _ & Hm); [by apply Hm| |].
  - apply stable_push_listTasks.
  - intros rows.
    apply (stable_bind push_side); [apply (stable_gets push_side)|]. intros dir.
    apply (stable_bind push_side); [apply (stable_gets push_side)|]. intros cfg.
    apply (stable_bind push_side).
    { apply (stable_for_each push_side). intros st x. apply stable_push_task. }
    intros st.
    apply (stable_bind push_side); [apply stable_push_with_dir|]. intros _.
    apply (stable_bind push_side); [|intros; apply (stable_ret push_side)].
    destruct (is_null cfg); [apply (stable_ret push_side)|apply stable_push_with_dir].
Qed.

(* --------------------------------------------------------------------- *)
(** *** The pull pass *)
(* --------------------------------------------------------------------- *)

Lemma total_ret {A} (a : A) : total (ret a).
Proof. intros w. by eexists _, _. Qed.

Lemma total_bind {A B} (m : M A) (k : A → M B) :
  total m → (∀ a, total (k a)) → total (m ≫= k).
Proof.
  intros Hm Hk w. unfold mbind, M_bind, bind.
  destruct (Hm w) as (a & w1 & ->). apply Hk.
Qed.

Lemma total_try_catch {A} (m : M A) (h : Error → M A) :
  (∀ e, total (h e)) → total (try_catch m h).
Proof.
  intros Hh w. unfold try_catch.
  destruct (m w) as [[e|a] w1]; [apply Hh|by eexists _, _].
Qed.

Lemma total_for_each {S A} (body : S → A → M S) st (xs : list A) :
  (∀ st x, total (body st x)) → total (for_each body st xs).
Proof.
  intros Hb. revert st. induction xs as [|x xs IH]; intros st.
  - apply total_ret.
  - cbn [for_each]. apply total_bind; [apply Hb|]. intros st'. apply IH.
Qed.

Lemma pull_side_same w w' :
  tasks w' = tasks w → task_dependencies w' = task_dependencies w →
  mirror w' = mirror w → pull_side w w'.
Proof. intros Ht Hd Hm. split; [done|]. split; [done|]. by rewrite Ht. Qed.

Lemma stable_pull_Date_now : stable pull_side Date_now.
Proof. intros w r w' [= _ <-]. by apply pull_side_same. Qed.

Lemma stable_pull_updateTask i input : stable pull_side (updateTask i input).
Proof.
  intros w r w'. rewrite updateTask_run.
  destruct (select_task i w) as [task|]; [|intros [= _ <-]; reflexivity].
  destruct (negb _); [intros [= _ <-]; reflexivity|].
  destruct (refs_exist w input); intros [= _ <-]; [|by apply pull_side_same].
  split; [|split].
  - unfold after_update. by destruct (Input.tags input).
  - unfold after_update. by destruct (Input.tags input).
  - rewrite tasks_after_update. unfold updated_rows.
    by rewrite map_id_row_update.
Qed.

Lemma stable_pull_createTask input : stable pull_side (createTask input).
Proof.
  intros w r w'. rewrite createTask_run. cbv zeta.
  destruct (insertable w input); intros [= _ <-]; [|by apply pull_side_same].
  split; [done|]. split; [done|].
  cbn [tasks set_tasks set_task_tags set_ticks set_minted].
  rewrite map_app. by apply prefix_app_r.
Qed.

Lemma stable_pull_listTasks f : stable pull_side (listTasks f).
Proof.
  intros w r w'. rewrite listTasks_run. intros [= _ <-].
  split; [apply swept_frame|]. split.
  - unfold swept. by rewrite clearExpiredLocks_run.
  - rewrite tasks_swept. by rewrite map_id_sweep.
Qed.

Lemma stable_pull_file pref projectId byClaude byTodos file ct st :
  stable pull_side (pull_file pref projectId byClaude byTodos file ct st).
Proof.
  unfold pull_file.
  destruct (match byClaude !! Claude.id ct with Some t => Some t | None => _ end)
    as [existing|].
  - destruct (conflict_detected _ _ _).
    + apply (stable_bind pull_side); [apply stable_pull_Date_now|]. intros detected.
      destruct (bool_decide (pref = prefer_local)).
      * apply (stable_bind pull_side); [apply stable_pull_updateTask|].
        intros; apply (stable_ret pull_side).
      * apply (stable_bind pull_side); [apply stable_pull_updateTask|].
        intros; apply (stable_ret pull_side).
    + apply (stable_bind pull_side); [apply stable_pull_updateTask|].
      intros; apply (stable_ret pull_side).
  - apply (stable_bind pull_side); [apply stable_pull_createTask|].
    intros; apply (stable_ret pull_side).
Qed.

Lemma stable_pull_entry pref projectId byClaude byTodos st f :
  stable pull_side (pull_entry pref projectId byClaude byTodos st f).
Proof.
  unfold pull_entry. destruct (content f.2) as [ct|]; [|apply (stable_ret pull_side)].
  destruct (truthy_json _); [apply (stable_ret pull_side)|].
  apply (stable_try_catch pull_side); [apply stable_pull_file|].
  intros; apply (stable_ret pull_side).
Qed.

Lemma total_pull_entry pref projectId byClaude byTodos st f :
  total (pull_entry pref projectId byClaude byTodos st f).
Proof.
  unfold pull_entry. destruct (content f.2) as [ct|]; [|apply total_ret].
  destruct (truthy_json _); [apply total_ret|].
  apply total_try_catch. intros; apply total_ret.
Qed.

(** One file, at most one count: a file the pass acts on is counted once,
    as pulled or as one error. *)
Lemma pull_file_counts pref projectId byClaude byTodos file ct st w st' w' :
  pull_file pref projectId byClaude byTodos file ct st w = (inr st', w') →
  pull_handled st' = S (pull_handled st).
Proof.
  assert (Herr : ∀ msg, pull_handled (mkPull (l_pulled st) (l_errors st ++ [msg]))
                        = S (pull_handled st)).
  { intros msg. unfold pull_handled. cbn. rewrite length_app. cbn. lia. }
  assert (Hok : pull_handled (mkPull (S (l_pulled st)) (l_errors st))
                = S (pull_handled st)) by reflexivity.
  unfold pull_file.
  destruct (match byClaude !! Claude.id ct with Some t => Some t | None => _ end)
    as [existing|].
  - destruct (conflict_detected _ _ _).
    + step_bind. unfold Date_now at 1.
      destruct (bool_decide (pref = prefer_local)); step_bind;
        destruct (updateTask _ _ _) as [[e|a] w1]; try discriminate;
        intros [= <- _]; done.
    + step_bind. destruct (updateTask _ _ _) as [[e|a] w1]; [discriminate|].
      by intros [= <- _].
  - step_bind. destruct (createTask _ _) as [[e|a] w1]; [discriminate|].
    by intros [= <- _].
Qed.

Lemma pull_entry_counts pref projectId byClaude byTodos st f w st' w' :
  pull_entry pref projectId byClaude byTodos st f w = (inr st', w') →
  pull_handled st'
  = (pull_handled st
     + match content f.2 with
       | Some ct => if truthy_json (meta_get ct "_internal") then 0 else 1
       | None => 0
       end)%nat.
Proof.
  unfold pull_entry. destruct (content f.2) as [ct|]; [|intros [= <- _]; lia].
  destruct (truthy_json _); [intros [= <- _]; lia|].
  unfold try_catch.
  destruct (pull_file _ _ _ _ _ _ _ _) as [[e|a] w1] eqn:Hf.
  - intros [= <- _]. unfold pull_handled. cbn. rewrite length_app. cbn. lia.
  - intros [= <- _]. apply pull_file_counts in Hf. lia.
Qed.

Lemma pull_loop_counts pref projectId byClaude byTodos (fs : list (string * MirrorFile)) :
  ∀ st w st' w',
    for_each (pull_entry pref projectId byClaude byTodos) st fs w = (inr st', w') →
    pull_handled st'
    = (pull_handled st
       + length (List.filter
                   (fun f => match content (snd f) with
                             | Some ct => negb (truthy_json (meta_get ct "_internal"))
                             | None => false
                             end) fs))%nat.
Proof.
  induction fs as [|f fs IH]; intros st w st' w'.
  - intros [= <- _]. cbn. lia.
  - cbn [for_each]. step_bind.
    destruct (pull_entry _ _ _ _ st f w) as [[e|st1] w1] eqn:He; [discriminate|].
    intros Hloop. apply IH in Hloop. apply pull_entry_counts in He.
    rewrite Hloop, He. cbn [List.filter].
    destruct (content f.2) as [ct|]; [|lia].
    destruct (truthy_json _); cbn [negb length]; lia.
Qed.

(** X28.  The pull pass writes only the store.  It always returns, with
    [pushed = 0]; a missing directory is reported as the one error and
    nothing changes.  Otherwise every entry the pass acts on (readable,
    not marked [_internal]) is counted exactly once, as pulled or as one
    error.  The mirror directory and table [task_dependencies] are as
    before, and no task is removed: the stored ids are still there, in
    order, with the ids of new tasks after them. *)
Theorem pull_writes_only_store (w : World) (dir : string)
    (projectId : option string) (options : option SyncPrefer) :
  ∃ r w',
    pullFromClaudeTaskList dir projectId options w = (inr r, w')
    ∧ pushed r = 0%nat
    ∧ mirror w' = mirror w
    ∧ task_dependencies w' = task_dependencies w
    ∧ map id (tasks w) `prefix_of` map id (tasks w')
    ∧ (mirror w = None →
         r = mkResult 0 0 ["Task list directory not found: " +:+ dir]
         ∧ w' = w)
    ∧ (∀ d, mirror w = Some d →
         (pulled r + length (errors r))%nat = length (pullable d)).
Proof.
  assert (Hst : stable pull_side (pullFromClaudeTaskList dir projectId options)).
  { unfold pullFromClaudeTaskList.
    apply (stable_bind pull_side); [apply (stable_gets pull_side)|].
    intros [d|]; [|apply (stable_ret pull_side)].
    apply (stable_bind pull_side); [apply stable_pull_listTasks|]. intros allTasks.
    apply (stable_bind pull_side); [|intros; apply (stable_ret pull_side)].
    apply (stable_for_each pull_side). intros st f. apply stable_pull_entry. }
  assert (Htot : total (pullFromClaudeTaskList dir projectId options)).
  { unfold pullFromClaudeTaskList.
    apply total_bind; [intros w0; by eexists _, _|].
    intros [d|]; [|apply total_ret].
    apply total_bind; [intros w0; rewrite listTasks_run; by eexists _, _|].
    intros allTasks. apply total_bind; [|intros; apply total_ret].
    apply total_for_each. intros st f. apply total_pull_entry. }
  destruct (Htot w) as (r & w' & Hr). exists r, w'. split; [done|].
  destruct (Hst _ _ _ Hr) as (Hm & Hd & Hids).
  revert Hr. unfold pullFromClaudeTaskList. step_bind. unfold gets at 1.
  destruct (mirror w) as [d|] eqn:Hmw.
  - step_bind. rewrite listTasks_run. step_bind.
    destruct (for_each _ _ _ _) as [[e|st'] w2] eqn:Hloop; [discriminate|].
    intros [= <- <-]. split; [done|]. split; [done|]. split; [done|].
    split; [done|]. split; [done|]. intros d' [= <-].
    apply pull_loop_counts in Hloop. cbn [pulled errors].
    unfold pull_handled in Hloop. cbn in Hloop. unfold pullable. lia.
  - intros [= <- <-]. do 5 (split; [done|]). done.
Qed.

Lemma pull_writes_only_store_witness :
  ∃ r w', pullFromClaudeTaskList "~/.claude/tasks/list" None None synced_world
          = (inr r, w')
          ∧ mirror w' = mirror synced_world
          ∧ (pulled r + length (errors r))%nat = 1%nat.
Proof.
  destruct (pull_writes_only_store synced_world "~/.claude/tasks/list" None None)
    as (r & w' & Hr & _ & Hm & _ & _ & _ & Hcount).
  exists r, w'. split; [exact Hr|]. split; [exact Hm|].
  rewrite (Hcount synced_dir eq_refl). vm_compute. reflexivity.
Defined.
(* ===================================================================== *)
(** ** The push pass on tasks that have no mirror record *)
(* ===================================================================== *)

Lemma new_record_fields cfg task name counter :
  Claude.id (new_record cfg task name counter) = name
  ∧ meta_get (new_record cfg task name counter) "todos_id" = Some (JStr (id task))
  ∧ Claude.status (new_record cfg task name counter) = toClaudeStatus (status task).
Proof.
  unfold new_record. destruct cfg; cbn; repeat split;
    unfold meta_get; cbn; by rewrite !lookup_insert_ne, lookup_insert_eq by done.
Qed.

(** One iteration on a task without a record, in closed form. *)
Lemma push_new_run cfg task st w d :
  mirror w = Some d →
  select_task (id task) w = Some task →
  ∃ w' new,
    push_new cfg task st w
    = (inr (mkPush (hwm st + 1)
              (if is_null cfg then prefixCounter st else prefixCounter st + 1)
              (S (p_pushed st)) (p_errors st)), w')
    ∧ mirror w'
      = Some (mkDir (<[pretty (hwm st) :=
                         mkFile (Some (new_record cfg task (pretty (hwm st))
                                         (if is_null cfg then prefixCounter st
                                          else prefixCounter st + 1)))
                                (clock w (ticks w))]> (files d))
                    (highwatermark d) (prefix_counter d))
    ∧ select_task (id task) w' = Some new
    ∧ metadata new = <["claude_task_id" := JStr (pretty (hwm st))]> (metadata task)
    ∧ version new = version task + 1
    ∧ (∀ j, j ≠ id task → select_task j w' = select_task j w)
    ∧ task_prefix w' = task_prefix w.
Proof.
  intros Hm Hsel. unfold push_new, try_catch.
  set (ct := match cfg with
             | Some c => with_subject _ _
             | None => taskToClaudeTask task (pretty (hwm st)) None
             end).
  assert (Hct : ct = new_record cfg task (pretty (hwm st))
                       (if is_null cfg then prefixCounter st
                        else prefixCounter st + 1)).
  { unfold ct, new_record. by destruct cfg. }
  assert (Hname : Claude.id ct = pretty (hwm st)).
  { rewrite Hct. apply new_record_fields. }
  step_bind. rewrite (writeClaudeTask_run ct w d Hm).
  step_bind. unfold getTask at 1, gets at 1.
  set (w2 := set_mirror _ (set_ticks (S (ticks w)) w)).
  change (select_task (id task) w2) with (select_task (id task) w).
  rewrite Hsel. step_bind. step_bind.
  destruct (updateTask_metadata w2 task
              (<["claude_task_id" := JStr (pretty (hwm st))]> (metadata task)))
    as (w3 & new & Hup & Hnew & Hmeta & Hmir); [exact Hsel|].
  rewrite Hup. cbn [ret]. unfold ret.
  exists w3, new. split; [reflexivity|].
  split; [by rewrite Hmir, <- Hct, <- Hname|].
  split; [done|]. split; [done|].
  revert Hup. rewrite updateTask_run.
  change (select_task (id task) w2) with (select_task (id task) w).
  rewrite Hsel. cbn [Input.version Input.version_metadata].
  rewrite Z.eqb_refl. cbn [negb].
  change (refs_exist w2 _) with true. cbv iota.
  intros [= Hn <-]. split; [|split].
  - rewrite <- Hn. reflexivity.
  - intros j Hj. by rewrite select_other_after_update.
  - reflexivity.
Qed.

Lemma push_loop_new pref cfg index rows :
  ∀ st w d,
    NoDup (map id rows) →
    mirror w = Some d →
    (∀ t, t ∈ rows → index !! id t = None ∧ select_task (id t) w = Some t) →
    ∃ st' w' d',
      for_each (push_task pref cfg index) st rows w = (inr st', w')
      ∧ hwm st' = hwm st + Z.of_nat (length rows)
      ∧ p_pushed st' = (p_pushed st + length rows)%nat
      ∧ p_errors st' = p_errors st
      ∧ (is_null cfg = false → prefixCounter st' = prefixCounter st + Z.of_nat (length rows))
      ∧ mirror w' = Some d'
      ∧ highwatermark d' = highwatermark d
      ∧ task_prefix w' = task_prefix w
      ∧ (∀ name, (∀ k, (k < length rows)%nat → name ≠ pretty (hwm st + Z.of_nat k)) →
                 files d' !! name = files d !! name)
      ∧ (∀ j, j ∉ map id rows → select_task j w' = select_task j w)
      ∧ (∀ k t, rows !! k = Some t → mirrored_as (pretty (hwm st + Z.of_nat k)) t d' w').
Proof.
  induction rows as [|t rows IH]; intros st w d Hnd Hm Hrows.
  - exists st, w, d. split; [reflexivity|]. cbn [length].
    split; [lia|]. split; [lia|]. split; [done|]. split; [intros _; lia|].
    split; [done|]. split; [done|]. split; [done|]. split; [done|].
    split; [done|]. intros k t Hk. by rewrite lookup_nil in Hk.
  - cbn [map] in Hnd. apply NoDup_cons in Hnd as [Hfresh Hnd].
    destruct (Hrows t) as [Hidx Hsel]; [by left|].
    destruct (push_new_run cfg t st w d Hm Hsel)
      as (w1 & new & Hstep & Hm1 & Hnew & Hmeta & Hver & Hframe & Hpre).
    destruct (IH (mkPush (hwm st + 1)
                    (if is_null cfg then prefixCounter st else prefixCounter st + 1)
                    (S (p_pushed st)) (p_errors st)) w1 _ Hnd Hm1) as
      (st' & w' & d' & Hloop & Hh & Hp & He & Hc & Hm' & Hhw & Hpre' & Hfiles
       & Hout & Hin).
    { intros t' Ht'. destruct (Hrows t') as [Hi' Hs']; [by right|].
      split; [done|]. rewrite Hframe; [done|].
      intros E. apply Hfresh. rewrite <- E.
      by apply list_elem_of_In, in_map, list_elem_of_In. }
    cbn [hwm prefixCounter p_pushed p_errors] in Hh, Hp, He, Hc, Hfiles, Hin.
    exists st', w', d'. split.
    { cbn [for_each]. unfold mbind, M_bind, bind.
      unfold push_task at 1. rewrite Hidx, Hstep. exact Hloop. }
    cbn [length]. split; [lia|]. split; [lia|]. split; [done|].
    split. { intros Hcfg. rewrite Hc by done. rewrite Hcfg. lia. }
    split; [done|]. split; [done|]. split; [congruence|].
    split; [|split].
    + intros name Hname. rewrite Hfiles.
      * cbn [files]. rewrite lookup_insert_ne; [done|].
        intros E. apply (Hname 0%nat); [lia|]. rewrite <- E. f_equal. lia.
      * intros k Hk E. apply (Hname (S k)); [lia|]. rewrite E.
        by replace (hwm st + Z.of_nat (S k)) with (hwm st + 1 + Z.of_nat k) by lia.
    + intros j Hj. rewrite Hout, Hframe; [done| |]; intros E; apply Hj; cbn [map].
      * subst j. by left.
      * by right.
    + intros [|k] t' Hk.
      * injection Hk as <-. replace (hwm st + Z.of_nat 0) with (hwm st) by lia.
        split.
        -- destruct (new_record_fields cfg t (pretty (hwm st))
                       (if is_null cfg then prefixCounter st
                        else prefixCounter st + 1)) as (Hi & Ht & Hs).
           eexists _, _. split; [|done].
           rewrite Hfiles.
           ++ cbn [files]. by rewrite lookup_insert_eq.
           ++ intros k Hk E. apply (inj pretty) in E. lia.
        -- exists new. split; [|done]. rewrite Hout; [done|]. exact Hfresh.
      * cbn [lookup list_lookup] in Hk. specialize (Hin k t' Hk).
        replace (hwm st + Z.of_nat (S k)) with (hwm st + 1 + Z.of_nat k) by lia. exact Hin.
Qed.

Lemma ensureDir_dir_of w :
  ensureDir w = (inr tt, set_mirror (Some (dir_of w)) w).
Proof.
  unfold ensureDir, modify, dir_of. destruct (mirror w) eqn:Hm; cbn [default].
  - f_equal. destruct w. cbn in Hm. by subst.
  - done.
Qed.

Lemma listed_set_mirror projectId m w :
  listed projectId (set_mirror m w) = listed projectId w.
Proof. unfold listed. by rewrite !matching_swept. Qed.

(** X29.  Tasks the mirror has never seen get consecutive external ids.  On
    a store with one row per id, when no record of the directory points at
    a listed task, the pass pushes every listed task and reports no error.
    The [k]-th listed task gets the id [highwatermark + k] (the mark reads
    as 1 when the directory has none): the file of that name holds its
    record, and the task's metadata stores the id with the version raised by
    one.  The mark is advanced by the number of listed tasks, and every file
    under another name is as it was. *)
Theorem push_numbers_new_tasks (projectId : option string)
    (options : option SyncPrefer) (w : World) :
  pk_unique w →
  (∀ t, t ∈ listed projectId w → existingByTodosId (dir_of w) !! id t = None) →
  ∃ r w' d',
    pushToClaudeTaskList projectId options w = (inr r, w')
    ∧ mirror w' = Some d'
    ∧ pushed r = length (listed projectId w)
    ∧ errors r = []
    ∧ highwatermark d'
      = Some (Some (readHighWaterMark (dir_of w)
                    + Z.of_nat (length (listed projectId w))))
    ∧ (∀ k t, listed projectId w !! k = Some t →
              mirrored_as (pretty (readHighWaterMark (dir_of w) + Z.of_nat k))
                t d' w')
    ∧ (∀ name,
         (∀ k, (k < length (listed projectId w))%nat →
               name ≠ pretty (readHighWaterMark (dir_of w) + Z.of_nat k)) →
         files d' !! name = files (dir_of w) !! name).
Proof.
  intros Hpk Hnew.
  unfold pushToClaudeTaskList. step_bind. rewrite ensureDir_dir_of.
  set (w0 := set_mirror (Some (dir_of w)) w).
  step_bind. rewrite listTasks_project.
  step_bind; unfold gets at 1. step_bind; unfold gets at 1. step_bind.
  assert (Hl : listed projectId w0 = listed projectId w)
    by apply listed_set_mirror.
  assert (Hms : mirror (swept w0) = Some (dir_of w)).
  { by rewrite (proj1 (swept_frame w0)). }
  rewrite Hms. cbn [default from_option Datatypes.id].
  destruct (listed_stored projectId w0) as [Hnd Hsel]; [exact Hpk|].
  rewrite Hl in Hnd, Hsel |- *.
  set (n := length (listed projectId w)).
  match goal with
  | |- context [for_each ?b ?s ?l ?x] =>
      destruct (push_loop_new (default prefer_remote options)
                  (task_prefix (swept w0)) (existingByTodosId (dir_of w))
                  l s x (dir_of w) Hnd Hms)
        as (st' & w2 & d2 & Hloop & Hh & Hp & He & _ & Hm2 & _ & _ & Hfiles
            & _ & Hin)
  end.
  { intros t Ht. split; [by apply Hnew|by apply Hsel]. }
  cbn [hwm p_pushed p_errors] in Hh, Hp, He, Hfiles, Hin.
  rewrite Hloop. step_bind.
  unfold writeHighWaterMark. rewrite (with_dir_present _ w2 d2 Hm2). step_bind.
  set (d3 := mkDir (files d2) (Some (Some (hwm st'))) (prefix_counter d2)).
  destruct (is_null (task_prefix (swept w0))).
  - exists (mkResult (p_pushed st') 0 (p_errors st')),
      (set_mirror (Some d3) w2), d3.
    split; [reflexivity|]. split; [reflexivity|].
    cbn [pushed errors]. split; [by rewrite Hp|]. split; [done|].
    split; [by cbn [d3 highwatermark]; rewrite Hh|].
    split; [|exact Hfiles]. intros k t Hk. exact (Hin k t Hk).
  - unfold writePrefixCounter.
    rewrite (with_dir_present _ (set_mirror (Some d3) w2) d3 eq_refl).
    set (d4 := mkDir (files d3) (highwatermark d3) _).
    exists (mkResult (p_pushed st') 0 (p_errors st')),
      (set_mirror (Some d4) (set_mirror (Some d3) w2)), d4.
    split; [reflexivity|]. split; [reflexivity|].
    cbn [pushed errors]. split; [by rewrite Hp|]. split; [done|].
    split; [by cbn [d4 d3 highwatermark]; rewrite Hh|].
    split; [|exact Hfiles]. intros k t Hk. exact (Hin k t Hk).
Qed.

(** X29 at work: two tasks, no directory.  The pass creates the directory
    and numbers the tasks 1 and 2 in listing order (["b"], of high priority,
    first), and leaves the mark at 3. *)
Lemma push_numbers_new_tasks_witness :
  ∃ r w' d',
    pushToClaudeTaskList None None unmirrored_world = (inr r, w')
    ∧ mirror w' = Some d'
    ∧ pushed r = 2%nat ∧ errors r = []
    ∧ highwatermark d' = Some (Some 3)
    ∧ map id (listed None unmirrored_world) = ["b"; "a"]
    ∧ mirrored_as "1" (sample_task "b" 1 200 high) d' w'
    ∧ mirrored_as "2" (sample_task "a" 1 100 low) d' w'.
Proof.
  destruct (push_numbers_new_tasks None None unmirrored_world)
    as (r & w' & d' & Hr & Hm & Hp & He & Hh & Hin & _).
  - unfold pk_unique. vm_compute. repeat constructor; set_solver.
  - intros t _. vm_compute. reflexivity.
  - exists r, w', d'. split; [exact Hr|]. split; [exact Hm|].
    split; [exact Hp|]. split; [exact He|]. split; [exact Hh|].
    split; [vm_compute; reflexivity|].
    split; [exact (Hin 0%nat _ eq_refl)|exact (Hin 1%nat _ eq_refl)].
Defined.
(* ===================================================================== *)
(** ** The full sync: pull, then push *)
(* ===================================================================== *)

Lemma stable_pullFromClaudeTaskList dir projectId options :
  stable pull_side (pullFromClaudeTaskList dir projectId options).
Proof.
  unfold pullFromClaudeTaskList.
  apply (stable_bind pull_side); [apply (stable_gets pull_side)|].
  intros [d|]; [|apply (stable_ret pull_side)].
  apply (stable_bind pull_side); [apply stable_pull_listTasks|]. intros allTasks.
  apply (stable_bind pull_side); [|intros; apply (stable_ret pull_side)].
  apply (stable_for_each pull_side). intros st f. apply stable_pull_entry.
Qed.

Lemma total_pullFromClaudeTaskList dir projectId options :
  total (pullFromClaudeTaskList dir projectId options).
Proof.
  unfold pullFromClaudeTaskList.
  apply total_bind; [intros w0; by eexists _, _|].
  intros [d|]; [|apply total_ret].
  apply total_bind; [intros w0; rewrite listTasks_run; by eexists _, _|].
  intros allTasks. apply total_bind; [|intros; apply total_ret].
  apply total_for_each. intros st f. apply total_pull_entry.
Qed.

Lemma push_row_ids l l' :
  Forall2 push_row l l' → map id l' = map id l.
Proof.
  induction 1 as [|t t' l l' Hrow _ IH]; [done|].
  cbn [map]. destruct Hrow as (-> & _). by rewrite IH.
Qed.

Lemma pushToClaudeTaskList_dir projectId options w r w' :
  pushToClaudeTaskList projectId options w = (r, w') → is_Some (mirror w').
Proof.
  unfold pushToClaudeTaskList. step_bind.
  destruct (ensureDir_run w) as (w0 & -> & Hm0). intros Hr.
  eapply (stable_bind push_side) in Hr as (_ & _ & _ & Hm); [by apply Hm| |].
  - apply stable_push_listTasks.
  - intros rows.
    apply (stable_bind push_side); [apply (stable_gets push_side)|]. intros d.
    apply (stable_bind push_side); [apply (stable_gets push_side)|]. intros cfg.
    apply (stable_bind push_side).
    { apply (stable_for_each push_side). intros st x. apply stable_push_task. }
    intros st.
    apply (stable_bind push_side); [apply stable_push_with_dir|]. intros _.
    apply (stable_bind push_side); [|intros; apply (stable_ret push_side)].
    destruct (is_null cfg); [apply (stable_ret push_side)|apply stable_push_with_dir].
Qed.

(** X30.  The full sync pulls, then pushes, and always returns.  Afterwards
    the mirror directory exists, table [task_dependencies] is as before and
    every stored task is still there, in order, with the tasks the pull
    created after them.  On a directory that does not exist the pull's
    complaint is the first entry of [errors], although the push then creates
    the directory: nothing is pulled, no task is added, and every listed
    task is counted once, as pushed or as one further error. *)
Theorem syncClaudeTaskList_pull_then_push (w : World) (dir : string)
    (projectId : option string) (options : option SyncPrefer) :
  ∃ r w',
    syncClaudeTaskList dir projectId options w = (inr r, w')
    ∧ is_Some (mirror w')
    ∧ task_dependencies w' = task_dependencies w
    ∧ map id (tasks w) `prefix_of` map id (tasks w')
    ∧ (mirror w = None →
         pulled r = 0%nat
         ∧ head (errors r) = Some ("Task list directory not found: " +:+ dir)
         ∧ map id (tasks w') = map id (tasks w)
         ∧ (pushed r + length (errors r))%nat
           = S (length (listed projectId w))).
Proof.
  destruct (total_pullFromClaudeTaskList dir projectId options w)
    as (r1 & w1 & Hr1).
  destruct (pushToClaudeTaskList_returns projectId options w1)
    as (r2 & w2 & Hr2 & _).
  exists (mkResult (pushed r2) (pulled r1) (errors r1 ++ errors r2)), w2.
  split. { unfold syncClaudeTaskList. step_bind. rewrite Hr1. step_bind.
           by rewrite Hr2. }
  destruct (stable_pullFromClaudeTaskList _ _ _ _ _ _ Hr1) as (Hm1 & Hd1 & Hp1).
  destruct (stable_pushToClaudeTaskList _ _ _ _ _ Hr2) as (Hrows & _ & Hd2 & _).
  apply push_row_ids in Hrows.
  split; [by eapply pushToClaudeTaskList_dir|].
  split; [congruence|]. split; [by rewrite Hrows|].
  intros Hnone. revert Hr1. unfold pullFromClaudeTaskList.
  step_bind. unfold gets at 1. rewrite Hnone. intros [= <- <-].
  cbn [pulled errors pushed app head]. split; [done|]. split; [done|].
  split; [done|].
  apply push_handles_listed in Hr2 as [Hn _]. cbn [length].
  rewrite ensureDir_dir_of in Hn. cbn [snd] in Hn.
  rewrite listed_set_mirror in Hn. lia.
Qed.

(** X30 at work: two tasks and no directory.  The sync reports the missing
    directory and yet pushes both tasks. *)
Lemma syncClaudeTaskList_pull_then_push_witness :
  ∃ r w',
    syncClaudeTaskList "/lists/x" None None unmirrored_world = (inr r, w')
    ∧ is_Some (mirror w')
    ∧ pulled r = 0%nat
    ∧ head (errors r) = Some "Task list directory not found: /lists/x"
    ∧ (pushed r + length (errors r))%nat = 3%nat
    ∧ pushed r = 2%nat.
Proof.
  destruct (syncClaudeTaskList_pull_then_push unmirrored_world "/lists/x"
              None None) as (r & w' & Hr & Hm & _ & _ & Hnone).
  destruct (Hnone eq_refl) as (Hp & He & _ & Hn).
  exists r, w'. split; [exact Hr|]. split; [exact Hm|].
  split; [exact Hp|]. split; [exact He|]. split; [exact Hn|].
  replace r with (match fst (syncClaudeTaskList "/lists/x" None None
                                unmirrored_world) with
                  | inr r0 => r0
                  | inl _ => mkResult 0 0 []
                  end) by (by rewrite Hr).
  vm_compute. done.
Defined.
